(** * ZIP central-directory repair and verification of FM4_CarAudioTuner.py

    A shallow embedding of [rebuild_zip_central_directory] and [verify_zip]
    (src/FM4_CarAudioTuner.py, lines 463-526) together with the parts of
    Python's [struct], [bytes] and [str] they rely on.

    - a file's content is a [list byte];
    - Python integers are [Z];
    - a Python [str] is the list of its code points;
    - a raised exception is the [Raise] outcome of the [result] monad;
    - the two [while] loops are run with a fuel that is proved sufficient,
      and are related to fuel-free big-step relations. *)

From Stdlib.Strings Require Import String Ascii Byte.
From Stdlib Require Import DecimalString HexadecimalString.
From Stdlib Require Import ZArith List Bool Lia Sorted Permutation.
Import ListNotations.
Local Open Scope Z_scope.

(** ** Exceptions *)

Inductive exn : Type :=
| StructError          (* struct.error *)
| UnicodeEncodeError.  (* str.encode("ascii") on a non-ASCII character *)

Inductive result (A : Type) : Type :=
| Ok (a : A)
| Raise (e : exn).

Arguments Ok {A} a.
Arguments Raise {A} e.

Definition bind {A B : Type} (r : result A) (k : A -> result B) : result B :=
  match r with
  | Ok a => k a
  | Raise e => Raise e
  end.

Notation "x <- c ;; k" := (bind c (fun x => k))
  (at level 61, c at next level, right associativity).
Notation "' p <- c ;; k" := (bind c (fun x => match x with p => k end))
  (at level 61, p pattern, c at next level, right associativity).

(** ** Bytes *)

Definition bytes := list byte.

Definition len (d : bytes) : Z := Z.of_nat (length d).

Definition Z_of_byte (b : byte) : Z := Z.of_N (Byte.to_N b).

Definition byte_of_Z (z : Z) : byte :=
  match Byte.of_N (Z.to_N (z mod 256)) with
  | Some b => b
  | None => x00
  end.

Fixpoint bytes_eqb (a b : bytes) : bool :=
  match a, b with
  | [], [] => true
  | x :: a', y :: b' => Byte.eqb x y && bytes_eqb a' b'
  | _, _ => false
  end.

(** [d[a:b]] for non-negative [a] and [b]; Python clips both ends to the
    length of [d]. *)
Definition slice (d : bytes) (a b : Z) : bytes :=
  firstn (Z.to_nat (b - a)) (skipn (Z.to_nat a) d).

(** [d.rfind(pat)]: the highest index at which [pat] occurs, or -1. *)
Fixpoint starts_with (pat d : bytes) : bool :=
  match pat, d with
  | [], _ => true
  | p :: pat', x :: d' => Byte.eqb p x && starts_with pat' d'
  | _ :: _, [] => false
  end.

Fixpoint rfind_below (pat d : bytes) (n : nat) : Z :=
  match n with
  | O => -1
  | S k => if starts_with pat (skipn k d) then Z.of_nat k
           else rfind_below pat d k
  end.

Definition rfind (d pat : bytes) : Z :=
  rfind_below pat d (S (length d) - length pat).

(** ** struct: little-endian packing *)

Inductive fmt_code : Type :=
| H   (* unsigned short, 2 bytes *)
| I.  (* unsigned int, 4 bytes *)

Definition code_size (c : fmt_code) : nat :=
  match c with H => 2%nat | I => 4%nat end.

Fixpoint calcsize (fmt : list fmt_code) : nat :=
  match fmt with
  | [] => O
  | c :: fmt' => (code_size c + calcsize fmt')%nat
  end.

Fixpoint le_encode (n : nat) (v : Z) : bytes :=
  match n with
  | O => []
  | S k => byte_of_Z (v mod 256) :: le_encode k (v / 256)
  end.

Fixpoint le_decode (bs : bytes) : Z :=
  match bs with
  | [] => 0
  | b :: bs' => Z_of_byte b + 256 * le_decode bs'
  end.

Definition in_range (c : fmt_code) (v : Z) : bool :=
  (0 <=? v) && (v <? 2 ^ (8 * Z.of_nat (code_size c))).

(** [struct.pack("<...", *vals)]: [struct.error] when a value does not fit
    its field or when the number of values differs from the format's. *)
Fixpoint pack (fmt : list fmt_code) (vals : list Z) : result bytes :=
  match fmt, vals with
  | [], [] => Ok []
  | c :: fmt', v :: vals' =>
      if in_range c v then
        rest <- pack fmt' vals' ;;
        Ok (le_encode (code_size c) v ++ rest)
      else Raise StructError
  | _, _ => Raise StructError
  end.

Fixpoint unpack_fields (fmt : list fmt_code) (bs : bytes) : list Z :=
  match fmt with
  | [] => []
  | c :: fmt' =>
      le_decode (firstn (code_size c) bs)
      :: unpack_fields fmt' (skipn (code_size c) bs)
  end.

(** [struct.unpack_from("<...", data, offset)]: a negative offset counts
    from the end; [struct.error] when fewer than [calcsize] bytes remain. *)
Definition unpack_from (fmt : list fmt_code) (data : bytes) (offset : Z)
  : result (list Z) :=
  let offset' := if offset <? 0 then offset + len data else offset in
  if (offset' <? 0) || (len data - offset' <? Z.of_nat (calcsize fmt))
  then Raise StructError
  else Ok (unpack_fields fmt (skipn (Z.to_nat offset') data)).

(** [t[i]] on the tuple an unpack returned. *)
Definition item (t : list Z) (i : nat) : Z := nth i t 0.

(** ** str: ASCII decoding and encoding *)

Definition pystr := list Z.

Definition REPLACEMENT_CHARACTER : Z := 0xFFFD.

(** [bs.decode("ascii", errors="replace")] *)
Definition decode_ascii_replace (bs : bytes) : pystr :=
  map (fun b => if Z_of_byte b <? 128 then Z_of_byte b
                else REPLACEMENT_CHARACTER) bs.

(** [s.encode("ascii")] *)
Definition encode_ascii (s : pystr) : result bytes :=
  if forallb (fun c => c <? 128) s then Ok (map byte_of_Z s)
  else Raise UnicodeEncodeError.

(** ** Signatures *)

Definition LOCAL_SIG : Z := 0x04034B50.
Definition CD_SIG : Z := 0x02014B50.
Definition EOCD_SIG : Z := 0x06054B50.

(** b"PK\x05\x06" and b"PK\x01\x02" *)
Definition EOCD_MAGIC : bytes := [x50; x4b; x05; x06].
Definition CD_MAGIC : bytes := [x50; x4b; x01; x02].

Definition LOCAL_FMT : list fmt_code := [H; H; H; H; H; I; I; I; H; H].
Definition CD_FMT : list fmt_code :=
  [I; H; H; H; H; H; H; I; I; I; H; H; H; H; H; I; I].
Definition EOCD_FMT : list fmt_code := [I; H; H; H; H; I; I; H].

(** ** rebuild_zip_central_directory *)

(** One element of [local_entries]. *)
Record local_entry : Type := mk_entry {
  local_header_offset : Z;
  name : pystr;
  ver : Z;
  flags : Z;
  method : Z;
  modtime : Z;
  moddate : Z;
  crc : Z;
  comp_sz : Z;
  uncomp_sz : Z;
  fn_len : Z;
  extra_len : Z
}.

(** The [while offset < len(data) - 30] loop. Every iteration advances
    [offset] by at least one, so [length data] iterations are enough
    ([scan_loop_run] below); with the fuel spent the loop state is
    returned as it is. *)
Fixpoint scan_loop (fuel : nat) (data : bytes) (offset : Z)
    (local_entries : list local_entry) : result (list local_entry * Z) :=
  match fuel with
  | O => Ok (local_entries, offset)
  | S fuel' =>
      if offset <? len data - 30 then
        t <- unpack_from [I] data offset ;;
        let sig := item t 0 in
        if sig =? LOCAL_SIG then
          fields <- unpack_from LOCAL_FMT data (offset + 4) ;;
          match fields with
          | [ver; flags; method; modtime; moddate; crc; comp_sz; uncomp_sz;
             fn_len; extra_len] =>
              let fn := decode_ascii_replace
                          (slice data (offset + 30) (offset + 30 + fn_len)) in
              scan_loop fuel' data
                (offset + (30 + fn_len + extra_len + comp_sz))
                (local_entries ++
                 [mk_entry offset fn ver flags method modtime moddate crc
                    comp_sz uncomp_sz fn_len extra_len])
          | _ => Raise StructError
          end
        else if sig =? CD_SIG then Ok (local_entries, offset)
        else scan_loop fuel' data (offset + 1) local_entries
      else Ok (local_entries, offset)
  end.

Definition scan (data : bytes) : result (list local_entry * Z) :=
  scan_loop (length data) data 0 [].

(** The central-directory record of one entry (lines 488-492). *)
Definition cd_record (e : local_entry) : result bytes :=
  fn_bytes <- encode_ascii (name e) ;;
  entry <- pack CD_FMT
             [CD_SIG; ver e; ver e; flags e; method e; modtime e; moddate e;
              crc e; comp_sz e; uncomp_sz e; fn_len e; 0; 0; 0; 0; 0;
              local_header_offset e] ;;
  Ok (entry ++ fn_bytes).

(** The [for e in local_entries] loop, [cd_entries] being its accumulator. *)
Fixpoint build_cd (local_entries : list local_entry) (cd_entries : bytes)
  : result bytes :=
  match local_entries with
  | [] => Ok cd_entries
  | e :: rest =>
      r <- cd_record e ;;
      build_cd rest (cd_entries ++ r)
  end.

Definition build_eocd (entry_count cd_size cd_offset : Z) : result bytes :=
  pack EOCD_FMT [EOCD_SIG; 0; 0; entry_count; entry_count; cd_size;
                 cd_offset; 0].

(** The function on the content of the file at [zip_path]: the content
    written back and the returned number of entries, or the exception
    raised (the file is then left as it was). *)
Definition rebuild_zip_central_directory (data : bytes)
  : result (bytes * Z) :=
  '(local_entries, local_data_end) <- scan data ;;
  cd_entries <- build_cd local_entries [] ;;
  eocd <- build_eocd (Z.of_nat (length local_entries)) (len cd_entries)
            local_data_end ;;
  let new_zip := slice data 0 local_data_end ++ cd_entries ++ eocd in
  Ok (new_zip, Z.of_nat (length local_entries)).

(** The spec's [repair]: the buffer the function writes. *)
Definition repair (data : bytes) : result bytes :=
  r <- rebuild_zip_central_directory data ;;
  Ok (fst r).

(** ** verify_zip *)

Definition dec (z : Z) : string :=
  DecimalString.NilZero.string_of_uint (N.to_uint (Z.to_N z)).

Fixpoint zfill (n : nat) (s : string) : string :=
  match n with
  | O => s
  | S k => zfill k (String "0" s)
  end.

(** [f"{z:08x}"] *)
Definition hex08 (z : Z) : string :=
  let s := HexadecimalString.NilZero.string_of_uint
             (N.to_hex_uint (Z.to_N z)) in
  zfill (8 - String.length s) s.

(** The [while offset < cd_offset] loop; [cd_offset - offset] iterations
    are enough. *)
Fixpoint count_loop (fuel : nat) (data : bytes) (cd_offset offset : Z)
    (local_count : Z) : result Z :=
  match fuel with
  | O => Ok local_count
  | S fuel' =>
      if offset <? cd_offset then
        t <- unpack_from [I] data offset ;;
        let sig := item t 0 in
        if sig =? LOCAL_SIG then
          fields <- unpack_from LOCAL_FMT data (offset + 4) ;;
          count_loop fuel' data cd_offset
            (offset + (30 + item fields 8 + item fields 9 + item fields 6))
            (local_count + 1)
        else count_loop fuel' data cd_offset (offset + 1) local_count
      else Ok local_count
  end.

Definition count_local_headers (data : bytes) (cd_offset : Z) : result Z :=
  count_loop (Z.to_nat cd_offset) data cd_offset 0 0.

Definition verify_zip (data : bytes) : result (bool * string) :=
  let eocd_pos := rfind data EOCD_MAGIC in
  if eocd_pos <? 0 then Ok (false, "No EOCD record found"%string)
  else
    t <- unpack_from [I] data (eocd_pos + 16) ;;
    let cd_offset := item t 0 in
    if cd_offset >=? len data then
      Ok (false, ("CD offset 0x" ++ hex08 cd_offset ++ " beyond file size")%string)
    else if negb (bytes_eqb (slice data cd_offset (cd_offset + 4)) CD_MAGIC) then
      Ok (false, ("Invalid CD signature at 0x" ++ hex08 cd_offset)%string)
    else
      t' <- unpack_from [H] data (eocd_pos + 10) ;;
      let entry_count := item t' 0 in
      local_count <- count_local_headers data cd_offset ;;
      if negb (local_count =? entry_count) then
        Ok (false, ("Local headers (" ++ dec local_count ++ ") != CD entries ("
                      ++ dec entry_count ++ ")")%string)
      else
        Ok (true, ("Valid: " ++ dec entry_count ++ " files, CD at 0x"
                     ++ hex08 cd_offset)%string).

(** The validity flag of a verification. *)
Definition valid (r : result (bool * string)) : result bool :=
  v <- r ;; Ok (fst v).

(** ** Concrete archives *)

Definition ascii_bytes (s : string) : bytes :=
  map byte_of_ascii (list_ascii_of_string s).

(** A local file header followed by its file name, extra field and payload. *)
Definition local_file (ver flags method modtime moddate crc uncomp_sz : Z)
    (fname extra payload : bytes) (comp_sz : Z) : bytes :=
  le_encode 4 LOCAL_SIG ++ le_encode 2 ver ++ le_encode 2 flags
  ++ le_encode 2 method ++ le_encode 2 modtime ++ le_encode 2 moddate
  ++ le_encode 4 crc ++ le_encode 4 comp_sz ++ le_encode 4 uncomp_sz
  ++ le_encode 2 (len fname) ++ le_encode 2 (len extra)
  ++ fname ++ extra ++ payload.

(** ** Reading the buffer at an offset *)

Definition u16_at (data : bytes) (o : Z) : Z :=
  le_decode (firstn 2 (skipn (Z.to_nat o) data)).

Definition u32_at (data : bytes) (o : Z) : Z :=
  le_decode (firstn 4 (skipn (Z.to_nat o) data)).

(** The entry the scanner builds from a local file header at offset [o]. *)
Definition entry_at (data : bytes) (o : Z) : local_entry :=
  mk_entry o
    (decode_ascii_replace
       (slice data (o + 30) (o + 30 + u16_at data (o + 26))))
    (u16_at data (o + 4)) (u16_at data (o + 6)) (u16_at data (o + 8))
    (u16_at data (o + 10)) (u16_at data (o + 12)) (u32_at data (o + 14))
    (u32_at data (o + 18)) (u32_at data (o + 22)) (u16_at data (o + 26))
    (u16_at data (o + 28)).

(** Where the scanner goes after an entry. *)
Definition next_offset (e : local_entry) : Z :=
  local_header_offset e + (30 + fn_len e + extra_len e + comp_sz e).

(** ** The loops as big-step relations *)

(** [scan_run data offset local_entries r]: started in the given state,
    the scanner's loop ends with [r = (local_entries, offset)]. *)
Inductive scan_run (data : bytes)
  : Z -> list local_entry -> list local_entry * Z -> Prop :=
| scan_exit o acc :
    len data - 30 <= o ->
    scan_run data o acc (acc, o)
| scan_break o acc :
    o < len data - 30 ->
    u32_at data o = CD_SIG ->
    scan_run data o acc (acc, o)
| scan_local o acc r :
    o < len data - 30 ->
    u32_at data o = LOCAL_SIG ->
    scan_run data (next_offset (entry_at data o)) (acc ++ [entry_at data o]) r ->
    scan_run data o acc r
| scan_skip o acc r :
    o < len data - 30 ->
    u32_at data o <> LOCAL_SIG ->
    u32_at data o <> CD_SIG ->
    scan_run data (o + 1) acc r ->
    scan_run data o acc r.

(** [count_run data cd_offset offset local_count r]: the verifier's loop
    ends without raising, with [local_count = r]. *)
Inductive count_run (data : bytes) (cd_offset : Z) : Z -> Z -> Z -> Prop :=
| count_exit o c :
    cd_offset <= o ->
    count_run data cd_offset o c c
| count_local o c r :
    o < cd_offset ->
    o + 30 <= len data ->
    u32_at data o = LOCAL_SIG ->
    count_run data cd_offset (next_offset (entry_at data o)) (c + 1) r ->
    count_run data cd_offset o c r
| count_skip o c r :
    o < cd_offset ->
    o + 4 <= len data ->
    u32_at data o <> LOCAL_SIG ->
    count_run data cd_offset (o + 1) c r ->
    count_run data cd_offset o c r.

(** The verifier's loop from any state, with the fuel that suffices. *)
Definition count_from (data : bytes) (cd_offset offset local_count : Z)
  : result Z :=
  count_loop (Z.to_nat (cd_offset - offset)) data cd_offset offset local_count.

(** ** Record layouts, written out field by field *)

(** The 46 fixed bytes of a central-directory record and its file name. *)
Definition cd_layout (e : local_entry) : bytes :=
  le_encode 4 0x02014B50
  ++ le_encode 2 (ver e)            (* version made by *)
  ++ le_encode 2 (ver e)            (* version needed *)
  ++ le_encode 2 (flags e)
  ++ le_encode 2 (method e)
  ++ le_encode 2 (modtime e)
  ++ le_encode 2 (moddate e)
  ++ le_encode 4 (crc e)
  ++ le_encode 4 (comp_sz e)
  ++ le_encode 4 (uncomp_sz e)
  ++ le_encode 2 (fn_len e)
  ++ le_encode 2 0                  (* extra length *)
  ++ le_encode 2 0                  (* comment length *)
  ++ le_encode 2 0                  (* disk number start *)
  ++ le_encode 2 0                  (* internal attributes *)
  ++ le_encode 4 0                  (* external attributes *)
  ++ le_encode 4 (local_header_offset e)
  ++ map byte_of_Z (name e).

(** The 22 bytes of the end-of-central-directory record. *)
Definition eocd_layout (entry_count cd_size cd_offset : Z) : bytes :=
  le_encode 4 0x06054B50
  ++ le_encode 2 0 ++ le_encode 2 0
  ++ le_encode 2 entry_count ++ le_encode 2 entry_count
  ++ le_encode 4 cd_size ++ le_encode 4 cd_offset
  ++ le_encode 2 0.

(** The name holds no replacement character: [encode("ascii")] accepts it. *)
Definition ascii_name (e : local_entry) : bool :=
  forallb (fun c => c <? 128) (name e).

(** Every field fits the width [struct.pack] gives it. *)
Definition packable (e : local_entry) : bool :=
  in_range H (ver e) && in_range H (flags e) && in_range H (method e)
  && in_range H (modtime e) && in_range H (moddate e) && in_range I (crc e)
  && in_range I (comp_sz e) && in_range I (uncomp_sz e)
  && in_range H (fn_len e) && in_range I (local_header_offset e).

(** b"PK\x05\x06" occurs in the record at its start only, so that
    [rfind] lands on the record's first byte. *)
Definition eocd_unambiguous (eocd : bytes) : bool :=
  forallb (fun k => negb (starts_with EOCD_MAGIC (skipn k eocd))) (seq 1 18).

(** ** The data model's invariant and the spec's reading of step 5 *)

(** Each entry starts where the previous one ended, the first at [start]
    and the last ending at [stop]: no byte between [start] and [stop] was
    skipped by the byte-by-byte fallback. *)
Fixpoint contiguous (start : Z) (es : list local_entry) (stop : Z) : bool :=
  match es with
  | [] => start =? stop
  | x :: es' =>
      (local_header_offset x =? start) && contiguous (next_offset x) es' stop
  end.

(** The scanner parses the buffer fully, with no entry lost: the entries
    it returns tile the local-entries region, which ends inside the
    buffer. *)
Definition fully_parsed (data : bytes) : bool :=
  match scan data with
  | Ok (es, e) => contiguous 0 es e && (e <=? len data)
  | Raise _ => false
  end.


(** ** Concrete buffers *)

(** Two stored files, "a.txt" with a 5-byte payload [p] and "b.txt" with a
    3-byte payload [q]: version 20, no flags, no extra field. *)
Definition two_entries (p q : bytes) : bytes :=
  local_file 20 0 0 0 0 0 5 (ascii_bytes "a.txt") [] p 5
  ++ local_file 20 0 0 0 0 0 3 (ascii_bytes "b.txt") [] q 3.

(** A lone header with an empty name and no payload: 30 bytes. *)
Definition bare_header : bytes := local_file 20 0 0 0 0 0 0 [] [] [] 0.

(** A header that declares a 2-byte payload of which one byte is there. *)
Definition cut_payload : bytes := local_file 20 0 0 0 0 0 2 [] [] [x00] 2.

(** A header that declares a 5-byte name of which one byte is there. *)
Definition cut_name : bytes :=
  le_encode 4 LOCAL_SIG ++ le_encode 2 20 ++ le_encode 2 0 ++ le_encode 2 0
  ++ le_encode 2 0 ++ le_encode 2 0 ++ le_encode 4 0 ++ le_encode 4 0
  ++ le_encode 4 0 ++ le_encode 2 5 ++ le_encode 2 0 ++ [x61].

(** A one-byte file name that is not ASCII (0x80), no payload. *)
Definition non_ascii_name : bytes := local_file 20 0 0 0 0 0 0 [x80] [] [] 0.

(** An archive cut right after the signature of its EOCD record. *)
Definition cut_eocd : bytes := EOCD_MAGIC.

(** A local-header signature four bytes before a central directory that an
    EOCD record points to: 28 bytes in all. *)
Definition short_header : bytes :=
  le_encode 4 LOCAL_SIG ++ CD_MAGIC ++ firstn 20 (eocd_layout 1 0 4).


(** ** What the scanner guarantees of an entry it returns *)

(** [x] was read from a local file header whose 30 fixed bytes lie inside
    [data] with at least one byte after them, and the scanner's offset had
    reached [bound] or less after it. *)
Definition read_from (data : bytes) (bound : Z) (x : local_entry) : Prop :=
  0 <= local_header_offset x
  /\ local_header_offset x + 30 < len data
  /\ u32_at data (local_header_offset x) = LOCAL_SIG
  /\ x = entry_at data (local_header_offset x)
  /\ next_offset x <= bound.

(** ** A local file as the archive holds it *)

(** What a local file header says of a file, and the bytes that follow it. *)
Record zip_file : Type := mk_file {
  zf_ver : Z;
  zf_flags : Z;
  zf_method : Z;
  zf_modtime : Z;
  zf_moddate : Z;
  zf_crc : Z;
  zf_uncomp : Z;
  zf_name : bytes;
  zf_extra : bytes;
  zf_payload : bytes
}.

(** The header, the name, the extra field and the payload, in this order. *)
Definition file_image (f : zip_file) : bytes :=
  local_file (zf_ver f) (zf_flags f) (zf_method f) (zf_modtime f)
    (zf_moddate f) (zf_crc f) (zf_uncomp f) (zf_name f) (zf_extra f)
    (zf_payload f) (len (zf_payload f)).

(** Every value fits the width the header gives it. *)
Definition file_ok (f : zip_file) : bool :=
  in_range H (zf_ver f) && in_range H (zf_flags f) && in_range H (zf_method f)
  && in_range H (zf_modtime f) && in_range H (zf_moddate f)
  && in_range I (zf_crc f) && in_range I (zf_uncomp f)
  && in_range H (len (zf_name f)) && in_range H (len (zf_extra f))
  && in_range I (len (zf_payload f)).

(** The entry the scanner is to return for a file laid out at offset [o]. *)
Definition entry_of (o : Z) (f : zip_file) : local_entry :=
  mk_entry o (decode_ascii_replace (zf_name f)) (zf_ver f) (zf_flags f)
    (zf_method f) (zf_modtime f) (zf_moddate f) (zf_crc f)
    (len (zf_payload f)) (zf_uncomp f) (len (zf_name f)) (len (zf_extra f)).

Fixpoint entries_of (o : Z) (fs : list zip_file) : list local_entry :=
  match fs with
  | [] => []
  | f :: fs' => entry_of o f :: entries_of (o + len (file_image f)) fs'
  end.

(** [d] with the byte [b] inserted before index [k]. *)
Definition splice (k : nat) (b : byte) (d : bytes) : bytes :=
  firstn k d ++ b :: skipn k d.

(** ** str: the operations of the file-name parser *)

(** A literal. *)
Definition py (s : string) : pystr :=
  map (fun a => Z.of_N (N_of_ascii a)) (list_ascii_of_string s).

Fixpoint str_eqb (a b : pystr) : bool :=
  match a, b with
  | [], [] => true
  | x :: a', y :: b' => (x =? y) && str_eqb a' b'
  | _, _ => false
  end.

(** [s.startswith(p)] *)
Fixpoint startswith (s p : pystr) : bool :=
  match p, s with
  | [], _ => true
  | x :: p', y :: s' => (x =? y) && startswith s' p'
  | _ :: _, [] => false
  end.

(** [s.endswith(suffix)] *)
Definition endswith (s suffix : pystr) : bool :=
  (length suffix <=? length s)%nat
  && str_eqb (skipn (length s - length suffix) s) suffix.

(** [s[:-k]] for a positive [k] *)
Definition drop_last (k : nat) (s : pystr) : pystr :=
  firstn (length s - k) s.

(** [s.find(sub)], [None] standing for -1; [sub in s] and [s.index(sub)]
    are read off it. *)
Fixpoint str_find (s sub : pystr) : option nat :=
  match s with
  | [] => if startswith [] sub then Some O else None
  | _ :: s' =>
      if startswith s sub then Some O else option_map S (str_find s' sub)
  end.

Definition contains (s sub : pystr) : bool :=
  match str_find s sub with Some _ => true | None => false end.

(** [s.rfind(sub)], [None] standing for -1 *)
Fixpoint str_rfind (s sub : pystr) : option nat :=
  match s with
  | [] => if startswith [] sub then Some O else None
  | _ :: s' =>
      match str_rfind s' sub with
      | Some i => Some (S i)
      | None => if startswith s sub then Some O else None
      end
  end.

(** [s.rsplit(sep, 1)] *)
Definition rsplit1 (s sep : pystr) : list pystr :=
  match str_rfind s sep with
  | Some i => [firstn i s; skipn (i + length sep) s]
  | None => [s]
  end.

(** [s.lstrip(chars)] and [s.rstrip(chars)] *)
Fixpoint lstrip (s chars : pystr) : pystr :=
  match s with
  | [] => []
  | x :: s' => if existsb (Z.eqb x) chars then lstrip s' chars else s
  end.

Fixpoint rstrip (s chars : pystr) : pystr :=
  match s with
  | [] => []
  | x :: s' =>
      match rstrip s' chars with
      | [] => if existsb (Z.eqb x) chars then [] else [x]
      | r => x :: r
      end
  end.

(** [s.replace(old, "")] for a non-empty [old]: [skip] characters of an
    occurrence found are still to be dropped. *)
Fixpoint remove_from (s old : pystr) (skip : nat) : pystr :=
  match s with
  | [] => []
  | x :: s' =>
      match skip with
      | S k => remove_from s' old k
      | O => if startswith s old then remove_from s' old (length old - 1)
             else x :: remove_from s' old O
      end
  end.

Definition remove_all (s old : pystr) : pystr := remove_from s old O.

(** [x in xs] on a list or tuple of strings *)
Definition str_in (x : pystr) (xs : list pystr) : bool :=
  existsb (str_eqb x) xs.

(** ** re: a sequence of greedy repetitions of character classes *)

(** [cls{min,max}], [max = None] for no upper bound. *)
Record re_item : Type := mk_item {
  cls : Z -> bool;
  min_rep : nat;
  max_rep : option nat
}.

(** How many of the first characters of [s], [cap] at most, are in the
    class. *)
Fixpoint run_length (p : Z -> bool) (cap : nat) (s : pystr) : nat :=
  match cap, s with
  | S cap', x :: s' => if p x then S (run_length p cap' s') else O
  | _, _ => O
  end.

(** A greedy repetition tries the longest run first and gives characters
    back one at a time as long as the rest of the pattern, [k], fails. *)
Fixpoint try_counts (k : pystr -> option (list pystr)) (min : nat)
    (s : pystr) (n : nat) : option (list pystr) :=
  if (n <? min)%nat then None
  else
    match k (skipn n s) with
    | Some groups => Some (firstn n s :: groups)
    | None =>
        match n with
        | O => None
        | S n' => try_counts k min s n'
        end
    end.

(** [re.match] of the sequence at the start of [s]: the text each item
    matched, or [None]. *)
Fixpoint re_match (items : list re_item) (s : pystr) : option (list pystr) :=
  match items with
  | [] => Some []
  | it :: rest =>
      try_counts (re_match rest) (min_rep it) s
        (run_length (cls it)
           (match max_rep it with Some m => m | None => length s end) s)
  end.

Definition is_upper (c : Z) : bool := (65 <=? c) && (c <=? 90).

(** ** Cylinder tables *)

Definition CYLINDER_GROUPS : list (pystr * list pystr) :=
  [(py "2", [py "2"; py "4"; py "8"; py "16"]);
   (py "4", [py "2"; py "4"; py "8"; py "16"]);
   (py "8", [py "2"; py "4"; py "8"; py "16"]);
   (py "16", [py "2"; py "4"; py "8"; py "16"]);
   (py "3", [py "3"; py "6"; py "12"]);
   (py "6", [py "3"; py "6"; py "12"]);
   (py "12", [py "3"; py "6"; py "12"]);
   (py "5", [py "5"; py "10"]);
   (py "10", [py "5"; py "10"]);
   (py "Rotary", [py "2R"])].

Definition CYLINDER_OPTIONS : list pystr :=
  [py "4"; py "5"; py "6"; py "8"; py "10"; py "12"; py "Rotary"].

(** [d.get(key, default)] *)
Fixpoint dict_get {V : Type} (d : list (pystr * V)) (key : pystr)
    (default : V) : V :=
  match d with
  | [] => default
  | (k, v) :: d' => if str_eqb k key then v else dict_get d' key default
  end.

(** ** The file-name parser *)

Section Parser.
(** [\d] matches the characters of Unicode category Nd, a table of the
    interpreter that is taken as a parameter. *)
Variable is_decimal : Z -> bool.

(** [\d+R?[A-Z]{1,2}\d?]: the items of both patterns. In the first pattern
    one group holds the whole match, in the second each item is a group. *)
Definition HT_PATTERN : list re_item :=
  [mk_item is_decimal 1 None;
   mk_item (Z.eqb 82) 0 (Some 1%nat);
   mk_item is_upper 1 (Some 2%nat);
   mk_item is_decimal 0 (Some 1%nat)].

(** The file name without its suffix (lines 367-372). *)
Definition ht_base (filename : pystr) : option pystr :=
  if endswith filename (py "_HT.xml.xml") then
    Some (drop_last (length (py "_HT.xml.xml")) filename)
  else if endswith filename (py "_HT.xml") then
    Some (drop_last (length (py "_HT.xml")) filename)
  else None.

(** [comp_type] and [base_no_comp] (lines 373-384). *)
Definition ht_component (base : pystr) : option (pystr * pystr) :=
  if contains base (py "EngAmb") then
    match str_find base (py "EngAmb") with
    | Some idx => Some (py "Engine", rstrip (firstn idx base) (py "_"))
    | None => None
    end
  else if contains base (py "_Int") then
    Some (py "Intake", hd [] (rsplit1 base (py "_Int")))
  else if contains base (py "_Exh") then
    Some (py "Exhaust", hd [] (rsplit1 base (py "_Exh")))
  else None.

(** [prefix] and [name_part] (lines 385-393). *)
Definition ht_prefix (base_no_comp : pystr) : option (pystr * pystr) :=
  match re_match HT_PATTERN base_no_comp with
  | Some groups =>
      let prefix := concat groups in
      Some (prefix, lstrip (skipn (length prefix) base_no_comp) (py "_"))
  | None =>
      if str_eqb base_no_comp (py "NA") then Some (py "NA", py "NA")
      else None
  end.

(** [cyl_key], which the code lets be [None] (lines 394-400). *)
Definition ht_cyl_key (prefix : pystr) : option pystr :=
  match re_match HT_PATTERN prefix with
  | Some groups =>
      Some (if str_eqb (nth 1 groups []) (py "R") then py "2R"
            else nth 0 groups [])
  | None => if str_eqb prefix (py "NA") then Some (py "NA") else None
  end.

(** [display] (line 401). *)
Definition ht_display_of (prefix name_part : pystr) : pystr :=
  match name_part with
  | [] => prefix
  | _ :: _ => prefix ++ py " " ++ name_part
  end.

Definition parse_ht_filename (filename : pystr)
  : option (pystr * pystr * pystr * option pystr * pystr) :=
  match ht_base filename with
  | None => None
  | Some base =>
      match ht_component base with
      | None => None
      | Some (comp_type, base_no_comp) =>
          match ht_prefix base_no_comp with
          | None => None
          | Some (prefix, name_part) =>
              let cyl_key := ht_cyl_key prefix in
              let display := ht_display_of prefix name_part in
              Some (prefix, display, comp_type, cyl_key, filename)
          end
      end
  end.

Definition ht_display_name (filename : pystr) : pystr :=
  if match filename with [] => true | _ => false end
     || str_in filename [py "NA.xml"; py ""]
  then match filename with [] => py "(none)" | _ => filename end
  else
    match parse_ht_filename filename with
    | Some (_, display, _, _, _) => display
    | None => remove_all filename (py "_HT.xml")
    end.

End Parser.

(** ** The lists of HT files and the drop-downs *)

(** One entry of [engine_files], [intake_files] or [exhaust_files]. *)
Record ht_entry : Type := mk_ht {
  entry_filename : pystr;
  entry_display : pystr;
  entry_cyl_key : option pystr
}.

(** [a <= b] on strings, by code points. *)
Fixpoint str_leb (a b : pystr) : bool :=
  match a, b with
  | [], _ => true
  | _ :: _, [] => false
  | x :: a', y :: b' =>
      if x <? y then true else if y <? x then false else str_leb a' b'
  end.

Fixpoint insert_sorted (x : pystr) (l : list pystr) : list pystr :=
  match l with
  | [] => [x]
  | y :: l' => if str_leb x y then x :: l else y :: insert_sorted x l'
  end.

(** [sorted(names)] *)
Definition sorted (names : list pystr) : list pystr :=
  fold_right insert_sorted [] names.

(** The widgets and lists that the cylinder filter works on. *)
Record gui : Type := mk_gui {
  cyl_var : pystr;
  engine_var : pystr;
  intake_var : pystr;
  exhaust_var : pystr;
  engine_ht : list ht_entry;
  intake_ht : list ht_entry;
  exhaust_ht : list ht_entry;
  engine_combo : list pystr;     (* engine_combo["values"] *)
  intake_combo : list pystr;
  exhaust_combo : list pystr
}.

(** [matches] of [_update_ht_dropdowns]. *)
Definition matches (allowed : list pystr) (entry : ht_entry) : bool :=
  match entry_cyl_key entry with
  | Some k => str_in k allowed || str_eqb k (py "NA")
  | None => false
  end.

Definition _update_ht_dropdowns (g : gui) : gui :=
  let cyl_sel := cyl_var g in
  let allowed := dict_get CYLINDER_GROUPS cyl_sel [] in
  let filtered (ht_list : list ht_entry) :=
    map entry_display (filter (matches allowed) ht_list) in
  mk_gui (cyl_var g) (engine_var g) (intake_var g) (exhaust_var g)
    (engine_ht g) (intake_ht g) (exhaust_ht g)
    (filtered (engine_ht g)) (filtered (intake_ht g)) (filtered (exhaust_ht g)).

(** The drop-down option for a cylinder key (lines 1203-1217), [None] when
    the method returns without one. *)
Definition cylinder_option (cyl_key : pystr) : option pystr :=
  if str_eqb cyl_key (py "2R") then Some (py "Rotary")
  else if str_in cyl_key CYLINDER_OPTIONS then Some cyl_key
  else find (fun opt => str_in cyl_key (dict_get CYLINDER_GROUPS opt []))
         CYLINDER_OPTIONS.

(** [_get_filename_from_display] *)
Fixpoint _get_filename_from_display (display : pystr)
    (ht_list : list ht_entry) : option pystr :=
  match ht_list with
  | [] => None
  | entry :: rest =>
      if str_eqb (entry_display entry) display then Some (entry_filename entry)
      else _get_filename_from_display display rest
  end.

Section Lists.
Variable is_decimal : Z -> bool.

(** One iteration of the inner loop of [load_ht_files]. *)
Definition load_ht_file
    (st : list ht_entry * list ht_entry * list ht_entry * list pystr)
    (fn : pystr)
  : list ht_entry * list ht_entry * list ht_entry * list pystr :=
  let '(engine_files, intake_files, exhaust_files, seen) := st in
  if str_in fn seen then st
  else
    let seen := seen ++ [fn] in
    match parse_ht_filename is_decimal fn with
    | None => (engine_files, intake_files, exhaust_files, seen)
    | Some (prefix, display, comp_type, cyl_key, filename) =>
        let entry := mk_ht filename display cyl_key in
        if str_eqb comp_type (py "Engine") then
          (engine_files ++ [entry], intake_files, exhaust_files, seen)
        else if str_eqb comp_type (py "Intake") then
          (engine_files, intake_files ++ [entry], exhaust_files, seen)
        else if str_eqb comp_type (py "Exhaust") then
          (engine_files, intake_files, exhaust_files ++ [entry], seen)
        else (engine_files, intake_files, exhaust_files, seen)
    end.

(** [load_ht_files], given what [os.listdir] returns for [HT_DIR] and for
    [DLC_HT_DIR] ([None] for a directory that does not exist). *)
Definition load_ht_files (ht_dir dlc_ht_dir : option (list pystr))
  : list ht_entry * list ht_entry * list ht_entry :=
  let over_dir st (d : option (list pystr)) :=
    match d with
    | None => st
    | Some names => fold_left load_ht_file (sorted names) st
    end in
  fst (fold_left over_dir [ht_dir; dlc_ht_dir] ([], [], [], [])).

(** [_select_ht_combo] on the values of a drop-down: the new values and
    the value given to the variable. *)
Definition _select_ht_combo (values : list pystr) (filename : pystr)
  : list pystr * pystr :=
  let display := ht_display_name is_decimal filename in
  let values := if str_in display values then values else display :: values in
  (values, display).

Definition _auto_detect_cylinders (g : gui) (exh_filename : pystr) : gui :=
  match exh_filename with
  | [] => g
  | _ :: _ =>
      match parse_ht_filename is_decimal exh_filename with
      | None => g
      | Some (_, _, _, cyl_key, _) =>
          match
            match cyl_key with
            | Some k => cylinder_option k
            | None => None
            end
          with
          | None => g
          | Some option =>
              if negb (str_eqb (cyl_var g) option) then
                _update_ht_dropdowns
                  (mk_gui option (engine_var g) (intake_var g) (exhaust_var g)
                     (engine_ht g) (intake_ht g) (exhaust_ht g)
                     (engine_combo g) (intake_combo g) (exhaust_combo g))
              else g
          end
      end
  end.

(** The exhaust part of [_on_car_selected] (lines 1279-1284): the exhaust
    file of the car is selected, then the cylinder type is detected. *)
Definition select_exhaust (g : gui) (exh_filename : pystr) : gui :=
  let '(values, display) := _select_ht_combo (exhaust_combo g) exh_filename in
  _auto_detect_cylinders
    (mk_gui (cyl_var g) (engine_var g) (intake_var g) display
       (engine_ht g) (intake_ht g) (exhaust_ht g)
       (engine_combo g) (intake_combo g) values)
    exh_filename.

End Lists.

(** The decimal digits of ASCII, which every table of Nd holds. *)
Definition ascii_digit (c : Z) : bool := (48 <=? c) && (c <=? 57).

(** A text that one pattern item can match. *)
Definition piece_ok (it : re_item) (p : pystr) : Prop :=
  forallb (cls it) p = true
  /\ (min_rep it <= length p)%nat
  /\ match max_rep it with
     | Some m => (length p <= m)%nat
     | None => True
     end.

(** What [os.listdir] gave for a directory, nothing when it is missing. *)
Definition listing (d : option (list pystr)) : list pystr :=
  match d with
  | Some names => names
  | None => []
  end.

(** The entry holds what its file name parses to, with component [comp]. *)
Definition from_file (is_decimal : Z -> bool) (comp : pystr) (e : ht_entry)
  : Prop :=
  exists prefix,
    parse_ht_filename is_decimal (entry_filename e)
    = Some (prefix, entry_display e, comp, entry_cyl_key e, entry_filename e).

(** What the loop of [load_ht_files] keeps true of its three lists and of
    [seen]. *)
Definition load_inv (is_decimal : Z -> bool)
    (st : list ht_entry * list ht_entry * list ht_entry * list pystr) : Prop :=
  let '(engine_files, intake_files, exhaust_files, seen) := st in
  Forall (from_file is_decimal (py "Engine")) engine_files
  /\ Forall (from_file is_decimal (py "Intake")) intake_files
  /\ Forall (from_file is_decimal (py "Exhaust")) exhaust_files
  /\ NoDup (map entry_filename (engine_files ++ intake_files ++ exhaust_files))
  /\ (forall e, In e (engine_files ++ intake_files ++ exhaust_files) ->
                In (entry_filename e) seen)
  /\ (forall fn, In fn seen -> parse_ht_filename is_decimal fn <> None ->
                 In fn (map entry_filename
                          (engine_files ++ intake_files ++ exhaust_files))).

(** ** XML elements and their indentation *)

(** An [xml.etree.ElementTree.Element]: [text] and [tail] are [None] or a
    string. The tree is a proper tree, as [ET.parse] builds it: no element
    object occurs twice in it. *)
#[warnings="-register-all"]
Inductive element : Type :=
| mk_element (tag : pystr) (attrib : list (pystr * pystr))
    (text tail : option pystr) (children : list element).

Definition tail_of (e : element) : option pystr :=
  match e with mk_element _ _ _ tail _ => tail end.

Definition set_tail (t : option pystr) (e : element) : element :=
  match e with
  | mk_element tag attrib text _ children =>
      mk_element tag attrib text t children
  end.

(** ["\n" + "  " * level] *)
Definition indent_of (level : nat) : pystr :=
  10 :: concat (repeat (py "  ") level).

Section Indent.
(** [str.strip()] removes the characters that [str.isspace] accepts, a
    table of the interpreter that is taken as a parameter. *)
Variable is_space : Z -> bool.

(** [not s or not s.strip()] *)
Definition blank (s : option pystr) : bool :=
  match s with
  | None => true
  | Some t => forallb is_space t
  end.

(** The statement after the [for] loop: [child] is the last child. *)
Fixpoint fix_last_tail (indent : pystr) (children : list element)
  : list element :=
  match children with
  | [] => []
  | [child] =>
      [if blank (tail_of child) then set_tail (Some indent) child else child]
  | c :: rest => c :: fix_last_tail indent rest
  end.

Fixpoint _indent_xml (level : nat) (elem : element) : element :=
  match elem with
  | mk_element tag attrib text tail children =>
      let indent := indent_of level in
      let '(text, tail, children) :=
        match children with
        | _ :: _ =>
            let text := if blank text then Some (indent ++ py "  ") else text in
            let tail := if blank tail then Some indent else tail in
            let children := map (_indent_xml (S level)) children in
            (text, tail, fix_last_tail indent children)
        | [] =>
            (text,
             if negb (level =? 0)%nat && blank tail then Some indent else tail,
             [])
        end in
      let tail := if (level =? 0)%nat then Some [10] else tail in
      mk_element tag attrib text tail children
  end.

(** What an element says once its layout is forgotten: blank texts and
    tails count as absent. *)
Fixpoint content (e : element) : element :=
  match e with
  | mk_element tag attrib text tail children =>
      mk_element tag attrib
        (if blank text then None else text)
        (if blank tail then None else tail)
        (map content children)
  end.

End Indent.

(** The text and the tail [_indent_xml] leaves on an element at [level]. *)
Definition text_rule (is_space : Z -> bool) (level : nat)
  (t : option pystr) : option pystr :=
  if blank is_space t then Some (indent_of level ++ py "  ") else t.

Definition tail_rule (is_space : Z -> bool) (level : nat)
  (t : option pystr) : option pystr :=
  if (level =? 0)%nat then Some [10]
  else if blank is_space t then Some (indent_of level) else t.

(** The ASCII part of [str.isspace]: space, tab to carriage return, and
    the separators 0x1C to 0x1F. *)
Definition ascii_space (c : Z) : bool :=
  (c =? 32) || ((9 <=? c) && (c <=? 13)) || ((28 <=? c) && (c <=? 31)).

(** A small tree to run [_indent_xml] on. *)
Definition sample_tree : element :=
  mk_element (py "Car") [] None None
    [mk_element (py "EngineSettings") [(py "audio_rpm_redline", py "7000")]
       (Some (py "x")) None [];
     mk_element (py "Exhaust") [] None (Some (py "t"))
       [mk_element (py "Upgrade") [] None None []]].

(** ** The car list and its search box *)

(** [enumerate(l)] *)
Definition enumerate {A : Type} (l : list A) : list (nat * A) :=
  combine (seq 0 (length l)) l.

(** [[f.replace("_ET.xml", "") for f in self.car_files]] *)
Definition car_display_of (car_files : list pystr) : list pystr :=
  map (fun f => remove_all f (py "_ET.xml")) car_files.

Section CarList.
(** [str.lower], the interpreter's case mapping, is a parameter. *)
Variable lower : pystr -> pystr.

(** The rows of the list box and [self._filtered_indices]. *)
Definition _populate_car_list (car_display : list pystr)
  (filter_text : pystr) : list pystr * list nat :=
  let ft := lower filter_text in
  fold_left
    (fun (acc : list pystr * list nat) (p : nat * pystr) =>
       let '(i, name) := p in
       if contains (lower name) ft
       then (fst acc ++ [name], snd acc ++ [i])
       else acc)
    (enumerate car_display) ([], []).

(** [_on_car_selected], up to the choice of the file: [row] is
    [sel[0]]; [None] stands for an [IndexError]. *)
Definition selected_car_file (car_files : list pystr)
  (filtered_indices : list nat) (row : nat) : option pystr :=
  match nth_error filtered_indices row with
  | Some idx => nth_error car_files idx
  | None => None
  end.

End CarList.

(** ** Undo and redo *)

(** [l.pop()]: the last item and the list without it; [None] on an empty
    list. *)
Definition pop {A : Type} (l : list A) : option (A * list A) :=
  match rev l with
  | [] => None
  | x :: r => Some (x, rev r)
  end.

Section History.
(** The widgets are opaque; [_capture_state] reads a comparable snapshot
    off them and [_restore_state] writes one back. *)
Variables widgets snapshot : Type.
Variable snapshot_eqb : snapshot -> snapshot -> bool.
Variable _capture_state : widgets -> snapshot.
Variable _restore_state : snapshot -> widgets -> widgets.

Record tuner : Type := mk_tuner {
  ui : widgets;
  tree_loaded : bool;              (* [self.current_tree is not None] *)
  _undo_stack : list snapshot;
  _redo_stack : list snapshot;
  _last_state : option snapshot
}.

(** [__init__] *)
Definition init_tuner (w : widgets) : tuner := mk_tuner w false [] [] None.

Definition _check_and_push_undo (a : tuner) : tuner :=
  let current := _capture_state (ui a) in
  let pushed :=
    match _last_state a with
    | Some last =>
        if negb (snapshot_eqb current last) then
          let undo := _undo_stack a ++ [last] in
          let undo := if (50 <? length undo)%nat then tl undo else undo in
          Some undo
        else None
    | None => None
    end in
  match pushed with
  | Some undo => mk_tuner (ui a) (tree_loaded a) undo [] (Some current)
  | None =>
      mk_tuner (ui a) (tree_loaded a) (_undo_stack a) (_redo_stack a)
        (Some current)
  end.

Definition _on_undo (a : tuner) : tuner :=
  match pop (_undo_stack a) with
  | None => a
  | Some (state, undo) =>
      if negb (tree_loaded a) then a
      else
        let current := _capture_state (ui a) in
        mk_tuner (_restore_state state (ui a)) (tree_loaded a)
          undo (_redo_stack a ++ [current]) (Some state)
  end.

Definition _on_redo (a : tuner) : tuner :=
  match pop (_redo_stack a) with
  | None => a
  | Some (state, redo) =>
      if negb (tree_loaded a) then a
      else
        let current := _capture_state (ui a) in
        mk_tuner (_restore_state state (ui a)) (tree_loaded a)
          (_undo_stack a ++ [current]) redo (Some state)
  end.

(** [_on_car_selected]: [loaded] is [None] when no row is selected or the
    file is not found, and the widgets as filled from the file otherwise. *)
Definition _on_car_selected (loaded : option widgets) (a : tuner) : tuner :=
  match loaded with
  | None => a
  | Some w => mk_tuner w true [] [] (Some (_capture_state w))
  end.

(** What can happen to the window: the user changes a widget, the edit
    timer fires, Ctrl+Z, Ctrl+Y, a car is picked. *)
Inductive event : Type :=
| EvEdit (w : widgets)
| EvTimer
| EvUndo
| EvRedo
| EvCarSelected (loaded : option widgets).

Definition handle (a : tuner) (ev : event) : tuner :=
  match ev with
  | EvEdit w =>
      mk_tuner w (tree_loaded a) (_undo_stack a) (_redo_stack a) (_last_state a)
  | EvTimer => _check_and_push_undo a
  | EvUndo => _on_undo a
  | EvRedo => _on_redo a
  | EvCarSelected loaded => _on_car_selected loaded a
  end.

Definition run (w : widgets) (evs : list event) : tuner :=
  fold_left handle evs (init_tuner w).

End History.

Arguments mk_tuner {widgets snapshot}.
Arguments ui {widgets snapshot}.
Arguments tree_loaded {widgets snapshot}.
Arguments _undo_stack {widgets snapshot}.
Arguments _redo_stack {widgets snapshot}.
Arguments _last_state {widgets snapshot}.
Arguments init_tuner {widgets snapshot}.
Arguments _check_and_push_undo {widgets snapshot}.
Arguments _on_undo {widgets snapshot}.
Arguments _on_redo {widgets snapshot}.
Arguments _on_car_selected {widgets snapshot}.
Arguments EvEdit {widgets}.
Arguments EvTimer {widgets}.
Arguments EvUndo {widgets}.
Arguments EvRedo {widgets}.
Arguments EvCarSelected {widgets}.
Arguments handle {widgets snapshot}.
Arguments run {widgets snapshot}.

(** The snapshots the two stacks hold between them. *)
Definition history_size {widgets snapshot : Type}
  (a : tuner widgets snapshot) : nat :=
  (length (_undo_stack a) + length (_redo_stack a))%nat.

(** * Facts about bytes and little-endian fields *)

Lemma Z_of_byte_range (b : byte) : 0 <= Z_of_byte b < 256.
Proof.
  unfold Z_of_byte. pose proof (Byte.to_N_bounded b). lia.
Qed.

Lemma byte_of_Z_of_byte (b : byte) : byte_of_Z (Z_of_byte b) = b.
Proof.
  unfold byte_of_Z. pose proof (Z_of_byte_range b) as Hb.
  rewrite Z.mod_small by lia. unfold Z_of_byte.
  rewrite N2Z.id, Byte.of_to_N. reflexivity.
Qed.

Lemma Z_of_byte_of_Z (z : Z) : 0 <= z < 256 -> Z_of_byte (byte_of_Z z) = z.
Proof.
  intros Hz. unfold byte_of_Z. rewrite Z.mod_small by lia.
  destruct (Byte.of_N (Z.to_N z)) as [b|] eqn:E.
  - apply Byte.to_of_N in E. unfold Z_of_byte. rewrite E. lia.
  - apply Byte.of_N_None_iff in E. lia.
Qed.

Lemma Z_of_byte_inj (a b : byte) : Z_of_byte a = Z_of_byte b -> a = b.
Proof.
  intros E. rewrite <- (byte_of_Z_of_byte a), <- (byte_of_Z_of_byte b).
  now rewrite E.
Qed.

Lemma le_encode_length (n : nat) (v : Z) : length (le_encode n v) = n.
Proof.
  revert v. induction n as [|n IH]; intros v; simpl; [reflexivity|].
  now rewrite IH.
Qed.

Lemma le_decode_range (bs : bytes) :
  0 <= le_decode bs < 256 ^ Z.of_nat (length bs).
Proof.
  induction bs as [|b bs IH]; [simpl; lia|].
  cbn [le_decode length]. rewrite Nat2Z.inj_succ, Z.pow_succ_r by lia.
  pose proof (Z_of_byte_range b). lia.
Qed.

Lemma le_decode_encode (n : nat) (v : Z) :
  0 <= v < 256 ^ Z.of_nat n -> le_decode (le_encode n v) = v.
Proof.
  revert v. induction n as [|n IH]; intros v Hv.
  - simpl in *. lia.
  - rewrite Nat2Z.inj_succ, Z.pow_succ_r in Hv by lia.
    cbn [le_encode le_decode].
    rewrite Z_of_byte_of_Z by (apply Z.mod_pos_bound; lia).
    rewrite IH.
    + pose proof (Z.div_mod v 256). lia.
    + split; [apply Z.div_pos; lia|].
      apply Z.div_lt_upper_bound; lia.
Qed.

Lemma le_decode_inj (a b : bytes) :
  length a = length b -> le_decode a = le_decode b -> a = b.
Proof.
  revert b. induction a as [|x a IH]; intros [|y b] Hl Hd;
    try discriminate; [reflexivity|].
  cbn [le_decode] in Hd. injection Hl as Hl.
  pose proof (Z_of_byte_range x). pose proof (Z_of_byte_range y).
  assert (Z_of_byte x = Z_of_byte y /\ le_decode a = le_decode b) as [E1 E2]
    by lia.
  f_equal; [now apply Z_of_byte_inj | now apply IH].
Qed.

Lemma bytes_eqb_eq (a b : bytes) : bytes_eqb a b = true <-> a = b.
Proof.
  revert b. induction a as [|x a IH]; intros [|y b]; simpl;
    try (split; [discriminate|discriminate]); [tauto|].
  rewrite andb_true_iff, IH. split.
  - intros [E ->]. apply Byte.byte_dec_bl in E. now subst.
  - intros E. injection E as -> ->. split; [now apply Byte.byte_dec_lb|reflexivity].
Qed.

Lemma starts_with_firstn (pat d : bytes) :
  starts_with pat d = true <-> firstn (length pat) d = pat.
Proof.
  revert d. induction pat as [|p pat IH]; intros d; simpl; [tauto|].
  destruct d as [|x d]; [split; discriminate|].
  rewrite andb_true_iff, IH. split.
  - intros [E ->]. apply Byte.byte_dec_bl in E. now subst.
  - intros E. injection E as -> E. split; [now apply Byte.byte_dec_lb|exact E].
Qed.

Lemma starts_with_app (pat t : bytes) : starts_with pat (pat ++ t) = true.
Proof.
  apply starts_with_firstn. rewrite firstn_app, Nat.sub_diag, firstn_all.
  simpl. now rewrite app_nil_r.
Qed.

Lemma in_range_H (v : Z) : in_range H v = true <-> 0 <= v < 65536.
Proof.
  unfold in_range. simpl. rewrite andb_true_iff, Z.leb_le, Z.ltb_lt.
  change (2 ^ 16) with 65536. tauto.
Qed.

Lemma in_range_I (v : Z) : in_range I v = true <-> 0 <= v < 4294967296.
Proof.
  unfold in_range. simpl. rewrite andb_true_iff, Z.leb_le, Z.ltb_lt.
  change (2 ^ 32) with 4294967296. tauto.
Qed.

(** * Reading fields *)

Lemma len_nonneg (d : bytes) : 0 <= len d.
Proof. unfold len. lia. Qed.

Lemma len_app (a b : bytes) : len (a ++ b) = len a + len b.
Proof. unfold len. rewrite length_app. lia. Qed.

Lemma skipn_Z (d : bytes) (o : Z) (k : nat) :
  0 <= o -> skipn k (skipn (Z.to_nat o) d) = skipn (Z.to_nat (o + Z.of_nat k)) d.
Proof.
  intros Ho. rewrite skipn_skipn. f_equal. lia.
Qed.

Lemma u16_at_range (d : bytes) (o : Z) : 0 <= u16_at d o < 65536.
Proof.
  unfold u16_at.
  pose proof (le_decode_range (firstn 2 (skipn (Z.to_nat o) d))) as Hr.
  pose proof (firstn_le_length 2 (skipn (Z.to_nat o) d)) as Hl.
  assert (256 ^ Z.of_nat (length (firstn 2 (skipn (Z.to_nat o) d))) <= 256 ^ 2)
    by (apply Z.pow_le_mono_r; lia).
  change (256 ^ 2) with 65536 in *. lia.
Qed.

Lemma u32_at_range (d : bytes) (o : Z) : 0 <= u32_at d o < 4294967296.
Proof.
  unfold u32_at.
  pose proof (le_decode_range (firstn 4 (skipn (Z.to_nat o) d))) as Hr.
  pose proof (firstn_le_length 4 (skipn (Z.to_nat o) d)) as Hl.
  assert (256 ^ Z.of_nat (length (firstn 4 (skipn (Z.to_nat o) d))) <= 256 ^ 4)
    by (apply Z.pow_le_mono_r; lia).
  change (256 ^ 4) with 4294967296 in *. lia.
Qed.

Lemma unpack_from_ok (fmt : list fmt_code) (d : bytes) (o : Z) :
  0 <= o -> o + Z.of_nat (calcsize fmt) <= len d ->
  unpack_from fmt d o = Ok (unpack_fields fmt (skipn (Z.to_nat o) d)).
Proof.
  intros Ho Hl. unfold unpack_from.
  destruct (o <? 0) eqn:E; [apply Z.ltb_lt in E; lia|].
  rewrite E. simpl.
  destruct (len d - o <? Z.of_nat (calcsize fmt)) eqn:E2;
    [apply Z.ltb_lt in E2; lia|reflexivity].
Qed.


Lemma unpack_from_I (d : bytes) (o : Z) :
  0 <= o -> o + 4 <= len d -> unpack_from [I] d o = Ok [u32_at d o].
Proof.
  intros Ho Hl. rewrite unpack_from_ok by (simpl; lia). reflexivity.
Qed.

Lemma unpack_from_H (d : bytes) (o : Z) :
  0 <= o -> o + 2 <= len d -> unpack_from [H] d o = Ok [u16_at d o].
Proof.
  intros Ho Hl. rewrite unpack_from_ok by (simpl; lia). reflexivity.
Qed.

Lemma unpack_from_LOCAL (d : bytes) (o : Z) :
  0 <= o -> o + 30 <= len d ->
  unpack_from LOCAL_FMT d (o + 4) =
  Ok [u16_at d (o + 4); u16_at d (o + 6); u16_at d (o + 8);
      u16_at d (o + 10); u16_at d (o + 12); u32_at d (o + 14);
      u32_at d (o + 18); u32_at d (o + 22); u16_at d (o + 26);
      u16_at d (o + 28)].
Proof.
  intros Ho Hl. rewrite unpack_from_ok by (simpl; lia).
  unfold LOCAL_FMT, u16_at, u32_at. cbn [unpack_fields code_size].
  repeat rewrite skipn_skipn.
  repeat match goal with
  | |- context [skipn (?a + Z.to_nat ?z)%nat d] =>
      replace (a + Z.to_nat z)%nat with (Z.to_nat (z + Z.of_nat a)) by lia
  end.
  cbn [Z.of_nat Pos.of_succ_nat Pos.succ].
  repeat (rewrite <- Z.add_assoc; cbn [Z.add Pos.add Pos.succ Pos.add_carry]).
  reflexivity.
Qed.

(** * The scanner's loop *)

Lemma next_offset_entry_at (d : bytes) (o : Z) :
  next_offset (entry_at d o) =
  o + (30 + u16_at d (o + 26) + u16_at d (o + 28) + u32_at d (o + 18)).
Proof. reflexivity. Qed.

Lemma next_offset_ge (d : bytes) (o : Z) : o + 30 <= next_offset (entry_at d o).
Proof.
  rewrite next_offset_entry_at.
  pose proof (u16_at_range d (o + 26)). pose proof (u16_at_range d (o + 28)).
  pose proof (u32_at_range d (o + 18)). lia.
Qed.

Lemma scan_loop_exit (fuel : nat) (d : bytes) (o : Z) (acc : list local_entry) :
  len d - 30 <= o -> scan_loop fuel d o acc = Ok (acc, o).
Proof.
  intros Ho. destruct fuel; [reflexivity|]. simpl.
  destruct (o <? len d - 30) eqn:E; [apply Z.ltb_lt in E; lia|reflexivity].
Qed.

Lemma scan_loop_break (fuel : nat) (d : bytes) (o : Z) (acc : list local_entry) :
  0 <= o -> o < len d - 30 -> u32_at d o = CD_SIG ->
  scan_loop (S fuel) d o acc = Ok (acc, o).
Proof.
  intros Ho Hlt Hs. simpl.
  destruct (o <? len d - 30) eqn:E; [|apply Z.ltb_ge in E; lia].
  rewrite unpack_from_I by lia. cbn [bind item nth]. rewrite Hs. reflexivity.
Qed.

Lemma scan_loop_local (fuel : nat) (d : bytes) (o : Z) (acc : list local_entry) :
  0 <= o -> o < len d - 30 -> u32_at d o = LOCAL_SIG ->
  scan_loop (S fuel) d o acc =
  scan_loop fuel d (next_offset (entry_at d o)) (acc ++ [entry_at d o]).
Proof.
  intros Ho Hlt Hs. cbn [scan_loop].
  destruct (o <? len d - 30) eqn:E; [|apply Z.ltb_ge in E; lia].
  rewrite unpack_from_I by lia. cbn [bind item nth]. rewrite Hs.
  change (LOCAL_SIG =? LOCAL_SIG) with true. cbv iota.
  rewrite unpack_from_LOCAL by lia. reflexivity.
Qed.

Lemma scan_loop_skip (fuel : nat) (d : bytes) (o : Z) (acc : list local_entry) :
  0 <= o -> o < len d - 30 ->
  u32_at d o <> LOCAL_SIG -> u32_at d o <> CD_SIG ->
  scan_loop (S fuel) d o acc = scan_loop fuel d (o + 1) acc.
Proof.
  intros Ho Hlt Hs1 Hs2. cbn [scan_loop].
  destruct (o <? len d - 30) eqn:E; [|apply Z.ltb_ge in E; lia].
  rewrite unpack_from_I by lia. cbn [bind item nth].
  apply Z.eqb_neq in Hs1, Hs2. rewrite Hs1, Hs2. reflexivity.
Qed.

(** A run of the relation is what the loop computes, given the fuel. *)
Lemma scan_run_loop (d : bytes) (o : Z) (acc : list local_entry)
    (r : list local_entry * Z) :
  scan_run d o acc r -> 0 <= o ->
  forall fuel, len d - 30 - o <= Z.of_nat fuel -> scan_loop fuel d o acc = Ok r.
Proof.
  induction 1 as [o acc Hge|o acc Hlt Hs|o acc r Hlt Hs Hrun IH
                 |o acc r Hlt Hs1 Hs2 Hrun IH]; intros Ho fuel Hf.
  - now apply scan_loop_exit.
  - destruct fuel; [simpl in Hf; lia|]. now apply scan_loop_break.
  - destruct fuel; [simpl in Hf; lia|].
    rewrite scan_loop_local by assumption.
    pose proof (next_offset_ge d o). apply IH; lia.
  - destruct fuel; [simpl in Hf; lia|].
    rewrite scan_loop_skip by assumption. apply IH; lia.
Qed.

(** The loop never raises and never runs out of fuel. *)
Lemma scan_loop_run (fuel : nat) :
  forall (d : bytes) (o : Z) (acc : list local_entry),
  0 <= o -> len d - 30 - o <= Z.of_nat fuel ->
  exists r, scan_loop fuel d o acc = Ok r /\ scan_run d o acc r.
Proof.
  induction fuel as [|fuel IH]; intros d o acc Ho Hf.
  - exists (acc, o). split; [reflexivity|]. apply scan_exit. simpl in Hf. lia.
  - destruct (Z_lt_le_dec o (len d - 30)) as [Hlt|Hge].
    + destruct (Z.eq_dec (u32_at d o) LOCAL_SIG) as [Hs|Hs1].
      * pose proof (next_offset_ge d o) as Hn.
        destruct (IH d (next_offset (entry_at d o)) (acc ++ [entry_at d o]))
          as [r [E R]]; [lia|lia|].
        exists r. rewrite scan_loop_local by assumption.
        split; [exact E|]. now apply scan_local.
      * destruct (Z.eq_dec (u32_at d o) CD_SIG) as [Hs|Hs2].
        -- exists (acc, o). rewrite scan_loop_break by assumption.
           split; [reflexivity|]. now apply scan_break.
        -- destruct (IH d (o + 1) acc) as [r [E R]]; [lia|lia|].
           exists r. rewrite scan_loop_skip by assumption.
           split; [exact E|]. now apply scan_skip.
    + exists (acc, o). rewrite scan_loop_exit by assumption.
      split; [reflexivity|]. now apply scan_exit.
Qed.

Lemma scan_total (d : bytes) :
  exists es e, scan d = Ok (es, e) /\ scan_run d 0 [] (es, e).
Proof.
  destruct (scan_loop_run (length d) d 0 []) as [[es e] [E R]];
    [lia|unfold len; lia|].
  now exists es, e.
Qed.

Lemma scan_run_scan (d : bytes) (r : list local_entry * Z) :
  scan_run d 0 [] r -> scan d = Ok r.
Proof.
  intros R. apply scan_run_loop with (fuel := length d) in R;
    [exact R|lia|unfold len; lia].
Qed.

Lemma scan_scan_run (d : bytes) (r : list local_entry * Z) :
  scan d = Ok r -> scan_run d 0 [] r.
Proof.
  intros E. destruct (scan_total d) as [es [e [E' R]]]. congruence.
Qed.

(** The offset only grows and the entries are only appended to. *)
Lemma scan_run_grows (d : bytes) (o : Z) (acc : list local_entry)
    (r : list local_entry * Z) :
  scan_run d o acc r -> o <= snd r /\ exists es, fst r = acc ++ es.
Proof.
  induction 1 as [o acc Hge|o acc Hlt Hs|o acc r Hlt Hs Hrun IH
                 |o acc r Hlt Hs1 Hs2 Hrun IH].
  - split; [simpl; lia|]. exists []. simpl. now rewrite app_nil_r.
  - split; [simpl; lia|]. exists []. simpl. now rewrite app_nil_r.
  - destruct IH as [Hle [es Hes]]. pose proof (next_offset_ge d o).
    split; [lia|]. exists (entry_at d o :: es). rewrite Hes, <- app_assoc.
    reflexivity.
  - destruct IH as [Hle [es Hes]]. split; [lia|]. now exists es.
Qed.

(** * The verifier's loop *)



Lemma count_loop_exit (fuel : nat) (d : bytes) (cd o c : Z) :
  cd <= o -> count_loop fuel d cd o c = Ok c.
Proof.
  intros Ho. destruct fuel; [reflexivity|]. simpl.
  destruct (o <? cd) eqn:E; [apply Z.ltb_lt in E; lia|reflexivity].
Qed.

Lemma count_loop_local (fuel : nat) (d : bytes) (cd o c : Z) :
  0 <= o -> o < cd -> o + 30 <= len d -> u32_at d o = LOCAL_SIG ->
  count_loop (S fuel) d cd o c =
  count_loop fuel d cd (next_offset (entry_at d o)) (c + 1).
Proof.
  intros Ho Hlt Hl Hs. cbn [count_loop].
  destruct (o <? cd) eqn:E; [|apply Z.ltb_ge in E; lia].
  rewrite unpack_from_I by lia. cbn [bind item nth]. rewrite Hs.
  change (LOCAL_SIG =? LOCAL_SIG) with true. cbv iota.
  rewrite unpack_from_LOCAL by lia. reflexivity.
Qed.

Lemma count_loop_skip (fuel : nat) (d : bytes) (cd o c : Z) :
  0 <= o -> o < cd -> o + 4 <= len d -> u32_at d o <> LOCAL_SIG ->
  count_loop (S fuel) d cd o c = count_loop fuel d cd (o + 1) c.
Proof.
  intros Ho Hlt Hl Hs. cbn [count_loop].
  destruct (o <? cd) eqn:E; [|apply Z.ltb_ge in E; lia].
  rewrite unpack_from_I by lia. cbn [bind item nth].
  apply Z.eqb_neq in Hs. rewrite Hs. reflexivity.
Qed.



Lemma count_run_loop (d : bytes) (cd o c r : Z) :
  count_run d cd o c r -> 0 <= o ->
  forall fuel, cd - o <= Z.of_nat fuel -> count_loop fuel d cd o c = Ok r.
Proof.
  induction 1 as [o c Hge|o c r Hlt Hl Hs Hrun IH|o c r Hlt Hl Hs Hrun IH];
    intros Ho fuel Hf.
  - now apply count_loop_exit.
  - destruct fuel; [simpl in Hf; lia|].
    rewrite count_loop_local by assumption.
    pose proof (next_offset_ge d o). apply IH; lia.
  - destruct fuel; [simpl in Hf; lia|].
    rewrite count_loop_skip by assumption. apply IH; lia.
Qed.

Lemma count_run_count (d : bytes) (cd r : Z) :
  count_run d cd 0 0 r -> count_local_headers d cd = Ok r.
Proof.
  intros R. unfold count_local_headers.
  apply (count_run_loop _ _ _ _ _ R); lia.
Qed.

(** * A buffer and a buffer that keeps its first bytes *)

Lemma read_prefix (D T : bytes) (n o k : nat) :
  (o + k <= n)%nat -> (n <= length D)%nat ->
  firstn k (skipn o (firstn n D ++ T)) = firstn k (skipn o D).
Proof.
  intros H1 H2.
  rewrite skipn_app, length_firstn, Nat.min_l by lia.
  rewrite firstn_app, length_skipn, length_firstn, Nat.min_l by lia.
  replace (k - (n - o))%nat with O by lia.
  rewrite firstn_O, app_nil_r.
  rewrite skipn_firstn_comm, firstn_firstn.
  f_equal. lia.
Qed.

Lemma skipn_prefix (D T : bytes) (n : nat) :
  (n <= length D)%nat -> skipn n (firstn n D ++ T) = T.
Proof.
  intros Hn. rewrite skipn_app, length_firstn, Nat.min_l by lia.
  rewrite skipn_all2 by (rewrite length_firstn; lia).
  now rewrite Nat.sub_diag.
Qed.

Lemma len_prefix (D : bytes) (e : Z) :
  0 <= e <= len D -> len (firstn (Z.to_nat e) D) = e.
Proof.
  unfold len. intros He. rewrite length_firstn, Nat.min_l by lia. lia.
Qed.

Section Prefix.
Variables (D T : bytes) (e : Z).
Hypothesis He : 0 <= e <= len D.

Let D' := firstn (Z.to_nat e) D ++ T.

Lemma u32_at_prefix (o : Z) :
  0 <= o -> o + 4 <= e -> u32_at D' o = u32_at D o.
Proof.
  intros Ho Hl. unfold u32_at, D'. f_equal.
  apply read_prefix; unfold len in He; lia.
Qed.

Lemma u16_at_prefix (o : Z) :
  0 <= o -> o + 2 <= e -> u16_at D' o = u16_at D o.
Proof.
  intros Ho Hl. unfold u16_at, D'. f_equal.
  apply read_prefix; unfold len in He; lia.
Qed.

Lemma slice_prefix (a b : Z) :
  0 <= a -> b <= e -> slice D' a b = slice D a b.
Proof.
  intros Ha Hb. unfold slice, D'.
  destruct (Z_le_gt_dec a b).
  - apply read_prefix; unfold len in He; lia.
  - replace (Z.to_nat (b - a)) with O by lia. reflexivity.
Qed.

Lemma entry_at_prefix (o : Z) :
  0 <= o -> next_offset (entry_at D o) <= e -> entry_at D' o = entry_at D o.
Proof.
  intros Ho Hn. rewrite next_offset_entry_at in Hn.
  pose proof (u16_at_range D (o + 26)). pose proof (u16_at_range D (o + 28)).
  pose proof (u32_at_range D (o + 18)).
  unfold entry_at.
  rewrite !u16_at_prefix, !u32_at_prefix by lia.
  rewrite slice_prefix by lia. reflexivity.
Qed.

Lemma len_D' : len D' = e + len T.
Proof. unfold D'. rewrite len_app, len_prefix by exact He. reflexivity. Qed.
End Prefix.

Lemma local_sig_bytes (bs : bytes) :
  length bs = 4%nat -> le_decode bs = LOCAL_SIG -> bs = [x50; x4b; x03; x04].
Proof.
  intros Hl Hd. apply le_decode_inj; [exact Hl|]. rewrite Hd. reflexivity.
Qed.

Lemma cd_sig_bytes (bs : bytes) :
  length bs = 4%nat -> le_decode bs = CD_SIG -> bs = CD_MAGIC.
Proof.
  intros Hl Hd. apply le_decode_inj; [exact Hl|]. rewrite Hd. reflexivity.
Qed.

(** A 4-byte read that straddles the start of a central-directory record
    sees neither signature. *)
Lemma u32_at_overlap (D T : bytes) (e o : Z) :
  0 <= e <= len D -> 0 <= o -> o < e -> e < o + 4 ->
  u32_at (firstn (Z.to_nat e) D ++ CD_MAGIC ++ T) o <> LOCAL_SIG /\
  u32_at (firstn (Z.to_nat e) D ++ CD_MAGIC ++ T) o <> CD_SIG.
Proof.
  intros He Ho Hlt Hov. unfold u32_at.
  rewrite skipn_app, length_firstn, Nat.min_l by (unfold len in He; lia).
  replace (Z.to_nat o - Z.to_nat e)%nat with O by lia. rewrite skipn_O.
  assert (Hlen : length (skipn (Z.to_nat o) (firstn (Z.to_nat e) D))
                 = Z.to_nat (e - o)).
  { rewrite length_skipn, length_firstn, Nat.min_l by (unfold len in He; lia).
    lia. }
  destruct (skipn (Z.to_nat o) (firstn (Z.to_nat e) D))
    as [|a [|b [|c [|x l]]]]; simpl in Hlen; try lia;
    cbn [app firstn CD_MAGIC];
    (split; intros E;
     [apply local_sig_bytes in E|apply cd_sig_bytes in E];
     [discriminate|reflexivity|discriminate|reflexivity]).
Qed.

Lemma u32_at_cd_magic (D T : bytes) (e : Z) :
  0 <= e <= len D ->
  u32_at (firstn (Z.to_nat e) D ++ CD_MAGIC ++ T) e = CD_SIG.
Proof.
  intros He. unfold u32_at. rewrite skipn_prefix by (unfold len in He; lia).
  reflexivity.
Qed.

(** The scan of [D] is also the scan of the first [e] bytes of [D]
    followed by a central directory, [e] being where the scan of [D]
    ended. *)
Lemma scan_run_stable (D T : bytes) (o : Z) (acc : list local_entry)
    (r : list local_entry * Z) :
  scan_run D o acc r -> 0 <= o -> snd r <= len D -> 26 < len T ->
  scan_run (firstn (Z.to_nat (snd r)) D ++ CD_MAGIC ++ T) o acc r.
Proof.
  induction 1 as [o acc Hge|o acc Hlt Hs|o acc r Hlt Hs Hrun IH
                 |o acc r Hlt Hs1 Hs2 Hrun IH]; intros Ho He HT.
  - cbn [snd] in *. apply scan_break.
    + rewrite len_D' by lia. rewrite len_app. change (len CD_MAGIC) with 4. lia.
    + apply u32_at_cd_magic. lia.
  - cbn [snd] in *. apply scan_break.
    + rewrite len_D' by lia. rewrite len_app. change (len CD_MAGIC) with 4. lia.
    + apply u32_at_cd_magic. lia.
  - pose proof (scan_run_grows _ _ _ _ Hrun) as [Hle _].
    pose proof (next_offset_ge D o) as Hn.
    assert (Hx : entry_at (firstn (Z.to_nat (snd r)) D ++ CD_MAGIC ++ T) o
                 = entry_at D o) by (apply entry_at_prefix; lia).
    apply scan_local.
    + rewrite len_D' by lia. rewrite len_app. change (len CD_MAGIC) with 4. lia.
    + rewrite u32_at_prefix by lia. exact Hs.
    + rewrite Hx. apply IH; lia.
  - pose proof (scan_run_grows _ _ _ _ Hrun) as [Hle _].
    apply scan_skip.
    + rewrite len_D' by lia. rewrite len_app. change (len CD_MAGIC) with 4. lia.
    + destruct (Z_le_gt_dec (o + 4) (snd r)).
      * rewrite u32_at_prefix by lia. exact Hs1.
      * apply u32_at_overlap; lia.
    + destruct (Z_le_gt_dec (o + 4) (snd r)).
      * rewrite u32_at_prefix by lia. exact Hs2.
      * apply u32_at_overlap; lia.
    + apply IH; lia.
Qed.

(** On that buffer the verifier's loop, run up to [e], counts the entries
    the scan of [D] appended. *)
Lemma count_run_stable (D T : bytes) (o : Z) (acc : list local_entry)
    (r : list local_entry * Z) :
  scan_run D o acc r -> 0 <= o -> snd r <= len D ->
  forall c,
  count_run (firstn (Z.to_nat (snd r)) D ++ CD_MAGIC ++ T) (snd r) o c
    (c + Z.of_nat (length (fst r)) - Z.of_nat (length acc)).
Proof.
  induction 1 as [o acc Hge|o acc Hlt Hs|o acc r Hlt Hs Hrun IH
                 |o acc r Hlt Hs1 Hs2 Hrun IH]; intros Ho He c.
  - cbn [fst snd] in *.
    replace (c + _ - _) with c by lia. apply count_exit. lia.
  - cbn [fst snd] in *.
    replace (c + _ - _) with c by lia. apply count_exit. lia.
  - pose proof (scan_run_grows _ _ _ _ Hrun) as [Hle _].
    pose proof (next_offset_ge D o) as Hn.
    assert (Hx : entry_at (firstn (Z.to_nat (snd r)) D ++ CD_MAGIC ++ T) o
                 = entry_at D o) by (apply entry_at_prefix; lia).
    pose proof (len_nonneg (CD_MAGIC ++ T)).
    apply count_local.
    + lia.
    + rewrite len_D' by lia. lia.
    + rewrite u32_at_prefix by lia. exact Hs.
    + rewrite Hx. specialize (IH ltac:(lia) He (c + 1)).
      rewrite length_app in IH. cbn [length] in IH.
      replace (c + Z.of_nat (length (fst r)) - Z.of_nat (length acc))
        with (c + 1 + Z.of_nat (length (fst r))
              - Z.of_nat (length acc + 1)) by lia.
      exact IH.
  - pose proof (scan_run_grows _ _ _ _ Hrun) as [Hle _].
    apply count_skip.
    + lia.
    + rewrite len_D' by lia. rewrite len_app. change (len CD_MAGIC) with 4.
      pose proof (len_nonneg T). lia.
    + destruct (Z_le_gt_dec (o + 4) (snd r)).
      * rewrite u32_at_prefix by lia. exact Hs1.
      * apply u32_at_overlap; lia.
    + apply IH; lia.
Qed.

(** * The builder and the writer *)

Ltac pack_step :=
  match goal with
  | |- context [if in_range ?c ?v then _ else _] =>
      destruct (in_range c v) eqn:?; cbn [andb bind]; try reflexivity;
      try discriminate
  end.

Lemma cd_record_spec (e : local_entry) :
  cd_record e =
  if ascii_name e then
    if packable e then Ok (cd_layout e) else Raise StructError
  else Raise UnicodeEncodeError.
Proof.
  unfold cd_record, encode_ascii, ascii_name, packable.
  destruct (forallb _ (name e)); [|reflexivity].
  cbn [bind pack CD_FMT].
  change (in_range I CD_SIG) with true. change (in_range H 0) with true.
  change (in_range I 0) with true. cbv iota.
  repeat pack_step.
Qed.

Lemma build_cd_acc (es : list local_entry) :
  forall acc, build_cd es acc = (r <- build_cd es [] ;; Ok (acc ++ r)).
Proof.
  induction es as [|e es IH]; intros acc.
  - simpl. now rewrite app_nil_r.
  - cbn [build_cd]. destruct (cd_record e) as [r|x]; [|reflexivity].
    cbn [bind]. rewrite IH. rewrite (IH ([] ++ r)).
    destruct (build_cd es []) as [r2|x]; [|reflexivity].
    cbn [bind app]. now rewrite app_assoc.
Qed.

Lemma build_cd_cons (e : local_entry) (es : list local_entry) :
  build_cd (e :: es) [] =
  (r <- cd_record e ;; r2 <- build_cd es [] ;; Ok (r ++ r2)).
Proof.
  cbn [build_cd]. destruct (cd_record e) as [r|x]; [|reflexivity].
  cbn [bind app]. apply build_cd_acc.
Qed.

(** The builder returns exactly when every entry can be encoded, and then
    returns the records in order. *)
Lemma build_cd_spec (es : list local_entry) (cd : bytes) :
  build_cd es [] = Ok cd <->
  forallb (fun e => ascii_name e && packable e) es = true
  /\ cd = concat (map cd_layout es).
Proof.
  revert cd. induction es as [|e es IH]; intros cd.
  - simpl. split; [intros E; injection E as <-; auto|intros [_ ->]; auto].
  - rewrite build_cd_cons, cd_record_spec. cbn [forallb map concat].
    destruct (ascii_name e); [|split; [discriminate|intros [? _]; discriminate]].
    destruct (packable e); [|split; [discriminate|intros [? _]; discriminate]].
    cbn [bind andb].
    destruct (build_cd es []) as [r2|x] eqn:E.
    + cbn [bind]. destruct (IH r2) as [IH1 _]. destruct (IH1 eq_refl) as [F ->].
      split; [intros E2; injection E2 as <-; auto|intros [_ ->]; auto].
    + cbn [bind]. split; [discriminate|].
      intros [F _]. destruct (IH (concat (map cd_layout es))) as [_ IH2].
      specialize (IH2 (conj F eq_refl)). congruence.
Qed.

Lemma cd_layout_length (e : local_entry) :
  len (cd_layout e) = 46 + Z.of_nat (length (name e)).
Proof.
  unfold cd_layout, len. rewrite !length_app, !le_encode_length, length_map. lia.
Qed.

Lemma cd_layout_magic (e : local_entry) :
  exists t, cd_layout e = CD_MAGIC ++ t /\ 42 <= len t.
Proof.
  eexists. split; [unfold cd_layout; reflexivity|].
  unfold len. rewrite !length_app, !le_encode_length, length_map. lia.
Qed.

(** A central directory with at least one record starts with b"PK\x01\x02". *)
Lemma build_cd_magic (es : list local_entry) (cd : bytes) :
  build_cd es [] = Ok cd -> es <> [] ->
  exists t, cd = CD_MAGIC ++ t /\ 42 <= len t.
Proof.
  intros E Hne. apply build_cd_spec in E as [_ ->].
  destruct es as [|e es]; [congruence|].
  destruct (cd_layout_magic e) as [t [Et Hl]].
  exists (t ++ concat (map cd_layout es)). cbn [map concat].
  rewrite Et, <- app_assoc. split; [reflexivity|].
  rewrite len_app. pose proof (len_nonneg (concat (map cd_layout es))). lia.
Qed.

Lemma build_eocd_spec (n size off : Z) :
  build_eocd n size off =
  if in_range H n && in_range I size && in_range I off
  then Ok (eocd_layout n size off) else Raise StructError.
Proof.
  unfold build_eocd. cbn [pack EOCD_FMT].
  change (in_range I EOCD_SIG) with true. change (in_range H 0) with true.
  cbv iota.
  repeat pack_step.
Qed.

Lemma eocd_layout_length (n size off : Z) : len (eocd_layout n size off) = 22.
Proof.
  unfold eocd_layout, len. rewrite !length_app, !le_encode_length. reflexivity.
Qed.

Lemma eocd_layout_magic (n size off : Z) :
  starts_with EOCD_MAGIC (eocd_layout n size off) = true.
Proof. reflexivity. Qed.

Lemma eocd_layout_count (n size off : Z) :
  0 <= n < 65536 ->
  le_decode (firstn 2 (skipn 10 (eocd_layout n size off))) = n.
Proof.
  intros Hn. change (firstn 2 (skipn 10 (eocd_layout n size off)))
    with (le_encode 2 n).
  apply le_decode_encode. change (256 ^ Z.of_nat 2) with 65536. lia.
Qed.

Lemma eocd_layout_offset (n size off : Z) :
  0 <= off < 4294967296 ->
  le_decode (firstn 4 (skipn 16 (eocd_layout n size off))) = off.
Proof.
  intros Hn. change (firstn 4 (skipn 16 (eocd_layout n size off)))
    with (le_encode 4 off).
  apply le_decode_encode. change (256 ^ Z.of_nat 4) with 4294967296. lia.
Qed.

Lemma slice_0 (D : bytes) (e : Z) : slice D 0 e = firstn (Z.to_nat e) D.
Proof. unfold slice. rewrite Z.sub_0_r. reflexivity. Qed.

(** What [rebuild_zip_central_directory] does after the scan. *)
Lemma rebuild_after_scan (D : bytes) (es : list local_entry) (e : Z) :
  scan D = Ok (es, e) ->
  rebuild_zip_central_directory D =
  (cd <- build_cd es [] ;;
   eocd <- build_eocd (Z.of_nat (length es)) (len cd) e ;;
   Ok (firstn (Z.to_nat e) D ++ cd ++ eocd, Z.of_nat (length es))).
Proof.
  intros E. unfold rebuild_zip_central_directory. rewrite E. cbn [bind].
  destruct (build_cd es []); [|reflexivity]. cbn [bind].
  destruct (build_eocd _ _ _); [|reflexivity]. cbn [bind].
  now rewrite slice_0.
Qed.

(** * The verifier on a buffer that ends with an EOCD record *)

Lemma skipn_app_tail (X Y : bytes) (k : nat) :
  skipn (length X + k) (X ++ Y) = skipn k Y.
Proof.
  rewrite skipn_app. rewrite skipn_all2 by lia.
  replace (length X + k - length X)%nat with k by lia. reflexivity.
Qed.

Lemma rfind_below_tail (X Y : bytes) (pat : bytes) (m : nat) :
  starts_with pat Y = true ->
  (forall k, (1 <= k <= m)%nat -> starts_with pat (skipn k Y) = false) ->
  rfind_below pat (X ++ Y) (S (length X + m)) = len X.
Proof.
  intros H0 Hk. induction m as [|m IH].
  - cbn [rfind_below]. rewrite skipn_app_tail. cbn [skipn].
    rewrite H0. unfold len. f_equal. lia.
  - cbn [rfind_below]. rewrite skipn_app_tail.
    rewrite Hk by lia.
    replace (length X + S m)%nat with (S (length X + m)) by lia.
    apply IH. intros k Hle. apply Hk. lia.
Qed.

Lemma rfind_eocd (X Y : bytes) :
  length Y = 22%nat -> starts_with EOCD_MAGIC Y = true ->
  eocd_unambiguous Y = true ->
  rfind (X ++ Y) EOCD_MAGIC = len X.
Proof.
  intros Hl H0 Hu. unfold rfind. rewrite length_app, Hl.
  replace (S (length X + 22) - length EOCD_MAGIC)%nat
    with (S (length X + 18)) by (simpl; lia).
  apply rfind_below_tail; [exact H0|].
  intros k Hk. unfold eocd_unambiguous in Hu.
  rewrite forallb_forall in Hu. specialize (Hu k).
  rewrite in_seq in Hu. apply negb_true_iff. apply Hu. lia.
Qed.

Lemma u32_at_tail (X Y : bytes) (k : nat) :
  u32_at (X ++ Y) (len X + Z.of_nat k) = le_decode (firstn 4 (skipn k Y)).
Proof.
  unfold u32_at, len.
  replace (Z.to_nat (Z.of_nat (length X) + Z.of_nat k))
    with (length X + k)%nat by lia.
  now rewrite skipn_app_tail.
Qed.

Lemma u16_at_tail (X Y : bytes) (k : nat) :
  u16_at (X ++ Y) (len X + Z.of_nat k) = le_decode (firstn 2 (skipn k Y)).
Proof.
  unfold u16_at, len.
  replace (Z.to_nat (Z.of_nat (length X) + Z.of_nat k))
    with (length X + k)%nat by lia.
  now rewrite skipn_app_tail.
Qed.

(** Steps 1, 2 and 4 of the verifier when the buffer's last 22 bytes are an
    EOCD record in which the signature occurs once. *)
Lemma verify_zip_tail (X : bytes) (n size off : Z) :
  0 <= n < 65536 -> 0 <= off < 4294967296 ->
  eocd_unambiguous (eocd_layout n size off) = true ->
  let data := X ++ eocd_layout n size off in
  verify_zip data =
  if off >=? len data then
    Ok (false, ("CD offset 0x" ++ hex08 off ++ " beyond file size")%string)
  else if negb (bytes_eqb (slice data off (off + 4)) CD_MAGIC) then
    Ok (false, ("Invalid CD signature at 0x" ++ hex08 off)%string)
  else
    local_count <- count_local_headers data off ;;
    if negb (local_count =? n) then
      Ok (false, ("Local headers (" ++ dec local_count ++ ") != CD entries ("
                    ++ dec n ++ ")")%string)
    else
      Ok (true, ("Valid: " ++ dec n ++ " files, CD at 0x" ++ hex08 off)%string).
Proof.
  intros Hn Hoff Hu data. unfold verify_zip. fold data.
  assert (Hpos : rfind data EOCD_MAGIC = len X).
  { apply rfind_eocd; [|apply eocd_layout_magic|exact Hu].
    pose proof (eocd_layout_length n size off) as L. unfold len in L. lia. }
  rewrite Hpos. pose proof (len_nonneg X) as HX.
  assert (HL : len data = len X + 22)
    by (unfold data; now rewrite len_app, eocd_layout_length).
  destruct (len X <? 0) eqn:E; [apply Z.ltb_lt in E; lia|].
  assert (Hc : u32_at data (len X + 16) = off)
    by (unfold data; rewrite (u32_at_tail X _ 16); now apply eocd_layout_offset).
  assert (Hc' : u16_at data (len X + 10) = n)
    by (unfold data; rewrite (u16_at_tail X _ 10); now apply eocd_layout_count).
  rewrite unpack_from_I by lia. cbn [bind item nth]. rewrite !Hc.
  destruct (off >=? len data); [reflexivity|].
  destruct (negb (bytes_eqb _ _)); [reflexivity|].
  rewrite unpack_from_H by lia. cbn [bind item nth]. rewrite !Hc'.
  reflexivity.
Qed.

(** * Repair, then verification *)

Lemma repair_after_scan (D : bytes) (es : list local_entry) (e : Z) :
  scan D = Ok (es, e) ->
  repair D =
  (cd <- build_cd es [] ;;
   eocd <- build_eocd (Z.of_nat (length es)) (len cd) e ;;
   Ok (firstn (Z.to_nat e) D ++ cd ++ eocd)).
Proof.
  intros E. unfold repair. rewrite (rebuild_after_scan _ _ _ E).
  destruct (build_cd es []); [|reflexivity]. cbn [bind].
  destruct (build_eocd _ _ _); reflexivity.
Qed.

Lemma scan_end_nonneg (D : bytes) (es : list local_entry) (e : Z) :
  scan D = Ok (es, e) -> 0 <= e.
Proof.
  intros E. apply scan_scan_run in E.
  apply scan_run_grows in E as [Hle _]. exact Hle.
Qed.

Lemma bytes_eqb_refl (a : bytes) : bytes_eqb a a = true.
Proof. now apply bytes_eqb_eq. Qed.

(** The verifier accepts what the repairer wrote when the scan found an
    entry and ended inside the buffer. *)
Lemma verify_repaired (D : bytes) (es : list local_entry) (e : Z) (cd : bytes) :
  scan D = Ok (es, e) -> es <> [] -> e <= len D ->
  build_cd es [] = Ok cd ->
  Z.of_nat (length es) < 65536 -> len cd < 4294967296 -> e < 4294967296 ->
  eocd_unambiguous (eocd_layout (Z.of_nat (length es)) (len cd) e) = true ->
  let out := firstn (Z.to_nat e) D ++ cd
             ++ eocd_layout (Z.of_nat (length es)) (len cd) e in
  repair D = Ok out /\
  verify_zip out =
  Ok (true, ("Valid: " ++ dec (Z.of_nat (length es)) ++ " files, CD at 0x"
               ++ hex08 e)%string).
Proof.
  intros E Hne He Hcd Hn Hsz Hoff Hu out.
  pose proof (scan_end_nonneg _ _ _ E) as He0.
  pose proof (len_nonneg cd) as Hcd0.
  split.
  - rewrite (repair_after_scan _ _ _ E), Hcd. cbn [bind].
    rewrite build_eocd_spec.
    assert (in_range H (Z.of_nat (length es)) = true) as -> by (apply in_range_H; lia).
    assert (in_range I (len cd) = true) as -> by (apply in_range_I; lia).
    assert (in_range I e = true) as -> by (apply in_range_I; lia).
    reflexivity.
  - unfold out. rewrite app_assoc.
    rewrite verify_zip_tail by (try exact Hu; lia).
    rewrite <- app_assoc. fold out.
    assert (HL : len out = e + len cd + 22).
    { unfold out. rewrite !len_app, len_prefix, eocd_layout_length by lia. lia. }
    destruct (e >=? len out) eqn:G; [apply Z.geb_le in G; lia|].
    destruct (build_cd_magic _ _ Hcd Hne) as [t [Et Ht]].
    assert (Hout : out = firstn (Z.to_nat e) D ++ CD_MAGIC
                         ++ (t ++ eocd_layout (Z.of_nat (length es)) (len cd) e)).
    { unfold out. rewrite Et, <- app_assoc. reflexivity. }
    assert (Hsl : slice out e (e + 4) = CD_MAGIC).
    { rewrite Hout. unfold slice.
      rewrite skipn_prefix by (unfold len in He; lia).
      replace (Z.to_nat (e + 4 - e)) with 4%nat by lia. reflexivity. }
    rewrite Hsl, bytes_eqb_refl. cbn [negb].
    apply scan_scan_run in E.
    pose proof (count_run_stable D
                  (t ++ eocd_layout (Z.of_nat (length es)) (len cd) e)
                  0 [] (es, e) E ltac:(lia) He 0) as C.
    cbn [fst snd length] in C. rewrite <- Hout in C.
    replace (0 + Z.of_nat (length es) - Z.of_nat 0)
      with (Z.of_nat (length es)) in C by lia.
    rewrite (count_run_count _ _ _ C). cbn [bind].
    rewrite Z.eqb_refl. reflexivity.
Qed.

(** Repairing what the repairer wrote changes nothing, when the scan found
    an entry and ended inside the buffer. *)
Lemma repair_repaired (D : bytes) (es : list local_entry) (e : Z) (out : bytes) :
  scan D = Ok (es, e) -> es <> [] -> e <= len D ->
  repair D = Ok out -> repair out = Ok out.
Proof.
  intros E Hne He Hrep.
  pose proof (scan_end_nonneg _ _ _ E) as He0.
  pose proof Hrep as Hrep'.
  rewrite (repair_after_scan _ _ _ E) in Hrep.
  destruct (build_cd es []) as [cd|] eqn:Hcd; [|discriminate]. cbn [bind] in Hrep.
  destruct (build_eocd _ _ _) as [eocd|] eqn:Heo; [|discriminate].
  cbn [bind] in Hrep. injection Hrep as Hout.
  destruct (build_cd_magic _ _ Hcd Hne) as [t [Et Ht]].
  assert (Hout' : out = firstn (Z.to_nat e) D ++ CD_MAGIC ++ (t ++ eocd)).
  { rewrite <- Hout, Et, <- app_assoc. reflexivity. }
  assert (E2 : scan out = Ok (es, e)).
  { apply scan_run_scan. rewrite Hout'.
    apply (scan_run_stable D (t ++ eocd) 0 [] (es, e)).
    - now apply scan_scan_run.
    - lia.
    - exact He.
    - rewrite len_app. pose proof (len_nonneg eocd). lia. }
  rewrite (repair_after_scan _ _ _ E2), Hcd. cbn [bind]. rewrite Heo.
  cbn [bind]. f_equal. rewrite <- Hout at 2. f_equal.
  rewrite <- Hout. rewrite firstn_app, firstn_firstn, Nat.min_id.
  rewrite length_firstn, Nat.min_l by (unfold len in He; lia).
  rewrite Nat.sub_diag, firstn_O, app_nil_r. reflexivity.
Qed.

(** * The entries of a scan *)

Lemma read_from_weaken (D : bytes) (b b' : Z) (x : local_entry) :
  b <= b' -> read_from D b x -> read_from D b' x.
Proof.
  unfold read_from. intros Hb (H1 & H2 & H3 & H4 & H5). repeat split; auto. lia.
Qed.

Lemma scan_run_entries (D : bytes) (o : Z) (acc : list local_entry)
    (r : list local_entry * Z) :
  scan_run D o acc r -> 0 <= o ->
  Forall (read_from D o) acc -> Forall (read_from D (snd r)) (fst r).
Proof.
  induction 1 as [o acc Hge|o acc Hlt Hs|o acc r Hlt Hs Hrun IH
                 |o acc r Hlt Hs1 Hs2 Hrun IH]; intros Ho Hacc.
  - exact Hacc.
  - exact Hacc.
  - pose proof (next_offset_ge D o) as Hn. apply IH; [lia|].
    apply Forall_app. split.
    + eapply Forall_impl; [|exact Hacc].
      intros x. apply read_from_weaken. lia.
    + constructor; [|constructor].
      unfold read_from. cbn [local_header_offset entry_at].
      repeat split; auto; lia.
  - apply IH; [lia|].
    eapply Forall_impl; [|exact Hacc]. intros x. apply read_from_weaken. lia.
Qed.

Lemma scan_entries (D : bytes) (es : list local_entry) (e : Z) :
  scan D = Ok (es, e) -> Forall (read_from D e) es.
Proof.
  intros E. apply scan_scan_run in E.
  apply (scan_run_entries _ _ _ _ E); [lia|constructor].
Qed.

Lemma in_range_u16_at (D : bytes) (o : Z) : in_range H (u16_at D o) = true.
Proof. apply in_range_H. apply u16_at_range. Qed.

Lemma in_range_u32_at (D : bytes) (o : Z) : in_range I (u32_at D o) = true.
Proof. apply in_range_I. apply u32_at_range. Qed.

Lemma entry_at_packable (D : bytes) (o : Z) :
  0 <= o < 4294967296 -> packable (entry_at D o) = true.
Proof.
  intros Ho. unfold packable. cbn [entry_at ver flags method modtime moddate crc
    comp_sz uncomp_sz fn_len local_header_offset].
  rewrite !in_range_u16_at, !in_range_u32_at. cbn [andb].
  apply in_range_I. exact Ho.
Qed.

Lemma decode_ascii_replace_ascii (raw : bytes) :
  forallb (fun c => c <? 128) (decode_ascii_replace raw)
  = forallb (fun b => Z_of_byte b <? 128) raw.
Proof.
  induction raw as [|b raw IH]; [reflexivity|].
  cbn [decode_ascii_replace map forallb].
  fold (decode_ascii_replace raw). rewrite IH.
  destruct (Z_of_byte b <? 128) eqn:E; [now rewrite E|reflexivity].
Qed.

(** Decoding and encoding back gives the raw bytes when they are ASCII,
    and raises when one of them is not. *)
Lemma encode_decode_ascii (raw : bytes) :
  encode_ascii (decode_ascii_replace raw) =
  if forallb (fun b => Z_of_byte b <? 128) raw then Ok raw
  else Raise UnicodeEncodeError.
Proof.
  unfold encode_ascii. rewrite decode_ascii_replace_ascii.
  destruct (forallb _ raw) eqn:F; [|reflexivity]. f_equal.
  induction raw as [|b raw IH]; [reflexivity|].
  cbn [forallb] in F. apply andb_true_iff in F as [Fb F].
  cbn [decode_ascii_replace map]. rewrite Fb, byte_of_Z_of_byte.
  f_equal. now apply IH.
Qed.

Lemma slice_length (D : bytes) (a b : Z) :
  0 <= a -> a <= b ->
  len (slice D a b) = Z.max 0 (Z.min (b - a) (len D - a)).
Proof.
  intros Ha Hb. unfold slice, len.
  rewrite length_firstn, length_skipn. lia.
Qed.

(** * The scanner and truncated headers *)







(** * The scanner's loop bound *)

Lemma scan_header_before_bound (D : bytes) (es : list local_entry) (e : Z) :
  scan D = Ok (es, e) ->
  Forall (fun x => local_header_offset x < len D - 30) es.
Proof.
  intros E. pose proof (scan_entries _ _ _ E) as F.
  eapply Forall_impl; [|exact F]. intros x (_ & H & _). lia.
Qed.

(** C7, at the failing inputs: a buffer that is exactly one 30-byte header
    yields no entry, and of two such headers in a row the second, which
    fills the final 30 bytes, is not emitted. *)
Theorem scan_misses_final_bare_header :
  len bare_header = 30
  /\ u32_at bare_header 0 = LOCAL_SIG
  /\ scan bare_header = Ok ([], 0)
  /\ u32_at (bare_header ++ bare_header) 30 = LOCAL_SIG
  /\ scan (bare_header ++ bare_header)
     = Ok ([mk_entry 0 [] 20 0 0 0 0 0 0 0 0 0], 30).
Proof. repeat split; vm_compute; reflexivity. Qed.

(** * File names that are not ASCII *)

(** C2, at the failing input: the scanner decodes the name 0x80 to U+FFFD
    without failing, and the builder's [encode("ascii")] then raises. *)
Theorem repair_raises_on_non_ascii_name :
  scan non_ascii_name
  = Ok ([mk_entry 0 [REPLACEMENT_CHARACTER] 20 0 0 0 0 0 0 0 1 0], 31)
  /\ rebuild_zip_central_directory non_ascii_name = Raise UnicodeEncodeError
  /\ repair non_ascii_name = Raise UnicodeEncodeError.
Proof. repeat split; vm_compute; reflexivity. Qed.

(** Whenever the scanner returns an entry whose name holds a byte above
    0x7F, the repair raises. *)
Lemma repair_raises_on_replaced_name (D : bytes) (es : list local_entry)
    (e : Z) (x : local_entry) :
  scan D = Ok (es, e) -> In x es -> ascii_name x = false ->
  exists ex, repair D = Raise ex.
Proof.
  intros E Hin Hx. rewrite (repair_after_scan _ _ _ E).
  destruct (build_cd es []) as [cd|ex] eqn:B; [|now exists ex].
  apply build_cd_spec in B as [F _]. rewrite forallb_forall in F.
  specialize (F x Hin). rewrite Hx in F. discriminate.
Qed.

(** * The verifier on truncated buffers *)

(** C5, at the failing inputs: on an archive cut after the EOCD signature
    the read of the central-directory offset raises [struct.error], and so
    does the read of a local header that the buffer ends in. *)
Theorem verify_raises_on_cut_buffers :
  verify_zip cut_eocd = Raise StructError
  /\ len short_header = 28
  /\ verify_zip short_header = Raise StructError.
Proof. repeat split; vm_compute; reflexivity. Qed.

(** The failure the verifier names first is returned, not raised. *)
Lemma verify_no_eocd (D : bytes) :
  rfind D EOCD_MAGIC < 0 ->
  verify_zip D = Ok (false, "No EOCD record found"%string).
Proof.
  intros Hr. unfold verify_zip. apply Z.ltb_lt in Hr. now rewrite Hr.
Qed.

Lemma count_loop_returns (fuel : nat) :
  forall (D : bytes) (cd o c : Z),
  0 <= o -> cd + 4 <= len D ->
  (forall p, 0 <= p < cd -> u32_at D p = LOCAL_SIG -> p + 30 <= len D) ->
  exists r, count_loop fuel D cd o c = Ok r.
Proof.
  induction fuel as [|fuel IH]; intros D cd o c Ho Hcd Hfit.
  - now exists c.
  - destruct (Z_lt_le_dec o cd) as [Hlt|Hge].
    + destruct (Z.eq_dec (u32_at D o) LOCAL_SIG) as [Hs|Hs].
      * rewrite count_loop_local by (auto; apply Hfit; auto; lia).
        pose proof (next_offset_ge D o). apply IH; auto; lia.
      * rewrite count_loop_skip by (auto; lia). apply IH; auto; lia.
    + exists c. now apply count_loop_exit.
Qed.

(** The verifier returns a result, whatever the failure, as soon as the
    EOCD signature it finds is followed by 16 more bytes and no local
    header met by step 5 is cut by the end of the buffer. *)
Lemma verify_zip_returns (D : bytes) :
  (0 <= rfind D EOCD_MAGIC -> rfind D EOCD_MAGIC + 20 <= len D) ->
  (forall p, 0 <= p < u32_at D (rfind D EOCD_MAGIC + 16) ->
             u32_at D p = LOCAL_SIG -> p + 30 <= len D) ->
  exists v msg, verify_zip D = Ok (v, msg).
Proof.
  intros Hpos Hfit. unfold verify_zip.
  destruct (rfind D EOCD_MAGIC <? 0) eqn:P; [eauto|].
  apply Z.ltb_ge in P. specialize (Hpos P).
  rewrite unpack_from_I by lia. cbn [bind item nth].
  set (cd := u32_at D (rfind D EOCD_MAGIC + 16)) in *.
  destruct (cd >=? len D) eqn:G; [eauto|].
  destruct (bytes_eqb (slice D cd (cd + 4)) CD_MAGIC) eqn:B; [|cbn [negb]; eauto].
  cbn [negb]. apply bytes_eqb_eq in B.
  assert (Hcd : cd + 4 <= len D).
  { pose proof (u32_at_range D (rfind D EOCD_MAGIC + 16)) as R. fold cd in R.
    pose proof (slice_length D cd (cd + 4) ltac:(lia) ltac:(lia)) as L.
    rewrite B in L. change (len CD_MAGIC) with 4 in L. lia. }
  rewrite unpack_from_H by lia. cbn [bind item nth].
  destruct (count_loop_returns (Z.to_nat cd) D cd 0 0 ltac:(lia) Hcd Hfit)
    as [r Hr].
  unfold count_local_headers. rewrite Hr. cbn [bind].
  destruct (negb _); eauto.
Qed.

(** * Step 5 of the verifier *)

Lemma count_local_headers_from (D : bytes) (cd : Z) :
  count_local_headers D cd = count_from D cd 0 0.
Proof.
  unfold count_local_headers, count_from. now rewrite Z.sub_0_r.
Qed.

Lemma count_from_done (D : bytes) (cd o c : Z) :
  cd <= o -> count_from D cd o c = Ok c.
Proof. intros H. unfold count_from. now apply count_loop_exit. Qed.




(** * The two-file scenario *)

(** C8: for the 78-byte buffer made of "a.txt" (5 payload bytes) and
    "b.txt" (3 payload bytes), the repair appends a central directory and
    an EOCD record that declares 2 entries and the central-directory offset
    30*2 + 5 + 3 + 5 + 5, and the verifier accepts the result. *)
Theorem repair_two_entries (p q : bytes) :
  length p = 5%nat -> length q = 3%nat ->
  exists cd,
    len (two_entries p q) = 78
    /\ repair (two_entries p q)
       = Ok (two_entries p q ++ cd
             ++ eocd_layout 2 (len cd) (30 * 2 + 5 + 3 + 5 + 5))
    /\ verify_zip (two_entries p q ++ cd
                   ++ eocd_layout 2 (len cd) (30 * 2 + 5 + 3 + 5 + 5))
       = Ok (true, "Valid: 2 files, CD at 0x0000004e"%string).
Proof.
  intros Hp Hq.
  destruct p as [|p1 [|p2 [|p3 [|p4 [|p5 [|? ?]]]]]]; try discriminate.
  destruct q as [|q1 [|q2 [|q3 [|? ?]]]]; try discriminate.
  exists (cd_layout (mk_entry 0 [97; 46; 116; 120; 116] 20 0 0 0 0 0 5 5 5 0)
          ++ cd_layout (mk_entry 40 [98; 46; 116; 120; 116] 20 0 0 0 0 0 3 3 5 0)).
  repeat split; vm_compute; reflexivity.
Qed.

Lemma repair_two_entries_witness :
  exists cd,
    len (two_entries (ascii_bytes "hello") (ascii_bytes "abc")) = 78
    /\ repair (two_entries (ascii_bytes "hello") (ascii_bytes "abc"))
       = Ok (two_entries (ascii_bytes "hello") (ascii_bytes "abc") ++ cd
             ++ eocd_layout 2 (len cd) (30 * 2 + 5 + 3 + 5 + 5))
    /\ verify_zip (two_entries (ascii_bytes "hello") (ascii_bytes "abc") ++ cd
                   ++ eocd_layout 2 (len cd) (30 * 2 + 5 + 3 + 5 + 5))
       = Ok (true, "Valid: 2 files, CD at 0x0000004e"%string).
Proof.
  apply (repair_two_entries (ascii_bytes "hello") (ascii_bytes "abc"));
    reflexivity.
Defined.

(** The entries of a scan that ended below 4 GiB fit their fields. *)
Lemma scanned_packable (D : bytes) (es : list local_entry) (e : Z) :
  scan D = Ok (es, e) -> e < 4294967296 ->
  forallb packable es = true.
Proof.
  intros E He. apply forallb_forall. intros x Hin.
  pose proof (scan_entries _ _ _ E) as F. rewrite Forall_forall in F.
  destruct (F x Hin) as (H0 & _ & _ & Hx & Hn).
  rewrite Hx. apply entry_at_packable.
  pose proof (next_offset_ge D (local_header_offset x)) as G.
  rewrite <- Hx in G. lia.
Qed.

(** * The central-directory builder *)

Lemma ascii_name_raw (D : bytes) (o : Z) :
  ascii_name (entry_at D o) = true ->
  map byte_of_Z (name (entry_at D o))
  = slice D (o + 30) (o + 30 + fn_len (entry_at D o)).
Proof.
  unfold ascii_name. cbn [entry_at name fn_len]. intros A.
  rewrite decode_ascii_replace_ascii in A.
  pose proof (encode_decode_ascii
                (slice D (o + 30) (o + 30 + u16_at D (o + 26)))) as K.
  rewrite A in K. unfold encode_ascii in K.
  rewrite decode_ascii_replace_ascii, A in K. now injection K.
Qed.

(** The builder does not return on a scanned name that is not ASCII:
    whatever the buffer, when the scan ended below 4 GiB (so that every
    field fits its width) and one of the scanned names holds a byte above
    0x7F, the builder raises [UnicodeEncodeError] and emits nothing. *)
Lemma build_cd_raises_on_replaced_name (D : bytes) (es : list local_entry)
    (e : Z) :
  scan D = Ok (es, e) -> e < 4294967296 ->
  forallb ascii_name es = false ->
  build_cd es [] = Raise UnicodeEncodeError.
Proof.
  intros E He. pose proof (scanned_packable _ _ _ E He) as P. clear E.
  induction es as [|x es IH]; [discriminate|].
  cbn [forallb] in P |- *. apply andb_true_iff in P as [Px Pes].
  intros A. rewrite build_cd_cons, cd_record_spec, Px.
  destruct (ascii_name x); [|reflexivity].
  cbn [andb] in A. cbn [bind]. now rewrite (IH Pes A).
Qed.

(** C9, at the failing input: the scanner returns an entry for the header
    whose one-byte name is 0x80, the name decoded to U+FFFD, and on this
    list of scanned entries the builder emits no record: its
    [encode("ascii")] raises, where a record ending in the raw name byte
    0x80 is expected. *)
Theorem builder_raises_on_scanned_name :
  scan non_ascii_name
  = Ok ([mk_entry 0 [REPLACEMENT_CHARACTER] 20 0 0 0 0 0 0 0 1 0], 31)
  /\ slice non_ascii_name 30 31 = [x80]
  /\ cd_record (mk_entry 0 [REPLACEMENT_CHARACTER] 20 0 0 0 0 0 0 0 1 0)
     = Raise UnicodeEncodeError
  /\ build_cd [mk_entry 0 [REPLACEMENT_CHARACTER] 20 0 0 0 0 0 0 0 1 0] []
     = Raise UnicodeEncodeError.
Proof. repeat split; vm_compute; reflexivity. Qed.

(** X22: on the entries of a scan that ended below 4 GiB and whose names
    are all ASCII, the builder returns, and what it returns is, in scan
    order, one record per entry: the signature 0x02014B50, the entry's
    version twice, flags, method, time, date, CRC, the two sizes and the
    name length as scanned, twelve zero bytes (four 16-bit fields and one
    32-bit field), the local header offset, and then the raw name bytes
    that follow the local header in the buffer. *)
Theorem builder_emits_ascii_records (D : bytes) (es : list local_entry)
    (e : Z) :
  scan D = Ok (es, e) -> e < 4294967296 ->
  forallb ascii_name es = true ->
  build_cd es []
  = Ok (concat (map (fun x =>
          le_encode 4 CD_SIG ++ le_encode 2 (ver x) ++ le_encode 2 (ver x)
          ++ le_encode 2 (flags x) ++ le_encode 2 (method x)
          ++ le_encode 2 (modtime x) ++ le_encode 2 (moddate x)
          ++ le_encode 4 (crc x) ++ le_encode 4 (comp_sz x)
          ++ le_encode 4 (uncomp_sz x) ++ le_encode 2 (fn_len x)
          ++ [x00; x00; x00; x00; x00; x00; x00; x00; x00; x00; x00; x00]
          ++ le_encode 4 (local_header_offset x)
          ++ slice D (local_header_offset x + 30)
               (local_header_offset x + 30 + fn_len x)) es)).
Proof.
  intros E He A. pose proof (scanned_packable _ _ _ E He) as P.
  pose proof (scan_entries _ _ _ E) as R.
  apply build_cd_spec. split.
  - apply forallb_forall. intros x Hin.
    rewrite forallb_forall in A, P. now rewrite (A x Hin), (P x Hin).
  - f_equal. apply map_ext_in. intros x Hin.
    rewrite forallb_forall in A. specialize (A x Hin).
    rewrite Forall_forall in R. destruct (R x Hin) as (_ & _ & _ & Hx & _).
    assert (N : map byte_of_Z (name x)
                = slice D (local_header_offset x + 30)
                    (local_header_offset x + 30 + fn_len x)).
    { rewrite Hx in A |- *. now apply ascii_name_raw. }
    rewrite <- N. reflexivity.
Qed.

Lemma builder_emits_ascii_records_witness :
  build_cd [mk_entry 0 [97; 46; 116; 120; 116] 20 0 0 0 0 0 5 5 5 0;
            mk_entry 40 [98; 46; 116; 120; 116] 20 0 0 0 0 0 3 3 5 0] []
  = Ok (concat (map cd_layout
          [mk_entry 0 [97; 46; 116; 120; 116] 20 0 0 0 0 0 5 5 5 0;
           mk_entry 40 [98; 46; 116; 120; 116] 20 0 0 0 0 0 3 3 5 0])).
Proof.
  refine (eq_trans
            (builder_emits_ascii_records
               (two_entries (ascii_bytes "hello") (ascii_bytes "abc"))
               [mk_entry 0 [97; 46; 116; 120; 116] 20 0 0 0 0 0 5 5 5 0;
                mk_entry 40 [98; 46; 116; 120; 116] 20 0 0 0 0 0 3 3 5 0]
               78 _ _ _) _);
    vm_compute; reflexivity.
Defined.

(** * The repairer's output *)

(** C10: what the repair returns is the first [local_data_end] bytes of
    the input as they were, then the central-directory block, then the
    22-byte EOCD record; nothing of the input at or beyond
    [local_data_end] is in it: every entry, and so every record of the
    central directory, is read from the kept bytes alone, and any buffer
    with the same scan result and the same first [local_data_end] bytes is
    repaired to the same output. *)
Theorem repair_output (D out : bytes) :
  repair D = Ok out ->
  exists es e cd,
    scan D = Ok (es, e)
    /\ build_cd es [] = Ok cd
    /\ out = slice D 0 e ++ cd ++ eocd_layout (Z.of_nat (length es)) (len cd) e
    /\ len (eocd_layout (Z.of_nat (length es)) (len cd) e) = 22
    /\ len out = Z.min e (len D) + len cd + 22
    /\ (forall i, (i < Z.to_nat (Z.min e (len D)))%nat ->
          nth_error out i = nth_error D i)
    /\ Forall (fun x => x = entry_at (slice D 0 e) (local_header_offset x)) es
    /\ (forall D2, scan D2 = Ok (es, e) -> slice D2 0 e = slice D 0 e ->
          repair D2 = Ok out).
Proof.
  intros Hrep. destruct (scan_total D) as [es [e [E _]]].
  pose proof (scan_end_nonneg _ _ _ E) as He.
  pose proof Hrep as Hrep'. rewrite (repair_after_scan _ _ _ E) in Hrep.
  destruct (build_cd es []) as [cd|] eqn:B; [|discriminate].
  cbn [bind] in Hrep. rewrite build_eocd_spec in Hrep.
  destruct (_ && _) eqn:Rg; [|discriminate]. injection Hrep as Hout.
  exists es, e, cd. rewrite slice_0.
  split; [exact E|]. split; [exact B|]. split; [now rewrite Hout|].
  split; [apply eocd_layout_length|]. split; [|split; [|split]].
  - rewrite <- Hout, !len_app, eocd_layout_length. unfold len.
    rewrite length_firstn. lia.
  - intros i Hi. rewrite <- Hout. rewrite nth_error_app1.
    + rewrite nth_error_firstn.
      destruct (i <? Z.to_nat e)%nat eqn:L; [reflexivity|].
      apply Nat.ltb_ge in L. unfold len in Hi. lia.
    + rewrite length_firstn. unfold len in Hi. lia.
  - pose proof (scan_entries _ _ _ E) as F.
    eapply Forall_impl; [|exact F]. intros x (H0 & _ & _ & Hx & Hn).
    destruct (Z_le_gt_dec e (len D)) as [Hle|Hgt].
    + rewrite <- (app_nil_r (firstn (Z.to_nat e) D)).
      rewrite entry_at_prefix; [exact Hx|lia|exact H0|now rewrite <- Hx].
    + rewrite firstn_all2 by (unfold len in Hgt; lia). exact Hx.
  - intros D2 E2 Hs. rewrite (repair_after_scan _ _ _ E2), B. cbn [bind].
    rewrite build_eocd_spec, Rg. cbn [bind]. rewrite !slice_0 in Hs.
    rewrite Hs, Hout. reflexivity.
Qed.

Lemma repair_output_witness :
  exists es e cd,
    scan cut_payload = Ok (es, e)
    /\ build_cd es [] = Ok cd
    /\ e = 32 /\ len cut_payload = 31 /\ len cd = 46.
Proof.
  destruct (repair_output cut_payload
              (cut_payload
               ++ cd_layout (mk_entry 0 [] 20 0 0 0 0 0 2 2 0 0)
               ++ eocd_layout 1 46 32))
    as (es & e & cd & E & B & _); [vm_compute; reflexivity|].
  exists es, e, cd. split; [exact E|]. split; [exact B|].
  vm_compute in E. injection E as <- <-. vm_compute in B. injection B as <-.
  repeat split.
Defined.

(** * Where b"PK\x05\x06" can occur in an EOCD record *)

Lemma Z_of_byte_of_Z_mod (z : Z) : Z_of_byte (byte_of_Z z) = z mod 256.
Proof.
  assert (E : byte_of_Z z = byte_of_Z (z mod 256))
    by (unfold byte_of_Z; now rewrite Z.mod_mod by lia).
  rewrite E. apply Z_of_byte_of_Z. apply Z.mod_pos_bound. lia.
Qed.

Lemma byte_of_Z_eq (z : Z) (b : byte) :
  byte_of_Z z = b -> z mod 256 = Z_of_byte b.
Proof. intros <-. now rewrite Z_of_byte_of_Z_mod. Qed.

Ltac magic_at Hm :=
  apply negb_true_iff; apply not_true_is_false; intros Hm;
  apply starts_with_firstn in Hm;
  cbn [firstn skipn length EOCD_MAGIC eocd_layout le_encode app] in Hm.

(** With no entry and an empty central directory, only the offset field
    can hold the signature. *)
Lemma eocd_unambiguous_empty (off : Z) :
  0 <= off < 4294967296 -> off <> EOCD_SIG ->
  eocd_unambiguous (eocd_layout 0 0 off) = true.
Proof.
  intros Hr Hoff. unfold eocd_unambiguous. cbn [forallb seq].
  repeat (apply andb_true_intro; split); try reflexivity;
    magic_at Hm; try discriminate Hm.
  apply Hoff. rewrite <- (le_decode_encode 4 off)
    by (change (256 ^ Z.of_nat 4) with 4294967296; lia).
  cbn [le_encode]. rewrite Hm. reflexivity.
Qed.

(** An archive of fewer than 19280 entries whose central directory and
    local region are both under 16 MiB never has the signature inside its
    EOCD fields. *)
Lemma eocd_unambiguous_small (n size off : Z) :
  0 <= n < 19280 -> 0 <= size < 16777216 -> 0 <= off < 16777216 ->
  eocd_unambiguous (eocd_layout n size off) = true.
Proof.
  intros Hn Hs Ho. unfold eocd_unambiguous. cbn [forallb seq].
  repeat (apply andb_true_intro; split); try reflexivity;
    magic_at Hm; try discriminate Hm;
    injection Hm as S1 S2 S3 S4;
    apply byte_of_Z_eq in S1, S2, S3, S4;
    vm_compute (Z_of_byte _) in S1, S2, S3, S4;
    Z.to_euclidean_division_equations; lia.
Qed.

(** * Repair followed by verification *)

(** C1, counterexample: the empty buffer is parsed fully, with nothing
    lost; its repair is a lone EOCD record, which the verifier rejects
    because no central-directory signature stands at the offset it
    declares. *)
Lemma empty_archive_rejected :
  fully_parsed [] = true
  /\ repair [] = Ok (eocd_layout 0 0 0)
  /\ verify_zip (eocd_layout 0 0 0)
     = Ok (false, "Invalid CD signature at 0x00000000"%string).
Proof. repeat split; vm_compute; reflexivity. Qed.


(** C1, as amended: when the scanner parses the buffer fully and finds at
    least one entry, every name is ASCII, the entry count fits 16 bits, the
    central-directory size and offset fit 32 bits, and b"PK\x05\x06" does
    not occur inside the fields of the EOCD record to be written, the
    repair returns and the verifier accepts its output. *)
Theorem repair_then_verify (D : bytes) (es : list local_entry) (e : Z) :
  scan D = Ok (es, e) ->
  fully_parsed D = true ->
  es <> [] ->
  forallb ascii_name es = true ->
  Z.of_nat (length es) < 65536 ->
  len (concat (map cd_layout es)) < 4294967296 ->
  e < 4294967296 ->
  eocd_unambiguous
    (eocd_layout (Z.of_nat (length es)) (len (concat (map cd_layout es))) e)
  = true ->
  exists out,
    repair D = Ok out
    /\ verify_zip out
       = Ok (true, ("Valid: " ++ dec (Z.of_nat (length es))
                      ++ " files, CD at 0x" ++ hex08 e)%string).
Proof.
  intros E Hfp Hne Ha Hn Hsz He Hu.
  unfold fully_parsed in Hfp. rewrite E in Hfp.
  apply andb_true_iff in Hfp as [_ Hle]. apply Z.leb_le in Hle.
  assert (B : build_cd es [] = Ok (concat (map cd_layout es))).
  { apply build_cd_spec. split; [|reflexivity].
    pose proof (scanned_packable _ _ _ E He) as Hp.
    rewrite forallb_forall in Ha, Hp |- *. intros x Hin.
    now rewrite Ha, Hp. }
  destruct (verify_repaired D es e _ E Hne Hle B Hn Hsz He Hu) as [R V].
  eexists. split; [exact R|exact V].
Qed.

Lemma repair_then_verify_witness :
  exists out,
    repair (two_entries (ascii_bytes "hello") (ascii_bytes "abc")) = Ok out
    /\ verify_zip out = Ok (true, "Valid: 2 files, CD at 0x0000004e"%string).
Proof.
  apply (repair_then_verify
           (two_entries (ascii_bytes "hello") (ascii_bytes "abc"))
           [mk_entry 0 [97; 46; 116; 120; 116] 20 0 0 0 0 0 5 5 5 0;
            mk_entry 40 [98; 46; 116; 120; 116] 20 0 0 0 0 0 3 3 5 0] 78);
    solve [vm_compute; reflexivity | discriminate].
Defined.

(** * Repairing twice *)

(** C6, counterexample: the header declares a 2-byte payload and the
    buffer ends after 1 byte, so the scan ends at offset 32, beyond the 31
    bytes of the buffer. The verifier rejects the first repair (offset 32
    falls inside the central-directory record written at 31) and accepts
    the repair of that repair. *)
Lemma repair_twice_differs :
  (r1 <- repair cut_payload ;; verify_zip r1)
  = Ok (false, "Invalid CD signature at 0x00000020"%string)
  /\ (r1 <- repair cut_payload ;; r2 <- repair r1 ;; verify_zip r2)
     = Ok (true, "Valid: 1 files, CD at 0x00000045"%string)
  /\ valid (r1 <- repair cut_payload ;; r2 <- repair r1 ;; verify_zip r2)
     <> valid (r1 <- repair cut_payload ;; verify_zip r1).
Proof.
  split; [vm_compute; reflexivity|]. split; [vm_compute; reflexivity|].
  vm_compute. discriminate.
Qed.

(** With no entry found, the scan of a repaired buffer ends 8 bytes
    earlier: the 22 bytes of the EOCD record bring the loop bound from
    [e + 30] down to [e + 22]. *)
Lemma scan_run_shortened (D T : bytes) (o : Z) (acc : list local_entry)
    (r : list local_entry * Z) :
  scan_run D o acc r -> fst r = acc -> 0 <= o -> o <= snd r - 8 ->
  snd r <= len D -> len T = 22 ->
  scan_run (firstn (Z.to_nat (snd r)) D ++ T) o acc (acc, snd r - 8).
Proof.
  induction 1 as [o acc Hge|o acc Hlt Hs|o acc r Hlt Hs Hrun IH
                 |o acc r Hlt Hs1 Hs2 Hrun IH]; intros Hf Ho Ho8 He HT.
  - cbn [snd] in Ho8. lia.
  - cbn [snd] in Ho8. lia.
  - exfalso. apply scan_run_grows in Hrun as [_ [es' Hes]].
    rewrite Hf, <- app_assoc in Hes. apply (f_equal (@length _)) in Hes.
    rewrite length_app in Hes. cbn [app length] in Hes. lia.
  - destruct (Z.eq_dec o (snd r - 8)) as [->|Hne].
    + apply scan_exit. rewrite len_D' by lia. lia.
    + apply scan_skip.
      * rewrite len_D' by lia. lia.
      * rewrite u32_at_prefix by lia. exact Hs1.
      * rewrite u32_at_prefix by lia. exact Hs2.
      * apply IH; auto; lia.
Qed.

Lemma scan_lone_eocd (D T : bytes) (e : Z) :
  scan D = Ok ([], e) -> e <= len D -> len T = 22 ->
  scan (firstn (Z.to_nat e) D ++ T) = Ok ([], Z.max 0 (e - 8)).
Proof.
  intros E He HT. pose proof (scan_end_nonneg _ _ _ E) as He0.
  apply scan_run_scan. destruct (Z_le_gt_dec 8 e) as [H8|H8].
  - rewrite Z.max_r by lia.
    apply (scan_run_shortened D T 0 [] ([], e)); auto; try (cbn [snd]; lia).
    now apply scan_scan_run.
  - rewrite Z.max_l by lia. apply scan_exit. rewrite len_D' by lia. lia.
Qed.

Lemma repair_no_entry (D : bytes) (e : Z) :
  scan D = Ok ([], e) -> e < 4294967296 ->
  repair D = Ok (firstn (Z.to_nat e) D ++ eocd_layout 0 0 e).
Proof.
  intros E He. pose proof (scan_end_nonneg _ _ _ E) as He0.
  rewrite (repair_after_scan _ _ _ E). cbn [build_cd bind length].
  rewrite build_eocd_spec. change (len []) with 0.
  change (Z.of_nat 0) with 0.
  assert (in_range I e = true) as -> by (apply in_range_I; lia).
  reflexivity.
Qed.

(** A buffer that ends with the EOCD record of an empty archive is
    rejected: the record points at itself. *)
Lemma verify_lone_eocd (X : bytes) :
  len X < EOCD_SIG ->
  verify_zip (X ++ eocd_layout 0 0 (len X))
  = Ok (false, ("Invalid CD signature at 0x" ++ hex08 (len X))%string).
Proof.
  intros He. pose proof (len_nonneg X) as H0.
  unfold EOCD_SIG in He.
  rewrite verify_zip_tail;
    [|lia|lia|apply eocd_unambiguous_empty; unfold EOCD_SIG; lia].
  rewrite len_app, eocd_layout_length.
  destruct (len X >=? len X + 22) eqn:G; [apply Z.geb_le in G; lia|].
  assert (Hs : slice (X ++ eocd_layout 0 0 (len X)) (len X) (len X + 4)
               = EOCD_MAGIC).
  { unfold slice.
    replace (Z.to_nat (len X)) with (length X + 0)%nat by (unfold len; lia).
    rewrite skipn_app_tail.
    replace (Z.to_nat (len X + 4 - len X)) with 4%nat by lia. reflexivity. }
  rewrite Hs. reflexivity.
Qed.

Lemma verify_lone_eocd_at (X : bytes) (e : Z) :
  len X = e -> e < EOCD_SIG ->
  verify_zip (X ++ eocd_layout 0 0 e)
  = Ok (false, ("Invalid CD signature at 0x" ++ hex08 e)%string).
Proof. intros <-. apply verify_lone_eocd. Qed.

(** C6, as amended: when the scan ends inside the buffer (no header
    declares a name, extra field or payload that runs past the end), and
    the buffer is shorter than 0x06054B50 bytes in case no entry is found,
    repairing a repaired buffer does not change the verifier's verdict;
    when an entry is found the second repair returns the first one's
    output (or raises as the first one did), so that the two
    verifications are equal, message included. *)
Theorem repair_twice_validity (D : bytes) (es : list local_entry) (e : Z) :
  scan D = Ok (es, e) -> e <= len D -> (es = [] -> e < EOCD_SIG) ->
  valid (r1 <- repair D ;; r2 <- repair r1 ;; verify_zip r2)
  = valid (r1 <- repair D ;; verify_zip r1)
  /\ (es <> [] ->
      (r1 <- repair D ;; r2 <- repair r1 ;; verify_zip r2)
      = (r1 <- repair D ;; verify_zip r1))
  /\ (es <> [] -> (r1 <- repair D ;; repair r1) = repair D).
Proof.
  intros E He Hz. destruct es as [|x es].
  - split; [|split; congruence]. specialize (Hz eq_refl). pose proof (scan_end_nonneg _ _ _ E) as He0.
    unfold EOCD_SIG in Hz.
    rewrite (repair_no_entry _ _ E) by lia. cbn [bind].
    set (out := firstn (Z.to_nat e) D ++ eocd_layout 0 0 e).
    assert (L1 : len (firstn (Z.to_nat e) D) = e) by (apply len_prefix; lia).
    assert (E2 : scan out = Ok ([], Z.max 0 (e - 8)))
      by (apply scan_lone_eocd; auto using eocd_layout_length).
    rewrite (repair_no_entry _ _ E2) by lia. cbn [bind].
    assert (L2 : len (firstn (Z.to_nat (Z.max 0 (e - 8))) out)
                 = Z.max 0 (e - 8)).
    { apply len_prefix. unfold out. rewrite len_app, L1, eocd_layout_length.
      lia. }
    rewrite (verify_lone_eocd_at _ _ L2) by (unfold EOCD_SIG; lia).
    unfold out.
    rewrite (verify_lone_eocd_at _ _ L1) by (unfold EOCD_SIG; lia).
    reflexivity.
  - destruct (repair D) as [out|ex] eqn:R; [|repeat split; reflexivity].
    cbn [bind].
    rewrite (repair_repaired D (x :: es) e out E ltac:(discriminate) He R).
    repeat split; reflexivity.
Qed.

Lemma repair_twice_validity_witness :
  valid (r1 <- repair (two_entries (ascii_bytes "hello") (ascii_bytes "abc")) ;;
         r2 <- repair r1 ;; verify_zip r2)
  = valid (r1 <- repair (two_entries (ascii_bytes "hello") (ascii_bytes "abc")) ;;
           verify_zip r1).
Proof.
  refine (proj1 (repair_twice_validity
           (two_entries (ascii_bytes "hello") (ascii_bytes "abc"))
           [mk_entry 0 [97; 46; 116; 120; 116] 20 0 0 0 0 0 5 5 5 0;
            mk_entry 40 [98; 46; 116; 120; 116] 20 0 0 0 0 0 3 3 5 0] 78
           _ _ _));
    solve [vm_compute; reflexivity | vm_compute; discriminate | discriminate].
Defined.

(** * Further properties of the scanner *)

Lemma scan_run_ordered (D : bytes) (o : Z) (acc : list local_entry)
    (r : list local_entry * Z) :
  scan_run D o acc r ->
  StronglySorted
    (fun x y => next_offset x <= local_header_offset y) acc ->
  Forall (fun x => next_offset x <= o) acc ->
  StronglySorted
    (fun x y => next_offset x <= local_header_offset y) (fst r).
Proof.
  induction 1 as [o acc Hge|o acc Hlt Hs|o acc r Hlt Hs Hrun IH
                 |o acc r Hlt Hs1 Hs2 Hrun IH]; intros Hsort Hb.
  - exact Hsort.
  - exact Hsort.
  - pose proof (next_offset_ge D o) as Hn. apply IH.
    + clear IH Hrun. induction acc as [|a acc IHa]; cbn [app].
      * constructor; constructor.
      * inversion Hsort as [|? ? Hs' Hf]; subst.
        inversion Hb as [|? ? Ha Hb']; subst.
        constructor; [now apply IHa|].
        apply Forall_app. split; [exact Hf|].
        constructor; [|constructor]. cbn [local_header_offset entry_at]. exact Ha.
    + apply Forall_app. split.
      * eapply Forall_impl; [|exact Hb]. intros a Ha. cbn beta in Ha. lia.
      * constructor; [lia|constructor].
  - apply IH; [exact Hsort|].
    eapply Forall_impl; [|exact Hb]. intros a Ha. cbn beta in Ha. lia.
Qed.

(** X1: the entries of a scan come in the order of the buffer and never
    overlap: each one starts at or after the offset where the one before
    it says it ends, hence at least 30 bytes after the start of the one
    before, and all of them end at or before [local_data_end]. *)
Theorem scan_entries_ordered (D : bytes) (es : list local_entry) (e : Z) :
  scan D = Ok (es, e) ->
  StronglySorted
    (fun x y => next_offset x <= local_header_offset y) es
  /\ StronglySorted
       (fun x y => local_header_offset x + 30 <= local_header_offset y) es
  /\ Forall (fun x => 0 <= local_header_offset x /\ next_offset x <= e) es.
Proof.
  intros E. pose proof (scan_entries _ _ _ E) as F.
  apply scan_scan_run in E.
  pose proof (scan_run_ordered _ _ _ _ E ltac:(constructor) ltac:(constructor))
    as S1. cbn [fst] in S1.
  split; [exact S1|]. split.
  - clear E. induction S1 as [|x l S1 IH Hx]; [constructor|].
    inversion F as [|? ? Fx Fl]; subst.
    constructor; [now apply IH|].
    eapply Forall_impl; [|exact Hx]. intros y Hy. cbn beta in Hy.
    destruct Fx as (_ & _ & _ & Ex & _).
    pose proof (next_offset_ge D (local_header_offset x)) as G.
    rewrite <- Ex in G. lia.
  - eapply Forall_impl; [|exact F]. intros x (H0 & _ & _ & _ & Hn). auto.
Qed.

Lemma scan_entries_ordered_witness :
  StronglySorted
    (fun x y => next_offset x <= local_header_offset y)
    [mk_entry 0 [97; 46; 116; 120; 116] 20 0 0 0 0 0 5 5 5 0;
     mk_entry 40 [98; 46; 116; 120; 116] 20 0 0 0 0 0 3 3 5 0].
Proof.
  refine (proj1 (scan_entries_ordered
                   (two_entries (ascii_bytes "hello") (ascii_bytes "abc"))
                   _ 78 _)).
  vm_compute. reflexivity.
Defined.

Lemma file_image_length (f : zip_file) :
  len (file_image f)
  = 30 + len (zf_name f) + len (zf_extra f) + len (zf_payload f).
Proof.
  unfold file_image, local_file, len.
  rewrite !length_app, !le_encode_length. lia.
Qed.

Lemma le_decode_encode_H (v : Z) :
  in_range H v = true -> le_decode (le_encode 2 v) = v.
Proof.
  intros R. apply in_range_H in R. apply le_decode_encode.
  change (256 ^ Z.of_nat 2) with 65536. lia.
Qed.

Lemma le_decode_encode_I (v : Z) :
  in_range I v = true -> le_decode (le_encode 4 v) = v.
Proof.
  intros R. apply in_range_I in R. apply le_decode_encode.
  change (256 ^ Z.of_nat 4) with 4294967296. lia.
Qed.

Lemma u32_at_tail0 (X Y : bytes) :
  u32_at (X ++ Y) (len X) = le_decode (firstn 4 Y).
Proof.
  pose proof (u32_at_tail X Y 0) as K. cbn [Z.of_nat skipn] in K.
  now rewrite Z.add_0_r in K.
Qed.

Lemma file_image_sig (A B : bytes) (f : zip_file) :
  u32_at (A ++ file_image f ++ B) (len A) = LOCAL_SIG.
Proof. rewrite u32_at_tail0. reflexivity. Qed.

Lemma file_image_entry (A B : bytes) (f : zip_file) :
  file_ok f = true ->
  entry_at (A ++ file_image f ++ B) (len A) = entry_of (len A) f.
Proof.
  intros Hok. unfold file_ok in Hok.
  do 9 (apply andb_true_iff in Hok as [Hok ?]).
  unfold entry_at, entry_of.
  rewrite (u16_at_tail A _ 4), (u16_at_tail A _ 6), (u16_at_tail A _ 8),
    (u16_at_tail A _ 10), (u16_at_tail A _ 12), (u32_at_tail A _ 14),
    (u32_at_tail A _ 18), (u32_at_tail A _ 22), (u16_at_tail A _ 26),
    (u16_at_tail A _ 28).
  unfold file_image, local_file. cbn [le_encode app skipn firstn].
  repeat match goal with
  | |- context [le_decode [byte_of_Z (?v mod 256);
                           byte_of_Z ((?v / 256) mod 256)]] =>
      change (le_decode [byte_of_Z (v mod 256); byte_of_Z ((v / 256) mod 256)])
        with (le_decode (le_encode 2 v));
      rewrite (le_decode_encode_H v) by assumption
  | |- context [le_decode [byte_of_Z (?v mod 256);
                           byte_of_Z ((?v / 256) mod 256);
                           byte_of_Z (((?v / 256) / 256) mod 256);
                           byte_of_Z ((((?v / 256) / 256) / 256) mod 256)]] =>
      change (le_decode [byte_of_Z (v mod 256);
                         byte_of_Z ((v / 256) mod 256);
                         byte_of_Z (((v / 256) / 256) mod 256);
                         byte_of_Z ((((v / 256) / 256) / 256) mod 256)])
        with (le_decode (le_encode 4 v));
      rewrite (le_decode_encode_I v) by assumption
  end.
  f_equal. f_equal. unfold slice.
  replace (Z.to_nat (len A + 30)) with (length A + 30)%nat by (unfold len; lia).
  rewrite skipn_app_tail.
  replace (Z.to_nat (len A + 30 + len (zf_name f) - (len A + 30)))
    with (length (zf_name f)) by (unfold len; lia).
  cbn [skipn]. rewrite <- !app_assoc.
  rewrite firstn_app, Nat.sub_diag, firstn_all. cbn [firstn].
  now rewrite app_nil_r.
Qed.

Lemma scan_run_files (fs : list zip_file) :
  forall (A T : bytes) (acc : list local_entry),
  forallb file_ok fs = true ->
  scan_run (A ++ concat (map file_image fs) ++ CD_MAGIC ++ T) (len A) acc
    (acc ++ entries_of (len A) fs, len A + len (concat (map file_image fs))).
Proof.
  induction fs as [|f fs IH]; intros A T acc Hok.
  - cbn [map concat entries_of app]. rewrite app_nil_r.
    change (len []) with 0. rewrite Z.add_0_r.
    destruct (Z_lt_le_dec (len A) (len (A ++ CD_MAGIC ++ T) - 30)).
    + apply scan_break; [assumption|].
      rewrite u32_at_tail0. reflexivity.
    + now apply scan_exit.
  - cbn [forallb] in Hok. apply andb_true_iff in Hok as [Hf Hfs].
    cbn [map concat entries_of]. rewrite <- app_assoc.
    pose proof (file_image_length f) as L.
    pose proof (len_nonneg (zf_name f)). pose proof (len_nonneg (zf_extra f)).
    pose proof (len_nonneg (zf_payload f)).
    apply scan_local.
    + rewrite !len_app. change (len CD_MAGIC) with 4.
      pose proof (len_nonneg (concat (map file_image fs))).
      pose proof (len_nonneg T). lia.
    + apply file_image_sig.
    + rewrite file_image_entry by assumption.
      assert (N : next_offset (entry_of (len A) f) = len (A ++ file_image f)).
      { unfold next_offset. cbn [entry_of local_header_offset fn_len extra_len
          comp_sz]. rewrite len_app, L. lia. }
      rewrite N.
      replace (len A + len (file_image f ++ concat (map file_image fs)))
        with (len (A ++ file_image f) + len (concat (map file_image fs)))
        by (rewrite !len_app; lia).
      replace (acc ++ entry_of (len A) f
                 :: entries_of (len A + len (file_image f)) fs)
        with ((acc ++ [entry_of (len A) f])
              ++ entries_of (len (A ++ file_image f)) fs)
        by (rewrite <- app_assoc, len_app; reflexivity).
      replace (A ++ file_image f ++ concat (map file_image fs) ++ CD_MAGIC ++ T)
        with ((A ++ file_image f) ++ concat (map file_image fs)
              ++ CD_MAGIC ++ T) by (now rewrite <- app_assoc).
      now apply IH.
Qed.

(** X2: scanning reads back what the archive holds. For files laid out one
    after the other (header, name, extra field, payload) with values that
    fit their fields, and followed by a central directory, the scanner
    returns one entry per file, in order, with every header field as it
    was written, the offset of the header, and the name decoded; it stops
    at the first byte of the central directory. *)
Theorem scan_reads_back_files (fs : list zip_file) (T : bytes) :
  forallb file_ok fs = true ->
  scan (concat (map file_image fs) ++ CD_MAGIC ++ T)
  = Ok (entries_of 0 fs, len (concat (map file_image fs))).
Proof.
  intros Hok. apply scan_run_scan.
  exact (scan_run_files fs [] T [] Hok).
Qed.

Lemma scan_reads_back_files_witness :
  scan (concat (map file_image
                  [mk_file 20 0 8 1 2 3 9 (ascii_bytes "a.txt") [x01; x02]
                     (ascii_bytes "hello");
                   mk_file 20 0 0 0 0 0 0 [] [] []])
          ++ CD_MAGIC ++ [])
  = Ok ([mk_entry 0 [97; 46; 116; 120; 116] 20 0 8 1 2 3 5 9 5 2;
         mk_entry 42 [] 20 0 0 0 0 0 0 0 0 0], 72).
Proof.
  apply (scan_reads_back_files
           [mk_file 20 0 8 1 2 3 9 (ascii_bytes "a.txt") [x01; x02]
              (ascii_bytes "hello");
            mk_file 20 0 0 0 0 0 0 [] [] []] []).
  vm_compute. reflexivity.
Defined.

(** * Further properties of the repair *)

Lemma u32_at_kept (D T : bytes) (e o : Z) :
  0 <= o -> o + 4 <= e -> o + 4 <= len D ->
  u32_at (firstn (Z.to_nat e) D ++ T) o = u32_at D o.
Proof.
  intros Ho He Hl. destruct (Z_le_gt_dec e (len D)).
  - apply u32_at_prefix; lia.
  - rewrite firstn_all2 by (unfold len in *; lia).
    unfold u32_at. f_equal.
    rewrite <- (firstn_all D) at 1.
    apply read_prefix; unfold len in *; lia.
Qed.

(** X3: in the file the repair writes, the offset that each
    central-directory record carries is the offset of a local file header:
    the four bytes there are PK\x03\x04, and the 30 bytes of the header lie
    inside the file, before the central directory. *)
Theorem repair_back_references (D out : bytes) (es : list local_entry) (e : Z) :
  scan D = Ok (es, e) -> repair D = Ok out ->
  Forall (fun x =>
    0 <= local_header_offset x
    /\ local_header_offset x + 30 <= Z.min e (len D)
    /\ Z.min e (len D) <= len out
    /\ u32_at out (local_header_offset x) = LOCAL_SIG) es.
Proof.
  intros E R. pose proof (scan_entries _ _ _ E) as F.
  rewrite (repair_after_scan _ _ _ E) in R.
  destruct (build_cd es []) as [cd|] eqn:B; [|discriminate]. cbn [bind] in R.
  destruct (build_eocd _ _ _) as [eocd|]; [|discriminate]. cbn [bind] in R.
  injection R as <-.
  eapply Forall_impl; [|exact F]. intros x (H0 & Hl & Hs & Hx & Hn).
  pose proof (next_offset_ge D (local_header_offset x)) as G.
  rewrite <- Hx in G.
  split; [exact H0|]. split; [lia|]. split.
  - rewrite len_app. unfold len at 2. rewrite length_firstn.
    pose proof (len_nonneg (cd ++ eocd)). unfold len in *. lia.
  - rewrite u32_at_kept by lia. exact Hs.
Qed.

Lemma repair_back_references_witness :
  Forall (fun x =>
    0 <= local_header_offset x
    /\ local_header_offset x + 30 <= Z.min 32 (len cut_payload)
    /\ Z.min 32 (len cut_payload)
       <= len (cut_payload
               ++ cd_layout (mk_entry 0 [] 20 0 0 0 0 0 2 2 0 0)
               ++ eocd_layout 1 46 32)
    /\ u32_at (cut_payload
               ++ cd_layout (mk_entry 0 [] 20 0 0 0 0 0 2 2 0 0)
               ++ eocd_layout 1 46 32) (local_header_offset x) = LOCAL_SIG)
    [mk_entry 0 [] 20 0 0 0 0 0 2 2 0 0].
Proof.
  apply (repair_back_references cut_payload _ _ 32); vm_compute; reflexivity.
Defined.

(** X4: the repair returns exactly when every scanned name is ASCII, the
    number of entries fits 16 bits, and the size of the central directory
    and the offset where the scan ended fit 32 bits; otherwise it raises
    and writes nothing. *)
Theorem repair_returns_iff (D : bytes) (es : list local_entry) (e : Z) :
  scan D = Ok (es, e) ->
  (exists out, repair D = Ok out) <->
  forallb ascii_name es = true
  /\ Z.of_nat (length es) < 65536
  /\ len (concat (map cd_layout es)) < 4294967296
  /\ e < 4294967296.
Proof.
  intros E. pose proof (scan_end_nonneg _ _ _ E) as He.
  rewrite (repair_after_scan _ _ _ E). split.
  - intros [out R].
    destruct (build_cd es []) as [cd|] eqn:B; [|discriminate].
    cbn [bind] in R. rewrite build_eocd_spec in R.
    destruct (in_range H _ && _ && _) eqn:Rg; [|discriminate].
    apply andb_true_iff in Rg as [Rg R3]. apply andb_true_iff in Rg as [R1 R2].
    apply in_range_H in R1. apply in_range_I in R2, R3.
    apply build_cd_spec in B as [F ->]. repeat split; try lia.
    apply forallb_forall. intros x Hin. rewrite forallb_forall in F.
    specialize (F x Hin). now apply andb_true_iff in F as [F _].
  - intros (Ha & Hn & Hs & He').
    assert (B : build_cd es [] = Ok (concat (map cd_layout es))).
    { apply build_cd_spec. split; [|reflexivity].
      pose proof (scanned_packable _ _ _ E He') as Hp.
      rewrite forallb_forall in Ha, Hp |- *. intros x Hin.
      now rewrite Ha, Hp. }
    rewrite B. cbn [bind]. rewrite build_eocd_spec.
    pose proof (len_nonneg (concat (map cd_layout es))).
    assert (in_range H (Z.of_nat (length es)) = true) as ->
      by (apply in_range_H; lia).
    assert (in_range I (len (concat (map cd_layout es))) = true) as ->
      by (apply in_range_I; lia).
    assert (in_range I e = true) as -> by (apply in_range_I; lia).
    cbn [andb bind]. eauto.
Qed.

Lemma repair_returns_iff_witness :
  exists out, repair cut_name = Ok out.
Proof.
  apply (repair_returns_iff cut_name
           [mk_entry 0 [97] 20 0 0 0 0 0 0 0 5 0] 35);
    [vm_compute; reflexivity|].
  repeat split; vm_compute; reflexivity.
Defined.

Lemma scan_run_no_entry (D : bytes) (o : Z) (acc : list local_entry)
    (r : list local_entry * Z) :
  scan_run D o acc r -> fst r = acc -> snd r <= Z.max o (len D - 30).
Proof.
  induction 1 as [o acc Hge|o acc Hlt Hs|o acc r Hlt Hs Hrun IH
                 |o acc r Hlt Hs1 Hs2 Hrun IH]; intros Hf.
  - cbn [snd]. lia.
  - cbn [snd]. lia.
  - exfalso. apply scan_run_grows in Hrun as [_ [es' Hes]].
    rewrite Hf, <- app_assoc in Hes. apply (f_equal (@length _)) in Hes.
    rewrite length_app in Hes. cbn [app length] in Hes. lia.
  - specialize (IH Hf). lia.
Qed.

(** X5: when the scanner finds no local file header in a buffer (shorter
    than 0x06054B50 bytes), the repair returns the bytes before the point
    where the scan ended followed by an EOCD record for zero entries, and
    the verifier rejects that file with "Invalid CD signature": an archive
    without entries never verifies. *)
Theorem repair_without_entries_rejected (D : bytes) (e : Z) :
  scan D = Ok ([], e) -> len D < EOCD_SIG ->
  repair D = Ok (firstn (Z.to_nat e) D ++ eocd_layout 0 0 e)
  /\ verify_zip (firstn (Z.to_nat e) D ++ eocd_layout 0 0 e)
     = Ok (false, ("Invalid CD signature at 0x" ++ hex08 e)%string).
Proof.
  intros E Hl. pose proof (scan_end_nonneg _ _ _ E) as He.
  pose proof (scan_run_no_entry _ _ _ _ (scan_scan_run _ _ E) eq_refl) as Hb.
  cbn [snd] in Hb. unfold EOCD_SIG in Hl.
  pose proof (len_nonneg D).
  split; [apply repair_no_entry; [exact E|lia]|].
  apply verify_lone_eocd_at; [apply len_prefix; lia|unfold EOCD_SIG; lia].
Qed.

Lemma repair_without_entries_rejected_witness :
  verify_zip (firstn (Z.to_nat 0) bare_header ++ eocd_layout 0 0 0)
  = Ok (false, ("Invalid CD signature at 0x" ++ hex08 0)%string).
Proof.
  refine (proj2 (repair_without_entries_rejected bare_header 0 _ _));
    vm_compute; reflexivity.
Defined.

(** * Further properties of the verification *)

(** X6: for a buffer of less than 16 MiB in which the scanner finds at
    least one entry and fewer than 19280, all with ASCII names, and ends
    inside the buffer, and for which the central directory to be written
    is itself under 16 MiB, the repair returns and the verifier accepts
    its output, also when the scanner had to step over bytes that belong
    to no local file: the verifier's byte-by-byte fallback walks the same
    offsets. *)
Theorem verify_accepts_repair (D : bytes) (es : list local_entry) (e : Z) :
  scan D = Ok (es, e) -> es <> [] -> e <= len D ->
  forallb ascii_name es = true ->
  Z.of_nat (length es) < 19280 ->
  len D < 16777216 ->
  len (concat (map cd_layout es)) < 16777216 ->
  exists out,
    repair D = Ok out
    /\ verify_zip out
       = Ok (true, ("Valid: " ++ dec (Z.of_nat (length es))
                      ++ " files, CD at 0x" ++ hex08 e)%string).
Proof.
  intros E Hne Hle Ha Hn Hl Hs.
  pose proof (scan_end_nonneg _ _ _ E) as He.
  pose proof (len_nonneg (concat (map cd_layout es))) as Hc.
  assert (B : build_cd es [] = Ok (concat (map cd_layout es))).
  { apply build_cd_spec. split; [|reflexivity].
    pose proof (scanned_packable _ _ _ E ltac:(lia)) as Hp.
    rewrite forallb_forall in Ha, Hp |- *. intros x Hin.
    now rewrite Ha, Hp. }
  destruct (verify_repaired D es e _ E Hne Hle B) as [R V]; try lia.
  - apply eocd_unambiguous_small; lia.
  - eexists. split; [exact R|exact V].
Qed.

Lemma verify_accepts_repair_witness :
  exists out,
    repair ([x00] ++ two_entries (ascii_bytes "hello") (ascii_bytes "abc"))
    = Ok out
    /\ verify_zip out = Ok (true, "Valid: 2 files, CD at 0x0000004f"%string).
Proof.
  apply (verify_accepts_repair
           ([x00] ++ two_entries (ascii_bytes "hello") (ascii_bytes "abc"))
           [mk_entry 1 [97; 46; 116; 120; 116] 20 0 0 0 0 0 5 5 5 0;
            mk_entry 41 [98; 46; 116; 120; 116] 20 0 0 0 0 0 3 3 5 0] 79);
    solve [vm_compute; reflexivity | vm_compute; discriminate | discriminate].
Defined.

Lemma starts_with_short (pat d : bytes) :
  (length d < length pat)%nat -> starts_with pat d = false.
Proof.
  revert d. induction pat as [|p pat IH]; intros d Hl; [simpl in Hl; lia|].
  destruct d as [|x d]; [reflexivity|]. cbn [starts_with length] in *.
  rewrite IH by lia. apply andb_false_r.
Qed.

Lemma rfind_below_spec (pat d : bytes) (n : nat) :
  (rfind_below pat d n = -1 /\
   forall k, (k < n)%nat -> starts_with pat (skipn k d) = false)
  \/ (0 <= rfind_below pat d n < Z.of_nat n /\
      starts_with pat (skipn (Z.to_nat (rfind_below pat d n)) d) = true).
Proof.
  induction n as [|n IH]; [left; split; [reflexivity|lia]|].
  cbn [rfind_below]. destruct (starts_with pat (skipn n d)) eqn:S.
  - right. rewrite Nat2Z.id. split; [lia|exact S].
  - destruct IH as [[E K]|[R K]].
    + left. split; [exact E|]. intros k Hk.
      destruct (Nat.eq_dec k n) as [->|]; [exact S|apply K; lia].
    + right. split; [lia|exact K].
Qed.

(** X7: the verifier answers "No EOCD record found" exactly when the four
    bytes PK\x05\x06 occur nowhere in the buffer; in that case it reads
    nothing else and cannot raise. *)
Theorem verify_no_eocd_iff (D : bytes) :
  verify_zip D = Ok (false, "No EOCD record found"%string)
  <-> forall k, starts_with EOCD_MAGIC (skipn k D) = false.
Proof.
  pose proof (rfind_below_spec EOCD_MAGIC D (S (length D) - length EOCD_MAGIC))
    as Sp. fold (rfind D EOCD_MAGIC) in Sp.
  split.
  - intros V. destruct Sp as [[E K]|[R K]].
    + intros k. destruct (Nat.lt_ge_cases k (S (length D) - length EOCD_MAGIC)).
      * now apply K.
      * apply starts_with_short. rewrite length_skipn.
        change (length EOCD_MAGIC) with 4%nat in *. lia.
    + exfalso. unfold verify_zip in V.
      destruct (rfind D EOCD_MAGIC <? 0) eqn:L; [apply Z.ltb_lt in L; lia|].
      destruct (unpack_from [I] D _); [|discriminate]. cbn [bind] in V.
      destruct (_ >=? _); [discriminate|].
      destruct (negb _); [discriminate|].
      destruct (unpack_from [H] D _); [|discriminate]. cbn [bind] in V.
      destruct (count_local_headers _ _); [|discriminate]. cbn [bind] in V.
      destruct (negb _); discriminate.
  - intros K. apply verify_no_eocd. destruct Sp as [[E _]|[R S]]; [lia|].
    rewrite K in S. discriminate.
Qed.

(** X8: take a buffer in which the scan finds at least one entry and ends
    inside the buffer ([local_data_end <= len(data)]), on which the repair
    returns, and whose EOCD record holds b"PK\x05\x06" at its start only.
    When a byte is inserted into the repaired file at any index up to
    [local_data_end] (in the kept local-entries region, or right before
    the central directory), the central-directory offset that the EOCD
    record declares points one byte short of the central directory, and
    the verifier answers "Invalid CD signature" at that offset. *)
Theorem verify_detects_inserted_byte (D out : bytes) (es : list local_entry)
    (e : Z) (k : nat) (b : byte) :
  scan D = Ok (es, e) -> es <> [] -> e <= len D ->
  repair D = Ok out ->
  eocd_unambiguous
    (eocd_layout (Z.of_nat (length es)) (len (concat (map cd_layout es))) e)
  = true ->
  Z.of_nat k <= e ->
  verify_zip (splice k b out)
  = Ok (false, ("Invalid CD signature at 0x" ++ hex08 e)%string).
Proof.
  intros E Hne Hle R Hu Hk.
  pose proof (scan_end_nonneg _ _ _ E) as He.
  rewrite (repair_after_scan _ _ _ E) in R.
  destruct (build_cd es []) as [cd|] eqn:B; [|discriminate]. cbn [bind] in R.
  rewrite build_eocd_spec in R.
  destruct (in_range H _ && _ && _) eqn:Rg; [|discriminate].
  apply andb_true_iff in Rg as [Rg R3]. apply andb_true_iff in Rg as [R1 R2].
  apply in_range_H in R1. apply in_range_I in R2, R3.
  injection R as <-.
  destruct (build_cd_magic _ _ B Hne) as [t [Et Ht]].
  apply build_cd_spec in B as [_ Ecd]. rewrite <- Ecd in Hu.
  set (P := firstn (Z.to_nat e) D).
  assert (LP : length P = Z.to_nat e)
    by (unfold P; rewrite length_firstn; unfold len in Hle; lia).
  set (eocd := eocd_layout (Z.of_nat (length es)) (len cd) e) in *.
  set (P' := firstn k P ++ b :: skipn k P).
  assert (LP' : length P' = S (Z.to_nat e)).
  { unfold P'. rewrite length_app, length_firstn. cbn [length].
    rewrite length_skipn. lia. }
  assert (Sp : splice k b (P ++ cd ++ eocd) = (P' ++ cd) ++ eocd).
  { unfold splice, P'. rewrite firstn_app, skipn_app.
    replace (k - length P)%nat with O by lia. cbn [firstn skipn].
    rewrite app_nil_r, <- !app_assoc. reflexivity. }
  rewrite Sp. unfold eocd in *.
  rewrite verify_zip_tail by (try exact Hu; lia). cbv zeta.
  rewrite !len_app, eocd_layout_length.
  assert (LZ : len P' = e + 1) by (unfold len; lia).
  destruct (e >=? len P' + len cd + 22) eqn:G;
    [apply Z.geb_le in G; pose proof (len_nonneg cd); lia|].
  assert (Hs : bytes_eqb
                 (slice ((P' ++ cd)
                         ++ eocd_layout (Z.of_nat (length es)) (len cd) e)
                    e (e + 4)) CD_MAGIC = false).
  { unfold slice. rewrite <- !app_assoc, skipn_app.
    replace (Z.to_nat e - length P')%nat with O by lia. cbn [skipn].
    assert (L1 : length (skipn (Z.to_nat e) P') = 1%nat)
      by (rewrite length_skipn; lia).
    destruct (skipn (Z.to_nat e) P') as [|c [|? ?]]; try discriminate.
    rewrite Et. replace (Z.to_nat (e + 4 - e)) with 4%nat by lia.
    cbn [app firstn CD_MAGIC bytes_eqb].
    destruct (Byte.eqb c x50); reflexivity. }
  rewrite Hs. reflexivity.
Qed.

Lemma verify_detects_inserted_byte_witness :
  verify_zip
    (splice 7 xff
       (two_entries (ascii_bytes "hello") (ascii_bytes "abc")
        ++ concat (map cd_layout
             [mk_entry 0 [97; 46; 116; 120; 116] 20 0 0 0 0 0 5 5 5 0;
              mk_entry 40 [98; 46; 116; 120; 116] 20 0 0 0 0 0 3 3 5 0])
        ++ eocd_layout 2 102 78))
  = Ok (false, "Invalid CD signature at 0x0000004e"%string).
Proof.
  apply (verify_detects_inserted_byte
           (two_entries (ascii_bytes "hello") (ascii_bytes "abc")) _
           [mk_entry 0 [97; 46; 116; 120; 116] 20 0 0 0 0 0 5 5 5 0;
            mk_entry 40 [98; 46; 116; 120; 116] 20 0 0 0 0 0 3 3 5 0] 78 7 xff);
    solve [vm_compute; reflexivity | vm_compute; discriminate | discriminate].
Defined.

(** * Strings *)

Lemma str_eqb_eq (a b : pystr) : str_eqb a b = true <-> a = b.
Proof.
  revert b. induction a as [|x a IH]; intros [|y b]; simpl;
    try (split; [discriminate|discriminate]); [tauto|].
  rewrite andb_true_iff, IH, Z.eqb_eq. split.
  - intros [-> ->]. reflexivity.
  - intros E. injection E as -> ->. auto.
Qed.

Lemma str_eqb_refl (a : pystr) : str_eqb a a = true.
Proof. now apply str_eqb_eq. Qed.

Lemma str_eqb_neq (a b : pystr) : str_eqb a b = false <-> a <> b.
Proof.
  split.
  - intros E H. apply str_eqb_eq in H. congruence.
  - intros H. destruct (str_eqb a b) eqn:E; [|reflexivity].
    apply str_eqb_eq in E. contradiction.
Qed.

Lemma str_in_In (x : pystr) (xs : list pystr) : str_in x xs = true <-> In x xs.
Proof.
  unfold str_in. rewrite existsb_exists. split.
  - intros [y [Hin E]]. apply str_eqb_eq in E. now subst.
  - intros Hin. exists x. split; [exact Hin|apply str_eqb_refl].
Qed.

Lemma startswith_spec (s p : pystr) :
  startswith s p = true <-> exists t, s = p ++ t.
Proof.
  revert s. induction p as [|x p IH]; intros s.
  - destruct s; simpl; split; eauto.
  - destruct s as [|y s]; cbn [startswith].
    + split; [discriminate|intros [t E]; discriminate].
    + rewrite andb_true_iff, Z.eqb_eq, IH. split.
      * intros [-> [t ->]]. now exists t.
      * intros [t E]. injection E as -> ->. split; eauto.
Qed.

Lemma endswith_spec (s suffix : pystr) :
  endswith s suffix = true <-> exists b, s = b ++ suffix.
Proof.
  unfold endswith. rewrite andb_true_iff, Nat.leb_le, str_eqb_eq. split.
  - intros [Hl E]. exists (firstn (length s - length suffix) s).
    pose proof (firstn_skipn (length s - length suffix) s) as K.
    rewrite E in K. now symmetry.
  - intros [b ->]. rewrite length_app. split; [lia|].
    replace (length b + length suffix - length suffix)%nat
      with (length b + 0)%nat by lia.
    rewrite skipn_app, skipn_all2 by lia.
    replace (length b + 0 - length b)%nat with O by lia. reflexivity.
Qed.

Lemma drop_last_app (b suffix : pystr) :
  drop_last (length suffix) (b ++ suffix) = b.
Proof.
  unfold drop_last. rewrite length_app.
  replace (length b + length suffix - length suffix)%nat
    with (length b + 0)%nat by lia.
  rewrite firstn_app_2. cbn [firstn]. apply app_nil_r.
Qed.

Lemma drop_last_suffix (b suffix : pystr) (k : nat) :
  length suffix = k -> drop_last k (b ++ suffix) = b.
Proof. intros <-. apply drop_last_app. Qed.

Lemma rstrip_prefix (s chars : pystr) : exists t, s = rstrip s chars ++ t.
Proof.
  induction s as [|x s [t IH]]; [now exists []|].
  cbn [rstrip]. destruct (rstrip s chars) as [|y r] eqn:E.
  - destruct (existsb _ chars).
    + now exists (x :: s).
    + exists s. reflexivity.
  - exists t. cbn [app]. now rewrite IH at 1.
Qed.

Lemma lstrip_head (s chars : pystr) (x : Z) (r : pystr) :
  lstrip s chars = x :: r -> existsb (Z.eqb x) chars = false.
Proof.
  induction s as [|y s IH]; [discriminate|].
  cbn [lstrip]. destruct (existsb (Z.eqb y) chars) eqn:E; [exact IH|].
  intros H. injection H as -> _. exact E.
Qed.

(** * Pattern matching *)

Lemma run_length_spec (p : Z -> bool) (cap : nat) (s : pystr) (n : nat) :
  (n <= run_length p cap s)%nat ->
  (n <= cap)%nat /\ length (firstn n s) = n /\ forallb p (firstn n s) = true.
Proof.
  revert cap s. induction n as [|n IH]; intros cap s Hn.
  - repeat split; lia.
  - destruct cap as [|cap]; [simpl in Hn; lia|].
    destruct s as [|x s]; [simpl in Hn; lia|].
    cbn [run_length] in Hn. destruct (p x) eqn:Px; [|lia].
    destruct (IH cap s ltac:(lia)) as (H1 & H2 & H3).
    cbn [firstn length forallb]. rewrite Px, H2, H3. repeat split; lia.
Qed.

Lemma run_length_app (p : Z -> bool) (cap : nat) (a t : pystr) :
  forallb p a = true -> (length a <= cap)%nat ->
  (length a <= run_length p cap (a ++ t))%nat.
Proof.
  revert cap. induction a as [|x a IH]; intros cap Ha Hc; [simpl; lia|].
  cbn [forallb] in Ha. apply andb_true_iff in Ha as [Px Ha].
  destruct cap as [|cap]; [simpl in Hc; lia|].
  cbn [app run_length length] in *. rewrite Px.
  specialize (IH cap Ha ltac:(lia)). lia.
Qed.

Lemma try_counts_sound (k : pystr -> option (list pystr)) (min : nat)
    (s : pystr) (n : nat) (gs : list pystr) :
  try_counts k min s n = Some gs ->
  exists n0 g, (min <= n0 <= n)%nat /\ gs = firstn n0 s :: g
               /\ k (skipn n0 s) = Some g.
Proof.
  induction n as [|n IH]; cbn [try_counts].
  - destruct (0 <? min)%nat eqn:L; [discriminate|]. apply Nat.ltb_ge in L.
    destruct (k (skipn 0 s)) as [g|] eqn:K; [|discriminate].
    intros E. injection E as <-. exists O, g. repeat split; auto; lia.
  - destruct (S n <? min)%nat eqn:L; [discriminate|]. apply Nat.ltb_ge in L.
    destruct (k (skipn (S n) s)) as [g|] eqn:K.
    + intros E. injection E as <-. exists (S n), g. repeat split; auto; lia.
    + intros E. destruct (IH E) as (n0 & g & Hn & Hg & Hk).
      exists n0, g. repeat split; auto; lia.
Qed.

Lemma try_counts_complete (k : pystr -> option (list pystr)) (min : nat)
    (s : pystr) (n n0 : nat) :
  (min <= n0 <= n)%nat -> k (skipn n0 s) <> None ->
  try_counts k min s n <> None.
Proof.
  intros Hn Hk. induction n as [|n IH]; cbn [try_counts].
  - destruct (0 <? min)%nat eqn:L; [apply Nat.ltb_lt in L; lia|].
    replace n0 with O in Hk by lia.
    destruct (k (skipn 0 s)); [discriminate|contradiction].
  - destruct (S n <? min)%nat eqn:L; [apply Nat.ltb_lt in L; lia|].
    destruct (k (skipn (S n) s)) eqn:K; [discriminate|].
    apply IH. destruct (Nat.eq_dec n0 (S n)) as [->|]; [contradiction|lia].
Qed.

(** What matched is, item by item, a text the item accepts, and the
    pieces in a row are the beginning of the string. *)
Lemma re_match_sound (items : list re_item) :
  forall (s : pystr) (groups : list pystr),
  re_match items s = Some groups ->
  Forall2 piece_ok items groups /\ exists t, s = concat groups ++ t.
Proof.
  induction items as [|it items IH]; intros s groups M.
  - injection M as <-. split; [constructor|now exists s].
  - cbn [re_match] in M.
    set (cap := match max_rep it with Some m => m | None => length s end) in M.
    apply try_counts_sound in M as (n0 & g & Hn & -> & K).
    destruct (IH _ _ K) as [F [t Et]].
    destruct (run_length_spec (cls it) cap s n0 ltac:(lia)) as (Hc & Hl & Hp).
    split.
    + constructor; [|exact F]. unfold piece_ok. rewrite Hl.
      repeat split; [exact Hp|lia|].
      unfold cap in Hc. destruct (max_rep it); [lia|trivial].
    + exists t. cbn [concat]. rewrite <- app_assoc, <- Et.
      symmetry. apply firstn_skipn.
Qed.

(** Backtracking is complete: when the string begins with pieces that the
    items accept, the match succeeds. *)
Lemma re_match_complete (items : list re_item) :
  forall (groups : list pystr) (t : pystr),
  Forall2 piece_ok items groups ->
  re_match items (concat groups ++ t) <> None.
Proof.
  induction items as [|it items IH]; intros groups t F.
  - discriminate.
  - inversion F as [|? p ? ps (Hp & Hmin & Hmax) F']; subst.
    cbn [re_match concat]. rewrite <- app_assoc.
    apply try_counts_complete with (n0 := length p).
    + split; [exact Hmin|]. apply run_length_app; [exact Hp|].
      destruct (max_rep it); [exact Hmax|]. rewrite length_app. lia.
    + rewrite skipn_app, skipn_all, Nat.sub_diag. cbn [skipn app].
      now apply IH.
Qed.

(** * The file-name parser *)

Section ParserFacts.
Variable is_decimal : Z -> bool.

Lemma ht_base_spec (f base : pystr) :
  ht_base f = Some base ->
  f = base ++ py "_HT.xml.xml"
  \/ (f = base ++ py "_HT.xml" /\ endswith f (py "_HT.xml.xml") = false).
Proof.
  unfold ht_base. destruct (endswith f (py "_HT.xml.xml")) eqn:E1.
  - intros H. injection H as <-. left.
    apply endswith_spec in E1 as [b ->]. now rewrite drop_last_suffix by reflexivity.
  - destruct (endswith f (py "_HT.xml")) eqn:E2; [|discriminate].
    intros H. injection H as <-. right. split; [|reflexivity].
    apply endswith_spec in E2 as [b ->]. now rewrite drop_last_suffix by reflexivity.
Qed.

Lemma ht_base_double (b : pystr) : ht_base (b ++ py "_HT.xml.xml") = Some b.
Proof.
  unfold ht_base.
  assert (endswith (b ++ py "_HT.xml.xml") (py "_HT.xml.xml") = true) as ->
    by (apply endswith_spec; now exists b).
  now rewrite drop_last_suffix by reflexivity.
Qed.

Lemma ht_base_single (b : pystr) : ht_base (b ++ py "_HT.xml") = Some b.
Proof.
  unfold ht_base.
  destruct (endswith (b ++ py "_HT.xml") (py "_HT.xml.xml")) eqn:E.
  - exfalso. apply endswith_spec in E as [c E].
    apply (f_equal (@rev Z)) in E. rewrite !rev_app_distr in E.
    cbn in E. discriminate E.
  - assert (endswith (b ++ py "_HT.xml") (py "_HT.xml") = true) as ->
      by (apply endswith_spec; now exists b).
    now rewrite drop_last_suffix by reflexivity.
Qed.

Lemma ht_component_spec (base comp bnc : pystr) :
  ht_component base = Some (comp, bnc) ->
  In comp [py "Engine"; py "Intake"; py "Exhaust"]
  /\ exists t, base = bnc ++ t.
Proof.
  unfold ht_component.
  destruct (contains base (py "EngAmb")).
  - destruct (str_find base (py "EngAmb")) as [idx|]; [|discriminate].
    intros H. injection H as <- <-. split; [now left|].
    destruct (rstrip_prefix (firstn idx base) (py "_")) as [t Et].
    exists (t ++ skipn idx base). rewrite app_assoc, <- Et.
    symmetry. apply firstn_skipn.
  - assert (Hsplit : forall sep, exists t,
              base = hd [] (rsplit1 base sep) ++ t).
    { intros sep. unfold rsplit1. destruct (str_rfind base sep) as [i|].
      - exists (skipn i base). symmetry. apply firstn_skipn.
      - exists []. cbn [hd]. now rewrite app_nil_r. }
    destruct (contains base (py "_Int")).
    + intros H. injection H as <- <-. split; [right; now left|apply Hsplit].
    + destruct (contains base (py "_Exh")); [|discriminate].
      intros H. injection H as <- <-.
      split; [right; right; now left|apply Hsplit].
Qed.

Lemma ht_prefix_spec (bnc prefix name_part : pystr) :
  ht_prefix is_decimal bnc = Some (prefix, name_part) ->
  prefix <> []
  /\ (exists t, bnc = prefix ++ t)
  /\ ht_cyl_key is_decimal prefix <> None
  /\ match name_part with
     | [] => True
     | x :: _ => x <> 95
     end.
Proof.
  unfold ht_prefix.
  destruct (re_match (HT_PATTERN is_decimal) bnc) as [groups|] eqn:M.
  - intros H. injection H as <- <-.
    destruct (re_match_sound _ _ _ M) as [F [t Et]].
    split; [|split; [|split]].
    + inversion F as [|it p ? ps (_ & Hmin & _) F']; subst.
      cbn [min_rep] in Hmin. destruct p; [simpl in Hmin; lia|discriminate].
    + now exists t.
    + unfold ht_cyl_key.
      pose proof (re_match_complete _ groups [] F) as C.
      rewrite app_nil_r in C.
      destruct (re_match (HT_PATTERN is_decimal) (concat groups));
        [discriminate|contradiction].
    + destruct (lstrip _ _) as [|x r] eqn:L; [trivial|].
      apply lstrip_head in L. cbn in L.
      intros ->. discriminate.
  - destruct (str_eqb bnc (py "NA")) eqn:E; [|discriminate].
    apply str_eqb_eq in E. intros H. injection H as <- <-.
    split; [discriminate|]. split; [exists []; now rewrite app_nil_r|].
    split; [|cbn; lia].
    unfold ht_cyl_key.
    destruct (re_match (HT_PATTERN is_decimal) (py "NA")); discriminate.
Qed.

(** X9: the parser never returns a tuple without a cylinder key. The
    branch [cyl_key = None] of the code cannot be taken: the prefix is
    what the first pattern matched or "NA", and backtracking finds a match
    of the second pattern, which has the same items, on every text that
    the first one matched. *)
Theorem parse_cyl_key_never_none (f prefix display comp fname : pystr)
    (cyl_key : option pystr) :
  parse_ht_filename is_decimal f = Some (prefix, display, comp, cyl_key, fname) ->
  exists k, cyl_key = Some k.
Proof.
  unfold parse_ht_filename.
  destruct (ht_base f) as [base|]; [|discriminate].
  destruct (ht_component base) as [[c bnc]|]; [|discriminate].
  destruct (ht_prefix is_decimal bnc) as [[p n]|] eqn:P; [|discriminate].
  intros H. injection H as <- _ _ <- _.
  apply ht_prefix_spec in P as (_ & _ & K & _).
  destruct (ht_cyl_key is_decimal p) as [k|]; [now exists k|contradiction].
Qed.

(** X10: what the parser returns is well formed: the file name is given
    back as it came, the component type is one of the three, the prefix is
    not empty and is the beginning of the file name, and the display name
    is the prefix, or the prefix, a space and a name that is not empty and
    does not begin with an underscore. *)
Theorem parse_result_shape (f prefix display comp fname : pystr)
    (cyl_key : option pystr) :
  parse_ht_filename is_decimal f = Some (prefix, display, comp, cyl_key, fname) ->
  fname = f
  /\ In comp [py "Engine"; py "Intake"; py "Exhaust"]
  /\ prefix <> []
  /\ startswith f prefix = true
  /\ (display = prefix
      \/ exists x name, x <> 95 /\ display = prefix ++ py " " ++ x :: name).
Proof.
  unfold parse_ht_filename.
  destruct (ht_base f) as [base|] eqn:B; [|discriminate].
  destruct (ht_component base) as [[c bnc]|] eqn:C; [|discriminate].
  destruct (ht_prefix is_decimal bnc) as [[p n]|] eqn:P; [|discriminate].
  intros H. injection H as <- <- <- _ <-.
  apply ht_component_spec in C as [Hc [t1 E1]].
  apply ht_prefix_spec in P as (Hp & [t2 E2] & _ & Hn).
  split; [reflexivity|]. split; [exact Hc|]. split; [exact Hp|]. split.
  - apply startswith_spec.
    apply ht_base_spec in B as [->|[-> _]]; rewrite E1, E2, <- !app_assoc; eauto.
  - unfold ht_display_of. destruct n as [|x n]; [now left|].
    right. exists x, n. auto.
Qed.

(** X11: a file name with the doubled suffix "_HT.xml.xml" is parsed like
    the same name with the single suffix "_HT.xml": prefix, display name,
    component type and cylinder key are the same. *)
Theorem parse_doubled_suffix (b : pystr) :
  option_map (fun r => fst r) (parse_ht_filename is_decimal (b ++ py "_HT.xml.xml"))
  = option_map (fun r => fst r) (parse_ht_filename is_decimal (b ++ py "_HT.xml")).
Proof.
  unfold parse_ht_filename. rewrite ht_base_double, ht_base_single.
  destruct (ht_component b) as [[c bnc]|]; [|reflexivity].
  destruct (ht_prefix is_decimal bnc) as [[p n]|]; reflexivity.
Qed.

End ParserFacts.

Lemma parse_cyl_key_never_none_witness :
  exists k, Some (py "4") = Some k.
Proof.
  apply (parse_cyl_key_never_none ascii_digit (py "4I1_Civic_Exh_HT.xml")
           (py "4I1") (py "4I1 Civic") (py "Exhaust")
           (py "4I1_Civic_Exh_HT.xml")).
  vm_compute. reflexivity.
Defined.

Lemma parse_result_shape_witness :
  startswith (py "2RA_RX7_EngAmb_Hi_HT.xml") (py "2RA") = true.
Proof.
  refine (proj1 (proj2 (proj2 (proj2
           (parse_result_shape ascii_digit (py "2RA_RX7_EngAmb_Hi_HT.xml")
              (py "2RA") (py "2RA RX7") (py "Engine")
              (py "2RA_RX7_EngAmb_Hi_HT.xml") (Some (py "2R")) _))))).
  vm_compute. reflexivity.
Defined.

(** * Cylinder keys and drop-down options *)

Lemma cylinder_option_known (k o : pystr) :
  cylinder_option k = Some o ->
  In k [py "2R"; py "4"; py "5"; py "6"; py "8"; py "10"; py "12";
        py "Rotary"; py "2"; py "16"; py "3"].
Proof.
  intros Hopt.
  destruct (in_dec (list_eq_dec Z.eq_dec) k
              [py "2R"; py "4"; py "5"; py "6"; py "8"; py "10"; py "12";
               py "Rotary"; py "2"; py "16"; py "3"]) as [Hin|Hnot];
    [exact Hin|exfalso].
  unfold cylinder_option in Hopt.
  destruct (str_eqb k (py "2R")) eqn:E1.
  { apply str_eqb_eq in E1. apply Hnot. rewrite E1. now left. }
  destruct (str_in k CYLINDER_OPTIONS) eqn:E2.
  { apply str_in_In in E2. apply Hnot. cbn in E2 |- *. tauto. }
  apply find_some in Hopt as [Ho Hk]. apply str_in_In in Hk.
  apply Hnot. cbn in Ho.
  repeat (destruct Ho as [<-|Ho]; [cbn in Hk |- *; tauto|]).
  contradiction.
Qed.

(** X12: the option that the cylinder detection picks for a key is one of
    the options of the drop-down, and the group of that option holds the
    key, so that the files with this key pass the filter of the
    drop-downs. Only the key "Rotary" itself, which no file name yields,
    is outside the group of its option. *)
Theorem cylinder_option_group (k o : pystr) :
  cylinder_option k = Some o -> k <> py "Rotary" ->
  In o CYLINDER_OPTIONS /\ In k (dict_get CYLINDER_GROUPS o []).
Proof.
  intros Hopt Hrot. pose proof (cylinder_option_known _ _ Hopt) as Hin.
  cbn [In] in Hin.
  repeat (destruct Hin as [<-|Hin];
          [first [ now contradiction Hrot
                 | vm_compute in Hopt; injection Hopt as <-;
                   split; vm_compute; tauto ]|]).
  contradiction.
Qed.

Lemma cylinder_option_group_witness :
  In (py "4") CYLINDER_OPTIONS
  /\ In (py "16") (dict_get CYLINDER_GROUPS (py "4") []).
Proof.
  apply (cylinder_option_group (py "16") (py "4"));
    [vm_compute; reflexivity|vm_compute; discriminate].
Defined.

(** * The exhaust drop-down after a car is selected *)

Section DropDowns.
Variable is_decimal : Z -> bool.
(** "R" is a letter, not a decimal digit. *)
Hypothesis decimal_R : is_decimal 82 = false.

Lemma ht_cyl_key_form (prefix k : pystr) :
  ht_cyl_key is_decimal prefix = Some k ->
  k = py "2R" \/ k = py "NA"
  \/ exists x r, k = x :: r /\ is_decimal x = true.
Proof.
  unfold ht_cyl_key.
  destruct (re_match (HT_PATTERN is_decimal) prefix) as [groups|] eqn:M.
  - intros H. injection H as <-.
    destruct (str_eqb (nth 1 groups []) (py "R")); [now left|].
    right. right. apply re_match_sound in M as [F _].
    inversion F as [|it g0 ? gs (Hp & Hmin & _) F']; subst.
    cbn [nth cls min_rep] in *.
    destruct g0 as [|x r]; [simpl in Hmin; lia|].
    cbn [forallb] in Hp. apply andb_true_iff in Hp as [Hx _].
    now exists x, r.
  - destruct (str_eqb prefix (py "NA")); [|discriminate].
    intros H. injection H as <-. right. now left.
Qed.

Lemma parsed_key_not_rotary (f prefix display comp fname k : pystr) :
  parse_ht_filename is_decimal f
  = Some (prefix, display, comp, Some k, fname) ->
  k <> py "Rotary".
Proof.
  unfold parse_ht_filename.
  destruct (ht_base f) as [base|]; [|discriminate].
  destruct (ht_component base) as [[c bnc]|]; [|discriminate].
  destruct (ht_prefix is_decimal bnc) as [[p n]|]; [|discriminate].
  intros H. injection H as _ _ _ K _.
  apply ht_cyl_key_form in K as [->|[->|(x & r & -> & Hx)]];
    try discriminate.
  intros E. injection E as -> _. congruence.
Qed.

Lemma ht_display_name_parsed (f prefix display comp fname : pystr)
    (cyl_key : option pystr) :
  parse_ht_filename is_decimal f
  = Some (prefix, display, comp, cyl_key, fname) ->
  ht_display_name is_decimal f = display.
Proof.
  intros P. unfold ht_display_name.
  destruct f as [|x f]; [discriminate P|]. cbn [orb].
  destruct (str_in (x :: f) [py "NA.xml"; py ""]) eqn:S.
  - exfalso. apply str_in_In in S. destruct S as [S|[S|[]]].
    + rewrite <- S in P. discriminate P.
    + discriminate S.
  - now rewrite P.
Qed.

(** X13: when the exhaust file of the selected car is one of the loaded
    exhaust files, with the display name and the cylinder key that its
    file name parses to, then after the selection and the cylinder
    detection the exhaust variable holds that display name and the name
    is among the values of the exhaust drop-down, whether or not the
    detection changed the cylinder filter. *)
Theorem select_exhaust_keeps_selection (g : gui) (f prefix comp : pystr)
    (entry : ht_entry) :
  In entry (exhaust_ht g) ->
  parse_ht_filename is_decimal f
  = Some (prefix, entry_display entry, comp, entry_cyl_key entry, f) ->
  exhaust_var (select_exhaust is_decimal g f) = entry_display entry
  /\ In (exhaust_var (select_exhaust is_decimal g f))
        (exhaust_combo (select_exhaust is_decimal g f)).
Proof.
  intros Hin P. unfold select_exhaust, _select_ht_combo.
  rewrite (ht_display_name_parsed _ _ _ _ _ _ P).
  set (d := entry_display entry) in *.
  set (values := if str_in d (exhaust_combo g) then exhaust_combo g
                 else d :: exhaust_combo g).
  assert (Hd : In d values).
  { unfold values. destruct (str_in d (exhaust_combo g)) eqn:S.
    - now apply str_in_In.
    - now left. }
  unfold _auto_detect_cylinders.
  destruct f as [|x f]; [discriminate P|]. rewrite P.
  destruct (entry_cyl_key entry) as [k|] eqn:K; [|now split].
  destruct (cylinder_option k) as [o|] eqn:O; [|now split].
  cbn [cyl_var].
  destruct (negb (str_eqb (cyl_var g) o)); [|now split].
  unfold _update_ht_dropdowns. cbn [exhaust_var exhaust_combo cyl_var exhaust_ht].
  split; [reflexivity|].
  apply in_map. apply filter_In. split; [exact Hin|].
  unfold matches. rewrite K.
  pose proof (parsed_key_not_rotary _ _ _ _ _ _ P) as Hrot.
  destruct (cylinder_option_group _ _ O Hrot) as [_ Hg].
  apply str_in_In in Hg. now rewrite Hg.
Qed.

End DropDowns.

Lemma select_exhaust_keeps_selection_witness :
  exhaust_var
    (select_exhaust ascii_digit
       (mk_gui (py "8") [] [] [] [] []
          [mk_ht (py "4I1_Civic_Exh_HT.xml") (py "4I1 Civic") (Some (py "4"))]
          [] [] [])
       (py "4I1_Civic_Exh_HT.xml"))
  = py "4I1 Civic"
  /\ In (exhaust_var
          (select_exhaust ascii_digit
             (mk_gui (py "8") [] [] [] [] []
                [mk_ht (py "4I1_Civic_Exh_HT.xml") (py "4I1 Civic")
                   (Some (py "4"))]
                [] [] [])
             (py "4I1_Civic_Exh_HT.xml")))
        (exhaust_combo
          (select_exhaust ascii_digit
             (mk_gui (py "8") [] [] [] [] []
                [mk_ht (py "4I1_Civic_Exh_HT.xml") (py "4I1 Civic")
                   (Some (py "4"))]
                [] [] [])
             (py "4I1_Civic_Exh_HT.xml"))).
Proof.
  apply (select_exhaust_keeps_selection ascii_digit eq_refl
           (mk_gui (py "8") [] [] [] [] []
              [mk_ht (py "4I1_Civic_Exh_HT.xml") (py "4I1 Civic")
                 (Some (py "4"))]
              [] [] [])
           (py "4I1_Civic_Exh_HT.xml") (py "4I1") (py "Exhaust")
           (mk_ht (py "4I1_Civic_Exh_HT.xml") (py "4I1 Civic") (Some (py "4"))));
    [now left|vm_compute; reflexivity].
Defined.

(** * Loading the HT files *)

Lemma insert_sorted_In (x y : pystr) (l : list pystr) :
  In y (insert_sorted x l) <-> y = x \/ In y l.
Proof.
  induction l as [|z l IH]; cbn [insert_sorted].
  - simpl. intuition.
  - destruct (str_leb x z); cbn [In]; [intuition|]. rewrite IH. intuition.
Qed.

Lemma sorted_In (y : pystr) (l : list pystr) : In y (sorted l) <-> In y l.
Proof.
  induction l as [|x l IH]; [reflexivity|].
  cbn [sorted fold_right]. fold (sorted l). rewrite insert_sorted_In, IH.
  cbn [In]. intuition.
Qed.

Section Loading.
Variable is_decimal : Z -> bool.

Lemma parse_gives_filename (f prefix display comp fname : pystr)
    (cyl_key : option pystr) :
  parse_ht_filename is_decimal f = Some (prefix, display, comp, cyl_key, fname) ->
  fname = f /\ In comp [py "Engine"; py "Intake"; py "Exhaust"].
Proof.
  intros P. apply parse_result_shape in P as (H1 & H2 & _). auto.
Qed.

Lemma load_ht_file_seen
    (st : list ht_entry * list ht_entry * list ht_entry * list pystr)
    (fn x : pystr) :
  In x (snd (load_ht_file is_decimal st fn)) <-> In x (snd st) \/ x = fn.
Proof.
  destruct st as [[[E I0] X] seen]. cbn [load_ht_file snd].
  destruct (str_in fn seen) eqn:S.
  - cbn [snd]. apply str_in_In in S. split; [auto|]. intros [H| ->]; auto.
  - destruct (parse_ht_filename is_decimal fn) as [[[[[p d] c] k] f]|].
    + destruct (str_eqb c (py "Engine")); [|destruct (str_eqb c (py "Intake"));
        [|destruct (str_eqb c (py "Exhaust"))]];
        cbn [snd]; rewrite in_app_iff; cbn [In]; intuition.
    + cbn [snd]. rewrite in_app_iff. cbn [In]. intuition.
Qed.

Lemma NoDup_insert (A : Type) (a : A) (l1 l2 : list A) :
  ~ In a (l1 ++ l2) -> NoDup (l1 ++ l2) -> NoDup (l1 ++ a :: l2).
Proof.
  intros Hn Hd. apply (Permutation_NoDup (Permutation_middle l1 l2 a)).
  now constructor.
Qed.

Lemma load_ht_file_inv
    (st : list ht_entry * list ht_entry * list ht_entry * list pystr)
    (fn : pystr) :
  load_inv is_decimal st -> load_inv is_decimal (load_ht_file is_decimal st fn).
Proof.
  destruct st as [[[E I0] X] seen]. intros (FE & FI & FX & ND & Hseen & Hall).
  cbn [load_ht_file]. destruct (str_in fn seen) eqn:S.
  { repeat split; assumption. }
  assert (Hnew : ~ In fn seen)
    by (intros H; apply str_in_In in H; congruence).
  assert (Hfresh : ~ In fn (map entry_filename (E ++ I0 ++ X))).
  { intros H. apply in_map_iff in H as [e [<- He]]. auto. }
  destruct (parse_ht_filename is_decimal fn) as [[[[[p d] c] k] f]|] eqn:P.
  - destruct (parse_gives_filename _ _ _ _ _ _ P) as [-> Hc].
    assert (Hent : forall comp, c = comp ->
              from_file is_decimal comp (mk_ht fn d k))
      by (intros comp <-; exists p; exact P).
    destruct (str_eqb c (py "Engine")) eqn:C1;
      [|destruct (str_eqb c (py "Intake")) eqn:C2;
        [|destruct (str_eqb c (py "Exhaust")) eqn:C3]].
    + apply str_eqb_eq in C1. unfold load_inv.
      split; [apply Forall_app; split; [exact FE|constructor; auto]|].
      split; [exact FI|]. split; [exact FX|]. split; [|split].
      * rewrite <- app_assoc. cbn [app]. rewrite map_app. cbn [map].
        apply NoDup_insert; rewrite <- map_app; assumption.
      * intros e He. rewrite <- app_assoc in He. cbn [app] in He.
        apply in_app_iff. apply in_elt_inv in He as [Ee|He];
          [subst e; right; now left|left; auto].
      * intros x Hx Px. rewrite <- app_assoc. cbn [app].
        rewrite map_app. cbn [map]. apply in_app_iff in Hx as [Hx|[<-|[]]].
        -- specialize (Hall x Hx Px). rewrite map_app in Hall.
           apply in_app_iff in Hall as [H|H];
             apply in_app_iff; [left|right; right]; exact H.
        -- apply in_elt.
    + apply str_eqb_eq in C2. unfold load_inv.
      split; [exact FE|].
      split; [apply Forall_app; split; [exact FI|constructor; auto]|].
      split; [exact FX|]. split; [|split].
      * rewrite <- app_assoc. cbn [app]. rewrite app_assoc, map_app. cbn [map].
        apply NoDup_insert; rewrite <- map_app, <- app_assoc; assumption.
      * intros e He. rewrite <- app_assoc in He. cbn [app] in He.
        rewrite app_assoc in He.
        apply in_app_iff. apply in_elt_inv in He as [Ee|He];
          [subst e; right; now left
          |left; apply Hseen; now rewrite <- app_assoc in He].
      * intros x Hx Px. rewrite <- app_assoc. cbn [app].
        rewrite app_assoc, map_app. cbn [map].
        apply in_app_iff in Hx as [Hx|[<-|[]]].
        -- specialize (Hall x Hx Px). rewrite app_assoc, map_app in Hall.
           apply in_app_iff in Hall as [H|H];
             apply in_app_iff; [left|right; right]; exact H.
        -- apply in_elt.
    + apply str_eqb_eq in C3. unfold load_inv.
      split; [exact FE|]. split; [exact FI|].
      split; [apply Forall_app; split; [exact FX|constructor; auto]|].
      split; [|split].
      * rewrite !app_assoc, map_app. cbn [map].
        apply NoDup_insert; rewrite app_nil_r, <- app_assoc; assumption.
      * intros e He. rewrite !app_assoc in He.
        apply in_app_iff in He as [He|[<-|[]]].
        -- apply in_app_iff. left. apply Hseen. now rewrite app_assoc.
        -- apply in_app_iff. right. now left.
      * intros x Hx Px. rewrite !app_assoc, map_app. cbn [map].
        apply in_app_iff in Hx as [Hx|[<-|[]]].
        -- apply in_app_iff. left. rewrite <- app_assoc. auto.
        -- apply in_app_iff. right. now left.
    + exfalso. cbn [In] in Hc.
      destruct Hc as [<-|[<-|[<-|[]]]];
        [rewrite str_eqb_refl in C1|rewrite str_eqb_refl in C2
        |rewrite str_eqb_refl in C3]; discriminate.
  - unfold load_inv. repeat split; try assumption.
    + intros e He. apply in_app_iff. left. auto.
    + intros x Hx Px. apply in_app_iff in Hx as [Hx|[<-|[]]]; [auto|].
      contradiction.
Qed.

Lemma fold_load_inv (names : list pystr) :
  forall st, load_inv is_decimal st ->
  load_inv is_decimal (fold_left (load_ht_file is_decimal) names st)
  /\ forall x, In x (snd (fold_left (load_ht_file is_decimal) names st))
               <-> In x (snd st) \/ In x names.
Proof.
  induction names as [|fn names IH]; intros st Hst.
  - cbn [fold_left In]. split; [exact Hst|]. intuition.
  - cbn [fold_left]. destruct (IH _ (load_ht_file_inv st fn Hst)) as [H1 H2].
    split; [exact H1|]. intros x. rewrite H2, load_ht_file_seen.
    cbn [In]. intuition.
Qed.

(** X14: [load_ht_files] lists every file of the two directories that
    parses, once, in the list of its component type, and nothing else:
    each entry holds the display name and cylinder key that its own file
    name parses to, no file name occurs twice in the three lists together
    (a name present in both directories is taken once), and every listed
    name is a name of one of the directories. *)
Theorem load_ht_files_lists (ht_dir dlc_ht_dir : option (list pystr))
    (E I0 X : list ht_entry) :
  load_ht_files is_decimal ht_dir dlc_ht_dir = (E, I0, X) ->
  Forall (from_file is_decimal (py "Engine")) E
  /\ Forall (from_file is_decimal (py "Intake")) I0
  /\ Forall (from_file is_decimal (py "Exhaust")) X
  /\ NoDup (map entry_filename (E ++ I0 ++ X))
  /\ (forall fn, In fn (map entry_filename (E ++ I0 ++ X)) <->
        In fn (listing ht_dir ++ listing dlc_ht_dir)
        /\ parse_ht_filename is_decimal fn <> None).
Proof.
  intros H.
  pose (over_dir := fun st (d : option (list pystr)) =>
         match d with
         | None => st
         | Some names => fold_left (load_ht_file is_decimal) (sorted names) st
         end).
  change (load_ht_files is_decimal ht_dir dlc_ht_dir)
    with (fst (over_dir (over_dir ([], [], [], []) ht_dir) dlc_ht_dir)) in H.
  assert (Hdir : forall st d, load_inv is_decimal st ->
            load_inv is_decimal (over_dir st d)
            /\ forall x, In x (snd (over_dir st d))
                         <-> In x (snd st) \/ In x (listing d)).
  { intros st [names|] Hst; cbn [over_dir listing].
    - destruct (fold_load_inv (sorted names) st Hst) as [H1 H2].
      split; [exact H1|]. intros x. rewrite H2, sorted_In. reflexivity.
    - split; [exact Hst|]. cbn [In]. intuition. }
  assert (H0 : load_inv is_decimal ([], [], [], [])).
  { unfold load_inv. cbn [app map]. repeat split; try constructor.
    - intros e [].
    - intros fn []. }
  destruct (Hdir _ ht_dir H0) as [I1 S1].
  destruct (Hdir _ dlc_ht_dir I1) as [I2 S2].
  destruct (over_dir (over_dir ([], [], [], []) ht_dir) dlc_ht_dir)
    as [[[E' I'] X'] seen] eqn:R.
  cbn [fst] in H. injection H as -> -> ->.
  destruct I2 as (FE & FI & FX & ND & Hseen & Hall).
  assert (Hs : forall x, In x seen
                 <-> In x (listing ht_dir ++ listing dlc_ht_dir)).
  { intros x. specialize (S2 x). cbn [snd] in S2. rewrite S2, S1.
    cbn [snd In]. rewrite in_app_iff. intuition. }
  split; [exact FE|]. split; [exact FI|]. split; [exact FX|].
  split; [exact ND|]. intros fn. split.
  - intros Hfn. apply in_map_iff in Hfn as [e [<- He]]. split.
    + apply Hs. auto.
    + assert (Fall : Forall (fun e => parse_ht_filename is_decimal
                                        (entry_filename e) <> None)
                       (E ++ I0 ++ X)).
      { repeat (apply Forall_app; split);
          (eapply Forall_impl; [|eassumption]);
          intros a [p Pa]; rewrite Pa; discriminate. }
      rewrite Forall_forall in Fall. now apply Fall.
  - intros [Hin Hp]. apply Hall; [now apply Hs|exact Hp].
Qed.

End Loading.

Lemma load_ht_files_lists_witness :
  NoDup (map entry_filename
           ([mk_ht (py "12V_EngAmb_HT.xml.xml") (py "12V") (Some (py "12"))]
            ++ [] ++
            [mk_ht (py "4I1_b_Exh_HT.xml") (py "4I1 b") (Some (py "4"))])).
Proof.
  refine (proj1 (proj2 (proj2 (proj2
    (load_ht_files_lists ascii_digit
       (Some [py "4I1_b_Exh_HT.xml"; py "junk"])
       (Some [py "4I1_b_Exh_HT.xml"; py "12V_EngAmb_HT.xml.xml"])
       _ _ _ _))))).
  vm_compute. reflexivity.
Defined.


(** * Indentation of XML trees *)

Lemma element_induction (P : element -> Prop) :
  (forall tag attrib text tail children,
      Forall P children -> P (mk_element tag attrib text tail children)) ->
  forall e, P e.
Proof.
  intros H. fix IH 1. intros [tag attrib text tail children]. apply H.
  induction children as [|c cs IHcs]; constructor.
  - apply IH.
  - exact IHcs.
Qed.

Lemma set_tail_tail_of (e : element) : set_tail (tail_of e) e = e.
Proof. destruct e; reflexivity. Qed.

Lemma set_tail_twice (s t : option pystr) (e : element) :
  set_tail s (set_tail t e) = set_tail s e.
Proof. destruct e; reflexivity. Qed.

Lemma tail_of_set_tail (t : option pystr) (e : element) :
  tail_of (set_tail t e) = t.
Proof. destruct e; reflexivity. Qed.

Section IndentFacts.
Variable is_space : Z -> bool.
Hypothesis space_nl : is_space 10 = true.
Hypothesis space_sp : is_space 32 = true.

Lemma blank_spaces (level : nat) (rest : pystr) :
  forallb is_space rest = true ->
  forallb is_space (concat (repeat (py "  ") level) ++ rest) = true.
Proof.
  intros Hr. induction level as [|n IH]; [exact Hr|].
  cbn [repeat concat]. rewrite <- app_assoc, forallb_app, IH.
  cbn. rewrite space_sp. reflexivity.
Qed.

Lemma blank_indent (level : nat) :
  blank is_space (Some (indent_of level)) = true.
Proof.
  unfold indent_of. cbn [blank forallb]. rewrite space_nl. cbn [andb].
  rewrite <- (app_nil_r (concat _)). apply blank_spaces. reflexivity.
Qed.

Lemma blank_indent_text (level : nat) :
  blank is_space (Some (indent_of level ++ py "  ")) = true.
Proof.
  unfold indent_of. cbn [blank forallb app]. rewrite space_nl. cbn [andb].
  apply blank_spaces. cbn. rewrite space_sp. reflexivity.
Qed.

Lemma indent_leaf level tag attrib text tail :
  _indent_xml is_space level (mk_element tag attrib text tail []) =
  mk_element tag attrib text (tail_rule is_space level tail) [].
Proof.
  unfold tail_rule. cbn. destruct (level =? 0)%nat; reflexivity.
Qed.

Lemma indent_node level tag attrib text tail c cs :
  _indent_xml is_space level (mk_element tag attrib text tail (c :: cs)) =
  mk_element tag attrib (text_rule is_space level text)
    (tail_rule is_space level tail)
    (fix_last_tail is_space (indent_of level)
       (map (_indent_xml is_space (S level)) (c :: cs))).
Proof.
  unfold tail_rule, text_rule.
  cbn [_indent_xml]. destruct (level =? 0)%nat; reflexivity.
Qed.

Lemma indent_tail_of level e :
  tail_of (_indent_xml is_space level e) =
  tail_rule is_space level (tail_of e).
Proof.
  destruct e as [tag attrib text tail [|c cs]].
  - rewrite indent_leaf. reflexivity.
  - rewrite indent_node. reflexivity.
Qed.

Lemma indent_set_tail level t e :
  _indent_xml is_space level (set_tail t e) =
  set_tail (tail_rule is_space level t) (_indent_xml is_space level e).
Proof.
  destruct e as [tag attrib text tail [|c cs]]; cbn [set_tail].
  - rewrite !indent_leaf. reflexivity.
  - rewrite !indent_node. reflexivity.
Qed.

Lemma tail_rule_idem level t :
  tail_rule is_space level (tail_rule is_space level t) =
  tail_rule is_space level t.
Proof.
  unfold tail_rule. destruct (level =? 0)%nat; [reflexivity|].
  destruct (blank is_space t) eqn:B.
  - rewrite blank_indent. reflexivity.
  - rewrite B. reflexivity.
Qed.

Lemma text_rule_idem level t :
  text_rule is_space level (text_rule is_space level t) =
  text_rule is_space level t.
Proof.
  unfold text_rule. destruct (blank is_space t) eqn:B.
  - rewrite blank_indent_text. reflexivity.
  - rewrite B. reflexivity.
Qed.

Lemma tail_rule_blank level t :
  blank is_space (tail_rule is_space (S level) t) = blank is_space t.
Proof.
  unfold tail_rule. cbn [Nat.eqb]. destruct (blank is_space t) eqn:B.
  - apply blank_indent.
  - exact B.
Qed.

Lemma tail_rule_kept level t :
  blank is_space t = false -> tail_rule is_space (S level) t = t.
Proof. intros B. unfold tail_rule. cbn [Nat.eqb]. rewrite B. reflexivity. Qed.

Lemma fix_last_cons indent c cs :
  cs <> [] ->
  fix_last_tail is_space indent (c :: cs) =
  c :: fix_last_tail is_space indent cs.
Proof. destruct cs; [congruence | reflexivity]. Qed.

Lemma fix_last_nil indent cs :
  fix_last_tail is_space indent cs = [] -> cs = [].
Proof.
  destruct cs as [|c [|d cs]]; [reflexivity | discriminate | discriminate].
Qed.

Lemma fix_last_tail_settled level cs :
  Forall (fun c => forall l, _indent_xml is_space l (_indent_xml is_space l c)
                             = _indent_xml is_space l c) cs ->
  fix_last_tail is_space (indent_of level)
    (map (_indent_xml is_space (S level))
       (fix_last_tail is_space (indent_of level)
          (map (_indent_xml is_space (S level)) cs))) =
  fix_last_tail is_space (indent_of level)
    (map (_indent_xml is_space (S level)) cs).
Proof.
  induction 1 as [|c cs Hc Hcs IH]; [reflexivity|].
  destruct cs as [|d cs].
  - cbn [map fix_last_tail].
    destruct (blank is_space (tail_of (_indent_xml is_space (S level) c)))
      eqn:B.
    + rewrite indent_set_tail, Hc, tail_of_set_tail, tail_rule_blank.
      rewrite blank_indent, set_tail_twice. reflexivity.
    + rewrite Hc, B. reflexivity.
  - assert (Hne : map (_indent_xml is_space (S level)) (d :: cs) <> [])
      by discriminate.
    change (map (_indent_xml is_space (S level)) (c :: d :: cs))
      with (_indent_xml is_space (S level) c
              :: map (_indent_xml is_space (S level)) (d :: cs)).
    rewrite (fix_last_cons _ _ _ Hne).
    cbn [map]. rewrite Hc.
    rewrite fix_last_cons.
    + f_equal. exact IH.
    + intros E. apply map_eq_nil in E. apply fix_last_nil in E.
      exact (Hne E).
Qed.

(** X15: Indenting is idempotent: a tree that [_indent_xml] has laid out
    at a level is left as it is by a second pass at that level, so saving
    a file again does not change its layout. *)
Theorem indent_xml_idempotent :
  forall e level,
    _indent_xml is_space level (_indent_xml is_space level e) =
    _indent_xml is_space level e.
Proof.
  induction e as [tag attrib text tail children IH] using element_induction.
  intros level. destruct children as [|c cs].
  - rewrite !indent_leaf, tail_rule_idem. reflexivity.
  - rewrite indent_node.
    destruct (fix_last_tail is_space (indent_of level)
                (map (_indent_xml is_space (S level)) (c :: cs)))
      as [|c0 cs0] eqn:E.
    + apply fix_last_nil in E. discriminate.
    + rewrite indent_node, <- E, text_rule_idem, tail_rule_idem.
      f_equal. apply fix_last_tail_settled. exact IH.
Qed.

Lemma content_set_blank_tail t e :
  blank is_space (tail_of e) = true -> blank is_space t = true ->
  content is_space (set_tail t e) = content is_space e.
Proof.
  destruct e as [tag attrib text tail children]. cbn. intros -> ->.
  reflexivity.
Qed.

Lemma content_fix_last level cs :
  map (content is_space) (fix_last_tail is_space (indent_of level) cs) =
  map (content is_space) cs.
Proof.
  induction cs as [|c cs IH]; [reflexivity|].
  destruct cs as [|d cs].
  - cbn [fix_last_tail map].
    destruct (blank is_space (tail_of c)) eqn:B; [|reflexivity].
    rewrite content_set_blank_tail; auto using blank_indent.
  - rewrite fix_last_cons by discriminate.
    cbn [map] in *. rewrite IH. reflexivity.
Qed.

Lemma norm_text_rule level t :
  (if blank is_space (text_rule is_space level t) then None
   else text_rule is_space level t) =
  (if blank is_space t then None else t).
Proof.
  unfold text_rule. destruct (blank is_space t) eqn:B.
  - rewrite blank_indent_text. reflexivity.
  - rewrite B. reflexivity.
Qed.

Lemma norm_tail_rule level t :
  (if blank is_space (tail_rule is_space level t) then None
   else tail_rule is_space level t) =
  if (level =? 0)%nat then None else if blank is_space t then None else t.
Proof.
  unfold tail_rule. destruct (level =? 0)%nat.
  - cbn. rewrite space_nl. reflexivity.
  - destruct (blank is_space t) eqn:B.
    + rewrite blank_indent. reflexivity.
    + rewrite B. reflexivity.
Qed.

(** X16: Indenting touches white space only: tags, attributes, the order
    and nesting of the children and every text and tail that is not blank
    are kept. The one exception is the tail of the element the call starts
    at (level 0), which becomes a newline whatever it was. *)
Theorem indent_xml_keeps_content :
  forall e level,
    content is_space (_indent_xml is_space level e) =
    if (level =? 0)%nat then set_tail None (content is_space e)
    else content is_space e.
Proof.
  induction e as [tag attrib text tail children IH] using element_induction.
  intros level.
  assert (Hch : map (content is_space)
                  (map (_indent_xml is_space (S level)) children) =
                map (content is_space) children).
  { rewrite map_map. apply map_ext_Forall.
    eapply Forall_impl; [|exact IH]. cbn beta. intros c Hc. apply (Hc (S level)). }
  destruct children as [|c cs].
  - rewrite indent_leaf. cbn [content map]. rewrite norm_tail_rule.
    destruct (level =? 0)%nat; reflexivity.
  - rewrite indent_node. cbn [content].
    rewrite norm_text_rule, norm_tail_rule, content_fix_last, Hch.
    destruct (level =? 0)%nat; reflexivity.
Qed.

End IndentFacts.

Lemma indent_xml_idempotent_witness :
  _indent_xml ascii_space 0 (_indent_xml ascii_space 0 sample_tree) =
  _indent_xml ascii_space 0 sample_tree.
Proof.
  apply (indent_xml_idempotent ascii_space eq_refl eq_refl sample_tree 0).
Defined.

Lemma indent_xml_keeps_content_witness :
  content ascii_space (_indent_xml ascii_space 1 sample_tree) =
  content ascii_space sample_tree.
Proof.
  apply (indent_xml_keeps_content ascii_space eq_refl eq_refl sample_tree 1).
Defined.

(** * The car list *)

Lemma In_combine_seq {A : Type} (l : list A) (n i : nat) (x : A) :
  In (i, x) (combine (seq n (length l)) l) <->
  (n <= i)%nat /\ nth_error l (i - n) = Some x.
Proof.
  revert n. induction l as [|y l IH]; intros n; cbn [length seq combine In].
  - split; [tauto|]. intros [_ H]. destruct (i - n)%nat; discriminate.
  - rewrite IH. split.
    + intros [E | [Hle Hn]].
      * inversion E; subst. split; [lia|]. rewrite Nat.sub_diag. reflexivity.
      * split; [lia|]. replace (i - n)%nat with (S (i - S n)) by lia.
        exact Hn.
    + intros [Hle Hn]. destruct (Nat.eq_dec n i) as [->|Hne].
      * left. rewrite Nat.sub_diag in Hn. cbn in Hn. congruence.
      * right. split; [lia|].
        replace (i - n)%nat with (S (i - S n)) in Hn by lia. exact Hn.
Qed.

Lemma filter_seq_sorted {A : Type} (P : nat * A -> bool) (l : list A) (n : nat) :
  StronglySorted lt (map fst (filter P (combine (seq n (length l)) l))).
Proof.
  revert n. induction l as [|y l IH]; intros n; cbn [length seq combine filter].
  - constructor.
  - destruct (P (n, y)); [|apply IH].
    cbn [map fst]. constructor; [apply IH|].
    apply Forall_forall. intros i Hi. apply in_map_iff in Hi.
    destruct Hi as [[j x] [E Hin]]. cbn in E. subst j.
    apply filter_In in Hin. destruct Hin as [Hin _].
    apply In_combine_seq in Hin. lia.
Qed.

Section CarListFacts.
Variable lower : pystr -> pystr.

Lemma populate_fold (ft : pystr) (ps : list (nat * pystr))
  (box : list pystr) (idxs : list nat) :
  let shown := fun p : nat * pystr => contains (lower (snd p)) ft in
  fold_left
    (fun (acc : list pystr * list nat) (p : nat * pystr) =>
       let '(i, name) := p in
       if contains (lower name) ft
       then (fst acc ++ [name], snd acc ++ [i])
       else acc)
    ps (box, idxs) =
  (box ++ map snd (filter shown ps), idxs ++ map fst (filter shown ps)).
Proof.
  cbn zeta. revert box idxs.
  induction ps as [|[i name] ps IH]; intros box idxs.
  - cbn. rewrite !app_nil_r. reflexivity.
  - cbn [fold_left filter snd].
    destruct (contains (lower name) ft).
    + rewrite IH. cbn [fst snd map]. rewrite <- !app_assoc. reflexivity.
    + apply IH.
Qed.

Lemma populate_spec (car_display : list pystr) (filter_text : pystr) :
  let shown :=
    fun p : nat * pystr => contains (lower (snd p)) (lower filter_text) in
  _populate_car_list lower car_display filter_text =
  (map snd (filter shown (enumerate car_display)),
   map fst (filter shown (enumerate car_display))).
Proof.
  cbn zeta. unfold _populate_car_list. cbn zeta.
  rewrite populate_fold. reflexivity.
Qed.

(** X17: Each row of the filtered list box stands for the file the
    selection handler loads: at a row that shows [name],
    [self._filtered_indices] holds an index inside [self.car_files], the
    file there has [name] as its display name, and the name contains the
    lowered filter. The indices rise strictly, and every car whose name
    contains the filter has a row. *)
Theorem car_list_rows_match_files
  (car_files : list pystr) (filter_text : pystr) :
  let display := car_display_of car_files in
  let box := fst (_populate_car_list lower display filter_text) in
  let idxs := snd (_populate_car_list lower display filter_text) in
  (forall row name,
      nth_error box row = Some name ->
      exists f,
        selected_car_file car_files idxs row = Some f /\
        name = remove_all f (py "_ET.xml") /\
        contains (lower name) (lower filter_text) = true) /\
  StronglySorted lt idxs /\
  (forall i f,
      nth_error car_files i = Some f ->
      contains (lower (remove_all f (py "_ET.xml"))) (lower filter_text)
        = true ->
      In i idxs).
Proof.
  cbn zeta. rewrite populate_spec. cbn [fst snd].
  set (shown := fun p : nat * pystr =>
                  contains (lower (snd p)) (lower filter_text)).
  split; [|split].
  - intros row name Hrow.
    rewrite nth_error_map in Hrow.
    destruct (nth_error (filter shown (enumerate (car_display_of car_files)))
                row) as [[i name']|] eqn:E; [|discriminate].
    cbn in Hrow. inversion Hrow; subst name'.
    pose proof (nth_error_In _ _ E) as Hin.
    apply filter_In in Hin. destruct Hin as [Hin Hshown].
    apply In_combine_seq in Hin. destruct Hin as [_ Hn].
    rewrite Nat.sub_0_r in Hn. unfold car_display_of in Hn.
    rewrite nth_error_map in Hn.
    destruct (nth_error car_files i) as [f|] eqn:Ef; [|discriminate].
    cbn in Hn. inversion Hn; subst name.
    exists f. unfold selected_car_file.
    rewrite nth_error_map, E. cbn [option_map fst].
    repeat split; [exact Ef | exact Hshown].
  - apply filter_seq_sorted.
  - intros i f Hf Hc. apply in_map_iff.
    exists (i, remove_all f (py "_ET.xml")). split; [reflexivity|].
    apply filter_In. split; [|exact Hc].
    apply In_combine_seq. split; [lia|].
    rewrite Nat.sub_0_r. unfold car_display_of.
    rewrite nth_error_map, Hf. reflexivity.
Qed.

End CarListFacts.

(** * Undo and redo *)

Lemma pop_snoc {A : Type} (l : list A) (x : A) : pop (l ++ [x]) = Some (x, l).
Proof. unfold pop. rewrite rev_app_distr. cbn. rewrite rev_involutive. reflexivity. Qed.

Lemma pop_Some {A : Type} (l r : list A) (x : A) :
  pop l = Some (x, r) -> l = r ++ [x].
Proof.
  unfold pop. destruct (rev l) as [|y t] eqn:E; [discriminate|].
  intros H. inversion H; subst.
  rewrite <- (rev_involutive l), E. reflexivity.
Qed.

Section HistoryFacts.
Variables widgets snapshot : Type.
Variable snapshot_eqb : snapshot -> snapshot -> bool.
Variable _capture_state : widgets -> snapshot.
Variable _restore_state : snapshot -> widgets -> widgets.

#[local] Abbreviation step :=
  (handle snapshot_eqb _capture_state _restore_state).

Lemma handle_keeps_bound (a : tuner widgets snapshot) (ev : event widgets) :
  (history_size a <= 50)%nat -> (history_size (step a ev) <= 50)%nat.
Proof.
  unfold history_size. intros H.
  destruct ev as [w| | | |[w|]]; cbn [handle].
  - cbn. exact H.
  - unfold _check_and_push_undo.
    destruct (_last_state a) as [last|]; [|exact H].
    destruct (negb _); [|exact H].
    cbn [_undo_stack _redo_stack length].
    destruct (50 <? length (_undo_stack a ++ [last]))%nat eqn:E.
    + rewrite length_app in *. cbn [length] in *.
      destruct (_undo_stack a) as [|s u]; cbn in *.
      * lia.
      * rewrite length_app. cbn. lia.
    + apply Nat.ltb_ge in E. lia.
  - unfold _on_undo.
    destruct (pop (_undo_stack a)) as [[state undo]|] eqn:E; [|exact H].
    destruct (negb _); [exact H|].
    apply pop_Some in E. rewrite E in H. cbn [_undo_stack _redo_stack].
    rewrite length_app in *. cbn [length] in *. lia.
  - unfold _on_redo.
    destruct (pop (_redo_stack a)) as [[state redo]|] eqn:E; [|exact H].
    destruct (negb _); [exact H|].
    apply pop_Some in E. rewrite E in H. cbn [_undo_stack _redo_stack].
    rewrite length_app in *. cbn [length] in *. lia.
  - cbn. lia.
  - exact H.
Qed.

(** X18: Whatever the user does (edits, timer ticks, undo, redo, picking
    cars), the undo and the redo stack never hold more than 50 snapshots
    between them. *)
Theorem history_never_exceeds_50 (w : widgets) (evs : list (event widgets)) :
  let a := run snapshot_eqb _capture_state _restore_state w evs in
  (length (_undo_stack a) + length (_redo_stack a) <= 50)%nat.
Proof.
  cbn zeta. unfold run.
  assert (H : (history_size (@init_tuner widgets snapshot w) <= 50)%nat)
    by (cbn; lia).
  revert H. generalize (@init_tuner widgets snapshot w).
  induction evs as [|ev evs IH]; intros a H; cbn [fold_left].
  - exact H.
  - apply IH. apply (handle_keeps_bound a ev H).
Qed.

(** X19: An edit that the timer records can be undone: after the edit,
    the tick and Ctrl+Z the widgets are restored from the snapshot taken
    before the edit, the redo stack holds exactly the snapshot of the
    edited widgets, and the undo stack is as before the edit, less its
    oldest snapshot when it was full. *)
Theorem edit_then_undo (a : tuner widgets snapshot) (w' : widgets) :
  tree_loaded a = true ->
  _last_state a = Some (_capture_state (ui a)) ->
  snapshot_eqb (_capture_state w') (_capture_state (ui a)) = false ->
  (length (_undo_stack a) <= 50)%nat ->
  let a' := step (step (step a (EvEdit w')) EvTimer) EvUndo in
  ui a' = _restore_state (_capture_state (ui a)) w' /\
  _redo_stack a' = [_capture_state w'] /\
  _last_state a' = Some (_capture_state (ui a)) /\
  _undo_stack a' =
    (if (length (_undo_stack a) =? 50)%nat then tl (_undo_stack a)
     else _undo_stack a).
Proof.
  intros Ht Hl Hne Hlen. cbn zeta. cbn [handle].
  unfold _check_and_push_undo.
  cbn [ui _last_state _undo_stack _redo_stack tree_loaded].
  rewrite Hl, Hne. cbn [negb].
  set (last := _capture_state (ui a)).
  assert (Hpop :
    pop (if (50 <? length (_undo_stack a ++ [last]))%nat
         then tl (_undo_stack a ++ [last]) else _undo_stack a ++ [last]) =
    Some (last, if (length (_undo_stack a) =? 50)%nat
                then tl (_undo_stack a) else _undo_stack a)).
  { rewrite length_app. cbn [length].
    destruct (length (_undo_stack a) =? 50)%nat eqn:E.
    - apply Nat.eqb_eq in E. rewrite E. cbn [Nat.add Nat.ltb Nat.leb].
      destruct (_undo_stack a) as [|s u]; [discriminate|].
      cbn [app tl]. apply pop_snoc.
    - apply Nat.eqb_neq in E.
      destruct (50 <? length (_undo_stack a) + 1)%nat eqn:L.
      + apply Nat.ltb_lt in L. lia.
      + apply pop_snoc. }
  unfold _on_undo. cbn [_undo_stack tree_loaded ui _redo_stack].
  rewrite Hpop, Ht. cbn [negb ui _redo_stack _last_state _undo_stack app].
  repeat split.
Qed.

(** X20: Ctrl+Y after Ctrl+Z: the redo stack is back as it was, the
    widgets are restored from the snapshot taken before the undo, and the
    undo stack ends with a snapshot of the undone widgets in place of the
    one that was undone. *)
Theorem undo_then_redo (a : tuner widgets snapshot) (state : snapshot)
  (undo : list snapshot) :
  tree_loaded a = true ->
  _undo_stack a = undo ++ [state] ->
  let undone := _restore_state state (ui a) in
  step (step a EvUndo) EvRedo =
  mk_tuner (_restore_state (_capture_state (ui a)) undone) true
    (undo ++ [_capture_state undone]) (_redo_stack a)
    (Some (_capture_state (ui a))).
Proof.
  intros Ht Hu. cbn zeta. cbn [handle]. unfold _on_undo.
  rewrite Hu, pop_snoc, Ht. cbn [negb].
  unfold _on_redo. cbn [_redo_stack tree_loaded ui _undo_stack].
  rewrite pop_snoc. cbn [negb]. reflexivity.
Qed.

End HistoryFacts.

Lemma edit_then_undo_witness :
  let a := mk_tuner 1 true [5; 6] [] (Some 1) in
  let a' :=
    handle Z.eqb (fun w : Z => w) (fun (s : Z) (_ : Z) => s)
      (handle Z.eqb (fun w : Z => w) (fun (s : Z) (_ : Z) => s)
         (handle Z.eqb (fun w : Z => w) (fun (s : Z) (_ : Z) => s)
            a (EvEdit 2)) EvTimer) EvUndo in
  ui a' = 1 /\ _redo_stack a' = [2] /\ _last_state a' = Some 1 /\
  _undo_stack a' = [5; 6].
Proof.
  apply (edit_then_undo Z Z Z.eqb (fun w : Z => w) (fun (s : Z) (_ : Z) => s)
           (mk_tuner 1 true [5; 6] [] (Some 1)) 2);
    [reflexivity | reflexivity | reflexivity | cbn; lia].
Defined.

Lemma undo_then_redo_witness :
  let a := mk_tuner 3 true [5; 6] [9] (Some 3) in
  handle Z.eqb (fun w : Z => w) (fun (s : Z) (_ : Z) => s)
    (handle Z.eqb (fun w : Z => w) (fun (s : Z) (_ : Z) => s) a EvUndo)
    EvRedo =
  mk_tuner 3 true [5; 6] [9] (Some 3).
Proof.
  apply (undo_then_redo Z Z Z.eqb (fun w : Z => w) (fun (s : Z) (_ : Z) => s)
           (mk_tuner 3 true [5; 6] [9] (Some 3)) 6 [5]);
    reflexivity.
Defined.

(** * From the selection back to the file name *)

Lemma get_filename_first (display : pystr) (ht_list : list ht_entry) :
  (exists e, In e ht_list /\ entry_display e = display) ->
  exists e', In e' ht_list /\ entry_display e' = display
    /\ _get_filename_from_display display ht_list = Some (entry_filename e')
    /\ exists before after,
         ht_list = before ++ e' :: after
         /\ forall x, In x before -> entry_display x <> display.
Proof.
  induction ht_list as [|x l IH]; intros [e [Hin Hd]]; [destruct Hin|].
  cbn [_get_filename_from_display].
  destruct (str_eqb (entry_display x) display) eqn:E.
  - exists x. apply str_eqb_eq in E. repeat split; auto with datatypes.
    exists [], l. split; [reflexivity|]. intros y [].
  - assert (Hx : entry_display x <> display).
    { intros Ex. rewrite Ex, str_eqb_refl in E. discriminate. }
    destruct Hin as [->|Hin]; [contradiction|].
    destruct IH as [e' [Hin' [Hd' [Hg [before [after [El Hb]]]]]]];
      [exists e; auto|].
    exists e'. repeat split; auto with datatypes.
    exists (x :: before), after. split; [now rewrite El|].
    intros y [<-|Hy]; auto.
Qed.

Lemma get_filename_none (display : pystr) (ht_list : list ht_entry) :
  (forall e, In e ht_list -> entry_display e <> display) ->
  _get_filename_from_display display ht_list = None.
Proof.
  induction ht_list as [|x l IH]; intros H; [reflexivity|].
  cbn [_get_filename_from_display].
  destruct (str_eqb (entry_display x) display) eqn:E.
  - apply str_eqb_eq in E. exfalso. apply (H x); auto with datatypes.
  - apply IH. intros e He. apply H. auto with datatypes.
Qed.

Lemma same_display_same_entry (ht_list : list ht_entry) (e e' : ht_entry) :
  NoDup (map entry_display ht_list) ->
  In e ht_list -> In e' ht_list -> entry_display e' = entry_display e ->
  e' = e.
Proof.
  induction ht_list as [|x l IH]; intros Hnd He He' Hd; [destruct He|].
  cbn [map] in Hnd. inversion Hnd as [|d ds Hnot Hnd']; subst.
  destruct He as [->|He], He' as [->|He'].
  - reflexivity.
  - exfalso. apply Hnot. rewrite <- Hd. apply in_map. exact He'.
  - exfalso. apply Hnot. rewrite Hd. apply in_map. exact He.
  - apply IH; assumption.
Qed.

Section SaveSelection.
Variable is_decimal : Z -> bool.

(** X21: from the car file to the drop-down and back. When the HT file
    that a car names is one of the loaded files, the display name that
    [_select_ht_combo] puts in the variable is looked up on saving as the
    file name of a loaded file with that same display name: the first one
    in the list, no entry before it having that display name. It is the
    car's own file when no two loaded files share a display name; when
    none of the loaded files has the display name, the lookup gives
    [None]. *)
Theorem selection_round_trip (ht_list : list ht_entry) (values : list pystr)
    (comp filename : pystr) :
  let display := snd (_select_ht_combo is_decimal values filename) in
  (forall entry,
      In entry ht_list -> entry_filename entry = filename ->
      from_file is_decimal comp entry ->
      exists e',
        In e' ht_list /\ entry_display e' = entry_display entry
        /\ _get_filename_from_display display ht_list
           = Some (entry_filename e')
        /\ (NoDup (map entry_display ht_list) -> e' = entry)
        /\ exists before after,
             ht_list = before ++ e' :: after
             /\ forall x, In x before ->
                          entry_display x <> entry_display entry)
  /\ ((forall e, In e ht_list -> entry_display e <> display) ->
      _get_filename_from_display display ht_list = None).
Proof.
  cbn zeta. unfold _select_ht_combo. cbn [snd]. split.
  - intros entry Hin Hf [prefix P]. rewrite Hf in P.
    rewrite (ht_display_name_parsed is_decimal _ _ _ _ _ _ P).
    destruct (get_filename_first (entry_display entry) ht_list)
      as [e' [Hin' [Hd' [Hg Hfirst]]]]; [exists entry; auto|].
    exists e'. repeat split; try assumption.
    intros Hnd. apply (same_display_same_entry ht_list); assumption.
  - apply get_filename_none.
Qed.

End SaveSelection.

Lemma selection_round_trip_witness :
  let entry :=
    mk_ht (py "4I1_Civic_Exh_HT.xml") (py "4I1 Civic") (Some (py "4")) in
  exists e',
    In e' [entry] /\ entry_display e' = entry_display entry
    /\ _get_filename_from_display
         (snd (_select_ht_combo ascii_digit [] (py "4I1_Civic_Exh_HT.xml")))
         [entry]
       = Some (entry_filename e')
    /\ (NoDup (map entry_display [entry]) -> e' = entry)
    /\ exists before after,
         [entry] = before ++ e' :: after
         /\ forall x, In x before -> entry_display x <> entry_display entry.
Proof.
  cbn zeta.
  apply (proj1 (selection_round_trip ascii_digit
                  [mk_ht (py "4I1_Civic_Exh_HT.xml") (py "4I1 Civic")
                     (Some (py "4"))]
                  [] (py "Exhaust") (py "4I1_Civic_Exh_HT.xml"))).
  - left. reflexivity.
  - reflexivity.
  - exists (py "4I1"). vm_compute. reflexivity.
Defined.
